(** * RQL: the query parser and serializer of swimlane/rql

    A shallow embedding of [src/parser.ts], [src/converters.ts] and
    [src/query.ts].  JavaScript strings are sequences of UTF-16 code units;
    a code unit is a number of type [N] and a string is a [list N].  Thrown
    exceptions are the [Err] side of the [result] type.  Loops over an index
    keep the index of the source; a loop that the source runs until
    [index < str.length] fails is given as many steps of fuel as the string
    has characters. *)

From Stdlib Require Import String Ascii.
From Stdlib Require Import List NArith ZArith Bool Arith Lia.
Import ListNotations.

Set Implicit Arguments.
Set Warnings "-register-all".

(* ===================================================================== *)
(** ** Strings of code units *)
(* ===================================================================== *)

Definition jstring := list N.

(** The code unit of an ASCII character, and the string of a literal. *)
Definition ch (a : ascii) : N := N_of_ascii a.
Definition js (s : string) : jstring := map N_of_ascii (list_ascii_of_string s).

(** The double quote, and the string of a literal in which a backquote
    stands for a double quote. *)
Definition dquote : N := 34.
Definition jsq (s : string) : jstring :=
  map (fun c => if N.eqb c (ch "`") then dquote else c) (js s).

Fixpoint str_eqb (a b : jstring) : bool :=
  match a, b with
  | [], [] => true
  | x :: a', y :: b' => N.eqb x y && str_eqb a' b'
  | _, _ => false
  end.

Definition is_empty (s : jstring) : bool :=
  match s with [] => true | _ => false end.

(** [c] is one of the code units of the literal [set]. *)
Definition one_of (set : string) (c : N) : bool :=
  existsb (N.eqb c) (js set).

Definition in_range (lo hi : ascii) (c : N) : bool :=
  (N.leb (ch lo) c && N.leb c (ch hi))%bool.

Definition is_digit (c : N) : bool := in_range "0" "9" c.
Definition is_upper (c : N) : bool := in_range "A" "Z" c.
Definition is_lower (c : N) : bool := in_range "a" "z" c.

(** [\w] of a regular expression without the [u] and [i] flags. *)
Definition is_word (c : N) : bool :=
  is_digit c || is_upper c || is_lower c || N.eqb c (ch "_").

(** WhiteSpace and LineTerminator of ECMAScript: what [String.prototype.trim]
    strips and what surrounds a numeric string. *)
Definition is_js_space (c : N) : bool :=
  existsb (N.eqb c)
    [9; 10; 11; 12; 13; 32; 160; 5760; 8232; 8233; 8239; 8287; 12288; 65279]%N
  || (N.leb 8192 c && N.leb c 8202).

(** LineTerminator: what [.] of a regular expression does not match. *)
Definition is_line_terminator (c : N) : bool :=
  existsb (N.eqb c) [10; 13; 8232; 8233]%N.

(* ===================================================================== *)
(** ** Exceptions *)
(* ===================================================================== *)

Inductive error :=
| RQLParseError (message : jstring)
| RQLConversionError (message : jstring)
| URIError
| TypeError
| RangeError
| OutOfFuel.

Inductive result (A : Type) :=
| Ok (a : A)
| Err (e : error).
Arguments Ok {A} a.
Arguments Err {A} e.

Definition bind {A B} (r : result A) (k : A -> result B) : result B :=
  match r with Ok a => k a | Err e => Err e end.

Notation "x <- e ;; k" := (bind e (fun x => k))
  (at level 61, e at next level, right associativity).

(** [Array.prototype.map] with a callback that may throw: left to right, the
    first exception wins. *)
Fixpoint mapM {A B} (f : A -> result B) (l : list A) : result (list B) :=
  match l with
  | [] => Ok []
  | a :: l' => b <- f a ;; bs <- mapM f l' ;; Ok (b :: bs)
  end.

(* ===================================================================== *)
(** ** The string methods the source calls *)
(* ===================================================================== *)

(** [s.charAt(i)]: the empty string out of range. *)
Definition charAt (s : jstring) (i : Z) : jstring :=
  if (i <? 0)%Z then [] else
  match nth_error s (Z.to_nat i) with Some c => [c] | None => [] end.

Definition clamp (len : nat) (i : Z) : nat :=
  Z.to_nat (Z.min (Z.max i 0) (Z.of_nat len)).

(** [s.substring(a, b)]: both ends clamped to the string, swapped when
    [a > b]. *)
Definition substring (s : jstring) (a b : Z) : jstring :=
  let a' := clamp (length s) a in
  let b' := clamp (length s) b in
  let lo := Nat.min a' b' in
  let hi := Nat.max a' b' in
  firstn (hi - lo) (skipn lo s).

(** [s.substring(a)]. *)
Definition substring_from (s : jstring) (a : Z) : jstring :=
  substring s a (Z.of_nat (length s)).

(** A relative index of [slice]: negative counts from the end. *)
Definition slice_index (len : nat) (i : Z) : nat :=
  if (i <? 0)%Z then Z.to_nat (Z.max (Z.of_nat len + i) 0)
  else Nat.min (Z.to_nat i) len.

(** [s.slice(a, b)]. *)
Definition slice (s : jstring) (a b : Z) : jstring :=
  let a' := slice_index (length s) a in
  let b' := slice_index (length s) b in
  firstn (b' - a') (skipn a' s).

(** [s.slice(a)] with [a] an index of the loop (never negative). *)
Definition slice_from (s : jstring) (a : nat) : jstring := skipn a s.

(** [s.substr(start, len)] with [start >= 0]. *)
Definition substr (s : jstring) (start : nat) (len : Z) : jstring :=
  firstn (Z.to_nat len) (skipn start s).

(** [s.trim()]. *)
Fixpoint trimStart (s : jstring) : jstring :=
  match s with
  | c :: s' => if is_js_space c then trimStart s' else s
  | [] => []
  end.

Definition String_trim (s : jstring) : jstring :=
  rev (trimStart (rev (trimStart s))).

Fixpoint starts_with (pat s : jstring) : bool :=
  match pat, s with
  | [], _ => true
  | p :: pat', c :: s' => N.eqb p c && starts_with pat' s'
  | _ :: _, [] => false
  end.

(** The first occurrence of [pat] in [s], counted from [i]. *)
Fixpoint indexOf_from (pat s : jstring) (i : nat) : option nat :=
  if starts_with pat s then Some i else
  match s with
  | [] => None
  | _ :: s' => indexOf_from pat s' (S i)
  end.

(** [s.indexOf(pat)]. *)
Definition indexOf (s pat : jstring) : Z :=
  match indexOf_from pat s 0 with Some i => Z.of_nat i | None => (-1)%Z end.

(** [s.replace(pat, rep)] with a string pattern: the first occurrence only.
    No replacement of the source holds a [$]. *)
Definition replace_first (s pat rep : jstring) : jstring :=
  match indexOf_from pat s 0 with
  | Some i => firstn i s ++ rep ++ skipn (i + length pat) s
  | None => s
  end.

(** [arr.join(sep)] on strings. *)
Fixpoint join (sep : jstring) (l : list jstring) : jstring :=
  match l with
  | [] => []
  | [s] => s
  | s :: l' => s ++ sep ++ join sep l'
  end.

(* ===================================================================== *)
(** ** Regular expressions: a backtracking matcher

    The matcher follows the ECMAScript semantics for the constructs the
    source uses: alternatives are tried left to right, quantifiers are
    greedy and give characters back one at a time, an iteration of a star
    that consumes nothing is refused, and a search tries every start
    position from left to right. *)
(* ===================================================================== *)

Inductive regex :=
| RChar (c : N)
| RClass (p : N -> bool)
| RSeq (r1 r2 : regex)
| RAlt (r1 r2 : regex)
| RStar (r : regex)
| REmpty
| RGroup (i : nat) (r : regex)
| RBol
| REol.

Definition RPlus (r : regex) : regex := RSeq r (RStar r).
Definition ROpt (r : regex) : regex := RAlt r REmpty.

(** The regular expression of a literal text. *)
Fixpoint RLit (s : jstring) : regex :=
  match s with
  | [] => REmpty
  | [c] => RChar c
  | c :: s' => RSeq (RChar c) (RLit s')
  end.

Definition captures := list (nat * jstring).

Fixpoint capture (caps : captures) (i : nat) : jstring :=
  match caps with
  | [] => []
  | (j, s) :: caps' => if Nat.eqb i j then s else capture caps' i
  end.

Section Matcher.
Variable A : Type.

(** The continuation receives the position reached, the text left and the
    groups captured so far. *)
Definition cont := nat -> jstring -> captures -> option A.

Fixpoint rmatch (r : regex) (pos : nat) (rest : jstring) (caps : captures)
         (k : cont) {struct r} : option A :=
  match r with
  | RChar c =>
      match rest with
      | x :: rest' => if N.eqb x c then k (S pos) rest' caps else None
      | [] => None
      end
  | RClass p =>
      match rest with
      | x :: rest' => if p x then k (S pos) rest' caps else None
      | [] => None
      end
  | RSeq r1 r2 =>
      rmatch r1 pos rest caps
        (fun pos' rest' caps' => rmatch r2 pos' rest' caps' k)
  | RAlt r1 r2 =>
      match rmatch r1 pos rest caps k with
      | Some a => Some a
      | None => rmatch r2 pos rest caps k
      end
  | RStar r0 =>
      (fix star (fuel : nat) (pos : nat) (rest : jstring) (caps : captures)
           {struct fuel} : option A :=
         match fuel with
         | O => k pos rest caps
         | S fuel' =>
             match rmatch r0 pos rest caps
                     (fun pos' rest' caps' =>
                        if pos <? pos' then star fuel' pos' rest' caps'
                        else None) with
             | Some a => Some a
             | None => k pos rest caps
             end
         end) (length rest) pos rest caps
  | REmpty => k pos rest caps
  | RGroup i r0 =>
      rmatch r0 pos rest caps
        (fun pos' rest' caps' =>
           k pos' rest' ((i, firstn (pos' - pos) rest) :: caps'))
  | RBol => if pos =? 0 then k pos rest caps else None
  | REol => match rest with [] => k pos rest caps | _ :: _ => None end
  end.
End Matcher.

(** A match: where it starts, where it ends, and its groups. *)
Record rmatched := { m_index : nat; m_end : nat; m_groups : captures }.

(** The continuation of a search: the match is recorded. *)
Definition found (pos : nat) : cont rmatched :=
  fun pos' _ caps => Some {| m_index := pos; m_end := pos'; m_groups := caps |}.

(** The leftmost match at or after [pos], [rest] being the text from [pos]. *)
Fixpoint search (r : regex) (pos : nat) (rest : jstring) : option rmatched :=
  match rmatch r pos rest [] (found pos) with
  | Some m => Some m
  | None =>
      match rest with
      | [] => None
      | _ :: rest' => search r (S pos) rest'
      end
  end.

(** [re.exec(s)] for a regular expression without the [g] flag. *)
Definition exec (r : regex) (s : jstring) : option rmatched := search r 0 s.

(** [re.test(s)], and [s.match(re) !== null]. *)
Definition test (r : regex) (s : jstring) : bool :=
  match exec r s with Some _ => true | None => false end.

(** The text of a match, [m[0]]. *)
Definition matched_text (s : jstring) (m : rmatched) : jstring :=
  firstn (m_end m - m_index m) (skipn (m_index m) s).

(** [s.replace(re, f)] for [re] with the [g] flag and [f] a function of the
    match and its groups that may throw.  [pos] is the position of [rest] in
    the string; after an empty match the search resumes one character
    later. *)
Fixpoint replace_loop (fuel : nat) (r : regex)
         (f : jstring -> captures -> result jstring)
         (pos : nat) (rest : jstring) : result jstring :=
  match fuel with
  | O => Err OutOfFuel
  | S fuel' =>
      match search r pos rest with
      | None => Ok rest
      | Some m =>
          let before := firstn (m_index m - pos) rest in
          let from_match := skipn (m_index m - pos) rest in
          let text := firstn (m_end m - m_index m) from_match in
          rep <- f text (m_groups m) ;;
          if m_index m <? m_end m then
            tail <- replace_loop fuel' r f (m_end m)
                      (skipn (m_end m - m_index m) from_match) ;;
            Ok (before ++ rep ++ tail)
          else
            match from_match with
            | [] => Ok (before ++ rep)
            | c :: rest' =>
                tail <- replace_loop fuel' r f (S (m_index m)) rest' ;;
                Ok (before ++ rep ++ c :: tail)
            end
      end
  end.

Definition replace_all (r : regex) (f : jstring -> captures -> result jstring)
           (s : jstring) : result jstring :=
  replace_loop (S (length s)) r f 0 s.

(* ===================================================================== *)
(** ** parser.ts: the scanner, the splitter and the trimmer *)
(* ===================================================================== *)

(** The default escape character, a backslash. *)
Definition default_delimiter : jstring := [ch "\"].

Definition is_quote (c : N) : bool := N.eqb c (ch "'") || N.eqb c dquote.

(** The loop of [inside].  [quoteType] is the empty string or the quote
    character that opened the quoted run; [untilCount] counts the open
    parens. *)
Fixpoint inside_loop (fuel : nat) (str delimiter : jstring)
         (insideStr : jstring) (untilCount : Z) (index : nat)
         (delimited : bool) (quoteType : jstring) : result jstring :=
  if index <? length str then
    match fuel with
    | O => Err OutOfFuel
    | S fuel' =>
        let char := nth index str 0%N in
        if delimited then
          inside_loop fuel' str delimiter (insideStr ++ [char]) untilCount
            (index + 1) false quoteType
        else if is_empty quoteType && str_eqb [char] delimiter then
          inside_loop fuel' str delimiter insideStr untilCount
            (index + 1) true quoteType
        else if is_quote char then
          let quoteType' :=
            if is_empty quoteType then [char]
            else if str_eqb quoteType [char] then []
            else quoteType in
          inside_loop fuel' str delimiter (insideStr ++ [char]) untilCount
            (index + 1) delimited quoteType'
        else if negb (is_empty quoteType) then
          inside_loop fuel' str delimiter (insideStr ++ [char]) untilCount
            (index + 1) delimited quoteType
        else if N.eqb char (ch "(") then
          inside_loop fuel' str delimiter (insideStr ++ [char])
            (untilCount + 1) (index + 1) delimited quoteType
        else if N.eqb char (ch ")") then
          let untilCount' := (untilCount - 1)%Z in
          if (untilCount' =? 0)%Z then Ok insideStr
          else
            inside_loop fuel' str delimiter (insideStr ++ [char]) untilCount'
              (index + 1) delimited quoteType
        else
          inside_loop fuel' str delimiter (insideStr ++ [char]) untilCount
            (index + 1) delimited quoteType
    end
  else Err (RQLParseError (js "Could not find closing paren")).

(** [inside(str, delimiter)]: the loop starts at index 1, the first character
    being taken for the opening paren. *)
Definition inside_with (str delimiter : jstring) : result jstring :=
  inside_loop (length str) str delimiter [] 1 1 false [].

Definition inside (str : jstring) : result jstring :=
  inside_with str default_delimiter.

(** [.] of a regular expression. *)
Definition RDot : regex := RClass (fun c => negb (is_line_terminator c)).

(** [/^'.*'$/] and [/^".*"$/]. *)
Definition re_quoted (q : N) : regex :=
  RSeq RBol (RSeq (RChar q) (RSeq (RStar RDot) (RSeq (RChar q) REol))).

(** [trim(str)]. *)
Definition trim (str : jstring) : jstring :=
  let trimmed := String_trim str in
  if test (re_quoted (ch "'")) trimmed || test (re_quoted dquote) trimmed
  then slice trimmed 1 (-1)
  else trimmed.

(** What [splitArguments] returns: strings and nested arrays of them. *)
Inductive arg :=
| AStr (s : jstring)
| AArr (elems : list arg).

(** [/( *,)| *$/]. *)
Definition re_toNextArg : regex :=
  RAlt (RGroup 1 (RSeq (RStar (RChar (ch " "))) (RChar (ch ","))))
       (RSeq (RStar (RChar (ch " "))) REol).

Section SplitLoop.
(** The recursive call [splitArguments(arr)] on the inside of an array. *)
Variable splitArguments_rec : jstring -> result (list arg).

Fixpoint split_loop (fuel : nat) (str delimiter : jstring)
         (args : list arg) (currentArg : jstring)
         (delimited : bool) (quoteType : jstring) (index : nat)
  : result (list arg) :=
  if index <? length str then
    match fuel with
    | O => Err OutOfFuel
    | S fuel' =>
        let char := nth index str 0%N in
        if delimited then
          split_loop fuel' str delimiter args (currentArg ++ [char])
            false quoteType (index + 1)
        else if is_empty quoteType && str_eqb [char] delimiter then
          split_loop fuel' str delimiter args currentArg
            true quoteType (index + 1)
        else if is_quote char then
          if is_empty quoteType then
            split_loop fuel' str delimiter args currentArg
              delimited [char] (index + 1)
          else if str_eqb quoteType [char] then
            split_loop fuel' str delimiter args currentArg
              delimited [] (index + 1)
          else
            split_loop fuel' str delimiter args (currentArg ++ [char])
              delimited quoteType (index + 1)
        else if negb (is_empty quoteType) then
          split_loop fuel' str delimiter args (currentArg ++ [char])
            delimited quoteType (index + 1)
        else if length currentArg =? 0 then
          if N.eqb char (ch "(") then
            arr <- inside (slice_from str index) ;;
            nested <- splitArguments_rec arr ;;
            let index1 := index + (length arr + 1) in
            let index2 :=
              match exec re_toNextArg (slice_from str index1) with
              | Some toNextArg =>
                  index1 + length (matched_text (slice_from str index1)
                                               toNextArg)
              | None => index1
              end in
            split_loop fuel' str delimiter (args ++ [AArr nested]) currentArg
              delimited quoteType (index2 + 1)
          else if N.eqb char (ch " ") then
            split_loop fuel' str delimiter args currentArg
              delimited quoteType (index + 1)
          else
            split_loop fuel' str delimiter args (currentArg ++ [char])
              delimited quoteType (index + 1)
        else if N.eqb char (ch ",") then
          split_loop fuel' str delimiter (args ++ [AStr (trim currentArg)]) []
            delimited quoteType (index + 1)
        else if N.eqb char (ch "(") then
          strInside <- inside (slice_from str index) ;;
          split_loop fuel' str delimiter args
            (currentArg ++ [char] ++ strInside)
            delimited quoteType (index + length strInside + 1)
        else
          split_loop fuel' str delimiter args (currentArg ++ [char])
            delimited quoteType (index + 1)
    end
  else
    if 0 <? length (String_trim currentArg)
    then Ok (args ++ [AStr (trim currentArg)])
    else Ok args.
End SplitLoop.

(** [splitArguments(str, delimiter)].  The call on the inside of an array is
    a call on a shorter string; [depth] bounds the nesting of these calls. *)
Fixpoint splitArguments_fuel (depth : nat) (str delimiter : jstring)
  : result (list arg) :=
  match depth with
  | O => Err OutOfFuel
  | S depth' =>
      split_loop (fun arr => splitArguments_fuel depth' arr default_delimiter)
        (length str) str delimiter [] [] false [] 0
  end.

Definition splitArguments_with (str delimiter : jstring) : result (list arg) :=
  splitArguments_fuel (S (length str)) str delimiter.

Definition splitArguments (str : jstring) : result (list arg) :=
  splitArguments_with str default_delimiter.

(* ===================================================================== *)
(** ** parser.ts: normalizeSyntax *)
(* ===================================================================== *)

(** [operatorMap]. *)
Definition operatorMap (operator : jstring) : option jstring :=
  if str_eqb operator (js "!=") then Some (js "ne")
  else if str_eqb operator (js "<") then Some (js "lt")
  else if str_eqb operator (js "<=") then Some (js "le")
  else if str_eqb operator (js "=") then Some (js "eq")
  else if str_eqb operator (js "==") then Some (js "eq")
  else if str_eqb operator (js ">") then Some (js "gt")
  else if str_eqb operator (js ">=") then Some (js "ge")
  else None.

(** [[\+\*\$\-:\w%\._,]], the class inside a parenthesized property or
    value. *)
Definition class_group (c : N) : bool := one_of "+*$-:%._," c || is_word c.

(** [[\+\*\$\-: \w%\._]] and [[\+\*\$\-:\w %\._]], the class of a bare
    property and of a bare value: the same set. *)
Definition class_bare (c : N) : bool := one_of "+*$-: %._" c || is_word c.

(** [(\([\+\*\$\-:\w%\._,]+\)|[\+\*\$\-: \w%\._]*|)], as group [i]. *)
Definition re_operand (i : nat) : regex :=
  RGroup i
    (RAlt (RSeq (RChar (ch "(")) (RSeq (RPlus (RClass class_group)) (RChar (ch ")"))))
    (RAlt (RStar (RClass class_bare))
          REmpty)).

(** [([<>!]?=(?:[\w]*=)?|>|<)], as group 2. *)
Definition re_operator : regex :=
  RGroup 2
    (RAlt (RSeq (ROpt (RClass (one_of "<>!")))
          (RSeq (RChar (ch "="))
                (ROpt (RSeq (RStar (RClass is_word)) (RChar (ch "="))))))
    (RAlt (RChar (ch ">"))
          (RChar (ch "<")))).

Definition re_infix : regex :=
  RSeq (re_operand 1) (RSeq re_operator (re_operand 3)).

(** The callback of the replacement: [function(t, property, operator, value)]. *)
Definition infix_to_prefix (t : jstring) (groups : captures) : result jstring :=
  let property := capture groups 1 in
  let operator := capture groups 2 in
  let value := capture groups 3 in
  operator' <-
    (if length operator <? 3 then
       match operatorMap operator with
       | None =>
           Err (RQLParseError (jsq "Illegal operator: `" ++ operator ++ jsq "`"))
       | Some name => Ok name
       end
     else Ok (substring operator 1 (Z.of_nat (length operator) - 1))) ;;
  Ok (operator' ++ js "(" ++ property ++ js "," ++ value ++ js ")").

Definition replace_literal (pat rep : string) (s : jstring) : result jstring :=
  replace_all (RLit (js pat)) (fun _ _ => Ok (js rep)) s.

Definition normalizeSyntax (query : jstring) : result jstring :=
  q1 <- replace_literal "%3C=" "=le=" query ;;
  q2 <- replace_literal "%3E=" "=ge=" q1 ;;
  q3 <- replace_literal "%3C" "=lt=" q2 ;;
  q4 <- replace_literal "%3E" "=gt=" q3 ;;
  replace_all re_infix infix_to_prefix q4.

(* ===================================================================== *)
(** ** Numbers

    A JavaScript number is kept as the decimal it was written as: a sign, a
    mantissa and a power of ten.  Whether a string is a numeric literal, which
    is all the source asks of [Number(x)] and [isNaN], is exact; the rounding
    of the decimal to binary64 and its overflow to an infinity are not
    modelled. *)
(* ===================================================================== *)

Inductive jsnum :=
| NaN
| Infinity (negative : bool)
| Dec (negative : bool) (mantissa : N) (exponent : Z).

Definition isNaN (n : jsnum) : bool :=
  match n with NaN => true | _ => false end.

(** The value of a digit in base up to 16. *)
Definition hex_value (c : N) : option N :=
  if is_digit c then Some (c - ch "0")%N
  else if in_range "a" "f" c then Some (c - ch "a" + 10)%N
  else if in_range "A" "F" c then Some (c - ch "A" + 10)%N
  else None.

Definition is_digit_in (base : N) (c : N) : bool :=
  match hex_value c with Some d => N.ltb d base | None => false end.

Definition digits_value (base : N) (ds : jstring) : N :=
  fold_left
    (fun acc c => match hex_value c with
                  | Some d => acc * base + d
                  | None => acc
                  end)%N ds 0%N.

Fixpoint span (p : N -> bool) (s : jstring) : jstring * jstring :=
  match s with
  | c :: s' => if p c then let (a, b) := span p s' in (c :: a, b) else ([], s)
  | [] => ([], [])
  end.

(** [0x], [0o] and [0b] literals: StrNumericLiteral takes them unsigned. *)
Definition non_decimal_literal (s : jstring) : option jsnum :=
  match s with
  | z :: x :: ds =>
      if N.eqb z (ch "0") then
        let base :=
          if one_of "xX" x then Some 16%N
          else if one_of "oO" x then Some 8%N
          else if one_of "bB" x then Some 2%N
          else None in
        match base with
        | Some b =>
            if negb (is_empty ds) && forallb (is_digit_in b) ds
            then Some (Dec false (digits_value b ds) 0)
            else None
        | None => None
        end
      else None
  | _ => None
  end.

(** ExponentPart, optional: the exponent, or nothing when the text is not
    one. *)
Definition exponent_part (s : jstring) : option Z :=
  match s with
  | [] => Some 0%Z
  | e :: s' =>
      if one_of "eE" e then
        let (negative, ds) :=
          match s' with
          | sign :: ds' =>
              if N.eqb sign (ch "-") then (true, ds')
              else if N.eqb sign (ch "+") then (false, ds')
              else (false, s')
          | [] => (false, s')
          end in
        if negb (is_empty ds) && forallb is_digit ds
        then let v := Z.of_N (digits_value 10 ds) in
             Some (if negative then (- v)%Z else v)
        else None
      else None
  end.

(** StrUnsignedDecimalLiteral. *)
Definition unsigned_decimal_literal (negative : bool) (s : jstring) : jsnum :=
  if str_eqb s (js "Infinity") then Infinity negative
  else
    let (int_part, r1) := span is_digit s in
    let '(frac_part, r2) :=
      match r1 with
      | dot :: r =>
          if N.eqb dot (ch ".") then span is_digit r else ([], r1)
      | [] => ([], r1)
      end in
    if is_empty int_part && is_empty frac_part then NaN
    else
      match exponent_part r2 with
      | Some e =>
          Dec negative (digits_value 10 (int_part ++ frac_part))
              (e - Z.of_nat (length frac_part))
      | None => NaN
      end.

(** [Number(x)] of a string: StringToNumber. *)
Definition Number (x : jstring) : jsnum :=
  let s := String_trim x in
  match s with
  | [] => Dec false 0 0
  | c :: s' =>
      match non_decimal_literal s with
      | Some n => n
      | None =>
          if N.eqb c (ch "-") then unsigned_decimal_literal true s'
          else if N.eqb c (ch "+") then unsigned_decimal_literal false s'
          else unsigned_decimal_literal false s
      end
  end.

(** The exact value of a finite number, scaled to the power of ten [e]. *)
Definition scaled (negative : bool) (m : N) (exponent e : Z) : Z :=
  let v := (Z.of_N m * 10 ^ (exponent - e))%Z in
  if negative then (- v)%Z else v.

(** [a === b] on numbers. *)
Definition num_eqb (a b : jsnum) : bool :=
  match a, b with
  | Infinity s1, Infinity s2 => Bool.eqb s1 s2
  | Dec s1 m1 e1, Dec s2 m2 e2 =>
      let e := Z.min e1 e2 in
      Z.eqb (scaled s1 m1 e1 e) (scaled s2 m2 e2 e)
  | _, _ => false
  end.

(** [n - 1]. *)
Definition num_pred (n : jsnum) : jsnum :=
  match n with
  | Dec s m e =>
      let e' := Z.min e 0 in
      let v := (scaled s m e e' - 10 ^ (- e'))%Z in
      Dec (v <? 0)%Z (Z.abs_N v) e'
  | _ => n
  end.

(** [n || 0]. *)
Definition num_or_zero (n : jsnum) : jsnum :=
  match n with
  | NaN => Dec false 0 0
  | Dec _ 0 _ => Dec false 0 0
  | _ => n
  end.

(* ===================================================================== *)
(** ** decodeURIComponent and encodeURIComponent *)
(* ===================================================================== *)

(** The UTF-16 code units of a code point. *)
Definition utf16 (cp : N) : jstring :=
  if (cp <? 65536)%N then [cp]
  else let v := (cp - 65536)%N in [55296 + v / 1024; 56320 + v mod 1024]%N.

(** The code point decoded from [size] octets is one that UTF-8 writes in
    that many octets. *)
Definition valid_code_point (size : nat) (cp : N) : bool :=
  match size with
  | 2 => N.leb 128 cp
  | 3 => N.leb 2048 cp && negb (N.leb 55296 cp && N.leb cp 57343)
  | 4 => N.leb 65536 cp && N.leb cp 1114111
  | _ => false
  end.

(** [decodeURIComponent]: [pending] continuation octets of a code point of
    [size] octets are still to come, [cp] holds the bits read so far. *)
Fixpoint decode_from (pending : nat) (cp : N) (size : nat) (s : jstring)
         {struct s} : result jstring :=
  match pending with
  | O =>
      match s with
      | [] => Ok []
      | c :: rest =>
          if N.eqb c (ch "%") then
            match rest with
            | h1 :: h2 :: rest2 =>
                match hex_value h1, hex_value h2 with
                | Some a, Some b =>
                    let octet := (16 * a + b)%N in
                    if (octet <? 128)%N then
                      tail <- decode_from 0 0 0 rest2 ;; Ok (octet :: tail)
                    else if (octet <? 192)%N then Err URIError
                    else if (octet <? 224)%N then
                      decode_from 1 (N.land octet 31) 2 rest2
                    else if (octet <? 240)%N then
                      decode_from 2 (N.land octet 15) 3 rest2
                    else if (octet <? 248)%N then
                      decode_from 3 (N.land octet 7) 4 rest2
                    else Err URIError
                | _, _ => Err URIError
                end
            | _ => Err URIError
            end
          else tail <- decode_from 0 0 0 rest ;; Ok (c :: tail)
      end
  | S pending' =>
      match s with
      | c :: h1 :: h2 :: rest2 =>
          if N.eqb c (ch "%") then
            match hex_value h1, hex_value h2 with
            | Some a, Some b =>
                let octet := (16 * a + b)%N in
                if N.eqb (N.land octet 192) 128 then
                  let cp' := (cp * 64 + N.land octet 63)%N in
                  match pending' with
                  | O =>
                      if valid_code_point size cp' then
                        tail <- decode_from 0 0 0 rest2 ;;
                        Ok (utf16 cp' ++ tail)
                      else Err URIError
                  | S _ => decode_from pending' cp' size rest2
                  end
                else Err URIError
            | _, _ => Err URIError
            end
          else Err URIError
      | _ => Err URIError
      end
  end.

Definition decodeURIComponent (s : jstring) : result jstring :=
  decode_from 0 0 0 s.

Definition hex_digit (d : N) : N :=
  if (d <? 10)%N then (ch "0" + d)%N else (ch "A" + (d - 10))%N.

(** [%XX] of an octet. *)
Definition percent (octet : N) : jstring :=
  [ch "%"; hex_digit (octet / 16); hex_digit (octet mod 16)]%N.

(** The octets of the UTF-8 encoding of a code point. *)
Definition utf8 (cp : N) : list N :=
  if (cp <? 128)%N then [cp]
  else if (cp <? 2048)%N then [192 + cp / 64; 128 + cp mod 64]%N
  else if (cp <? 65536)%N then
    [224 + cp / 4096; 128 + (cp / 64) mod 64; 128 + cp mod 64]%N
  else
    [240 + cp / 262144; 128 + (cp / 4096) mod 64;
     128 + (cp / 64) mod 64; 128 + cp mod 64]%N.

(** What [encodeURIComponent] leaves as it is. *)
Definition uri_unreserved (c : N) : bool :=
  is_digit c || is_upper c || is_lower c || one_of "-_.!~*'()" c.

Definition is_lead_surrogate (c : N) : bool := N.leb 55296 c && N.leb c 56319.
Definition is_trail_surrogate (c : N) : bool := N.leb 56320 c && N.leb c 57343.

Fixpoint encodeURIComponent (s : jstring) : result jstring :=
  match s with
  | [] => Ok []
  | c :: rest =>
      if uri_unreserved c then
        tail <- encodeURIComponent rest ;; Ok (c :: tail)
      else if is_lead_surrogate c then
        match rest with
        | d :: rest' =>
            if is_trail_surrogate d then
              let cp := ((c - 55296) * 1024 + (d - 56320) + 65536)%N in
              tail <- encodeURIComponent rest' ;;
              Ok (flat_map percent (utf8 cp) ++ tail)
            else Err URIError
        | [] => Err URIError
        end
      else if is_trail_surrogate c then Err URIError
      else
        tail <- encodeURIComponent rest ;;
        Ok (flat_map percent (utf8 c) ++ tail)
  end.

(** [err.message] of the URIError of V8. *)
Definition URIError_message : jstring := js "URI malformed".

(* ===================================================================== *)
(** ** Values *)
(* ===================================================================== *)

(** The arguments of an operator are of type [any].  [VOp] is the plain
    object [{name, args}] that [walkQuery] builds; [VQuery] is an instance of
    the class [RQLQuery]; [VStringObject] is a [String] wrapper object;
    [VObject] is any other plain object, as [JSON.parse] returns them. *)
Inductive value :=
| VUndefined
| VNull
| VBool (b : bool)
| VNum (n : jsnum)
| VStr (s : jstring)
| VArr (elems : list value)
| VOp (name : jstring) (args : list value)
| VQuery (name : jstring) (args : list value)
| VDate (time : option Z)
| VRegExp (pattern : jstring) (ignoreCase : bool)
| VStringObject (s : jstring)
| VObject (props : list (jstring * value)).

(** The interface [RQLOperator]. *)
Record RQLOperator := { name : jstring; args : list value }.

Definition VOperator (o : RQLOperator) : value := VOp (name o) (args o).

(** The parts of the JavaScript runtime that are left abstract: the JSON
    parser, the syntax check of [new RegExp], the calendar of [Date], the
    printing of numbers and the case mapping of text outside ASCII. *)
Record Builtins := {
  (** [JSON.parse(x)]: the value, or the message of the SyntaxError. *)
  JSON_parse : jstring -> value + jstring;
  (** [new RegExp(pattern)]: the message of the SyntaxError of a pattern that
      does not compile. *)
  RegExp_error : jstring -> option jstring;
  (** [new RegExp(pattern).source]. *)
  RegExp_source : jstring -> jstring;
  (** [new Date(n).getTime()], [None] for an invalid date. *)
  Date_of_number : jsnum -> option Z;
  (** [new Date(x).getTime()] of a string. *)
  Date_of_string : jstring -> option Z;
  (** [Date.UTC(year, month, day, hours, minutes, seconds, ms)]. *)
  Date_UTC : list jsnum -> jsnum;
  (** [date.toISOString()] of a valid date. *)
  Date_toISOString : Z -> jstring;
  (** [date.toString()]. *)
  Date_toString : option Z -> jstring;
  (** [n.toString()]. *)
  Number_toString : jsnum -> jstring;
  (** [s.toLowerCase()] of a string with a code unit outside ASCII. *)
  unicode_toLowerCase : jstring -> jstring
}.

(* ===================================================================== *)
(** ** converters.ts *)
(* ===================================================================== *)

(** [autoConverted]: its own properties. *)
Definition autoConverted (key : jstring) : option value :=
  if str_eqb key (js "true") then Some (VBool true)
  else if str_eqb key (js "false") then Some (VBool false)
  else if str_eqb key (js "null") then Some VNull
  else if str_eqb key (js "undefined") then Some VUndefined
  else if str_eqb key (js "Infinity") then Some (VNum (Infinity false))
  else if str_eqb key (js "-Infinity") then Some (VNum (Infinity true))
  else None.

(** What a lookup [converters[key]] can find: the converters of the object,
    and what the object inherits from [Object.prototype]. *)
Inductive converter :=
| conv_auto | conv_number | conv_epoch | conv_isodate | conv_date
| conv_boolean | conv_string | conv_re | conv_RE | conv_json
| conv_Object          (** [constructor]: the function [Object] *)
| conv_prototype.      (** [__proto__]: an object, not a function *)

(** [converters[key]] for a lower-cased [key].  The other properties of
    [Object.prototype] have a capital letter in their name. *)
Definition converters_get (key : jstring) : option converter :=
  if str_eqb key (js "auto") then Some conv_auto
  else if str_eqb key (js "default") then Some conv_auto
  else if str_eqb key (js "number") then Some conv_number
  else if str_eqb key (js "epoch") then Some conv_epoch
  else if str_eqb key (js "isodate") then Some conv_isodate
  else if str_eqb key (js "date") then Some conv_date
  else if str_eqb key (js "boolean") then Some conv_boolean
  else if str_eqb key (js "string") then Some conv_string
  else if str_eqb key (js "re") then Some conv_re
  else if str_eqb key (js "RE") then Some conv_RE
  else if str_eqb key (js "json") then Some conv_json
  else if str_eqb key (js "constructor") then Some conv_Object
  else if str_eqb key (js "__proto__") then Some conv_prototype
  else None.

Definition RDigit : regex := RClass is_digit.

(** [/^(\d{4})-(\d{2})-(\d{2})T(\d{2}):(\d{2}):(\d{2})(?:\.(\d{1,3}))?Z$/]. *)
Definition re_isoDate : regex :=
  let d2 := RSeq RDigit RDigit in
  RSeq RBol
  (RSeq (RGroup 1 (RSeq d2 d2))
  (RSeq (RChar (ch "-")) (RSeq (RGroup 2 d2)
  (RSeq (RChar (ch "-")) (RSeq (RGroup 3 d2)
  (RSeq (RChar (ch "T")) (RSeq (RGroup 4 d2)
  (RSeq (RChar (ch ":")) (RSeq (RGroup 5 d2)
  (RSeq (RChar (ch ":")) (RSeq (RGroup 6 d2)
  (RSeq (ROpt (RSeq (RChar (ch "."))
                    (RGroup 7 (RSeq RDigit (ROpt (RSeq RDigit (ROpt RDigit)))))))
  (RSeq (RChar (ch "Z")) REol))))))))))))).

(** A group that took no part in the match is [undefined]. *)
Fixpoint capture_opt (caps : captures) (i : nat) : option jstring :=
  match caps with
  | [] => None
  | (j, s) :: caps' => if Nat.eqb i j then Some s else capture_opt caps' i
  end.

(** Unary plus on a group of a match: [+undefined] is [NaN]. *)
Definition to_number (g : option jstring) : jsnum :=
  match g with Some s => Number s | None => NaN end.

Section Converters.
Variable B : Builtins.

Definition is_ascii (s : jstring) : bool := forallb (fun c => N.ltb c 128) s.

(** [s.toLowerCase()]. *)
Definition toLowerCase (s : jstring) : jstring :=
  if is_ascii s
  then map (fun c => if is_upper c then (c + 32)%N else c) s
  else unicode_toLowerCase B s.

(** [converters.number]. *)
Definition number (x : jstring) : result jsnum :=
  let num := Number x in
  if isNaN num then Err (RQLConversionError (js "Invalid number NaN"))
  else Ok num.

(** [converters.string]. *)
Definition string_ (str : jstring) : result jstring :=
  decodeURIComponent str.

(** [converters.json]. *)
Definition json (x : jstring) : result value :=
  match JSON_parse B x with
  | inl v => Ok v
  | inr message => Err (RQLConversionError message)
  end.

(** [converters.auto]. *)
Definition auto (str : jstring) : result value :=
  match autoConverted str with
  | Some v => Ok v
  | None =>
      match number str with
      | Ok n => Ok (VNum n)
      | Err _ =>
          strVal <- string_ str ;;
          if str_eqb (charAt strVal 0) (js "'")
             && str_eqb (charAt strVal (Z.of_nat (length str) - 1)) (js "'")
          then json (jsq "`" ++ substring str 1 (Z.of_nat (length str) - 1)
                             ++ jsq "`")
          else Ok (VStr strVal)
      end
  end.

Definition invalid_date (x : jstring) : error :=
  RQLConversionError (js "Invalid date " ++ x).

(** [converters.epoch]. *)
Definition epoch (x : jstring) : result value :=
  n <- number x ;;
  match Date_of_number B n with
  | Some t => Ok (VDate (Some t))
  | None => Err (invalid_date x)
  end.

(** [converters.date]. *)
Definition date (x : jstring) : result value :=
  let time :=
    match exec re_isoDate x with
    | Some isoDate =>
        let g := capture_opt (m_groups isoDate) in
        Date_of_number B
          (Date_UTC B [to_number (g 1); num_pred (to_number (g 2));
                       to_number (g 3); to_number (g 4); to_number (g 5);
                       to_number (g 6); num_or_zero (to_number (g 7))])
    | None => Date_of_string B x
    end in
  match time with
  | Some t => Ok (VDate (Some t))
  | None => Err (invalid_date x)
  end.

(** [converters.isodate]. *)
Definition isodate (x : jstring) : result value :=
  let date1 := substr (js "0000") 0 (4 - Z.of_nat (length x)) ++ x in
  let date2 :=
    date1 ++ substring_from (js "0000-01-01T00:00:00Z")
                            (Z.of_nat (length date1)) in
  date date2.

(** [converters.boolean]. *)
Definition boolean (x : jstring) : bool :=
  str_eqb (toLowerCase x) (js "true").

(** [converters.re] and [converters.RE]: every exception of the body is
    caught and thrown again as a conversion error with its message. *)
Definition regexp (ignoreCase : bool) (x : jstring) : result value :=
  match string_ x with
  | Ok pattern =>
      match RegExp_error B pattern with
      | None => Ok (VRegExp pattern ignoreCase)
      | Some message => Err (RQLConversionError message)
      end
  | Err _ => Err (RQLConversionError URIError_message)
  end.

(** The call [converter(str)]. *)
Definition convert (c : converter) (str : jstring) : result value :=
  match c with
  | conv_auto => auto str
  | conv_number => n <- number str ;; Ok (VNum n)
  | conv_epoch => epoch str
  | conv_isodate => isodate str
  | conv_date => date str
  | conv_boolean => Ok (VBool (boolean str))
  | conv_string => s <- string_ str ;; Ok (VStr s)
  | conv_re => regexp true str
  | conv_RE => regexp false str
  | conv_json => json str
  | conv_Object => Ok (VStringObject str)
  | conv_prototype => Err TypeError
  end.

(* =================================================================== *)
(** ** parser.ts: stringToValue, walkQuery, parse *)
(* =================================================================== *)

(** [/^\w+[^\\]:/]. *)
Definition re_converter : regex :=
  RSeq RBol
  (RSeq (RPlus (RClass is_word))
  (RSeq (RClass (fun c => negb (N.eqb c (ch "\"))))
        (RChar (ch ":")))).

Definition stringToValue (str : jstring) : result value :=
  selected <-
    (if test re_converter str then
       let ind := indexOf str (js ":") in
       let converterPart := toLowerCase (substring str 0 ind) in
       let valuePart := substring_from str (ind + 1) in
       match converters_get converterPart with
       | None =>
           Err (RQLParseError (jsq "Unknown converter: `" ++ converterPart))
       | Some converter => Ok (converter, valuePart)
       end
     else Ok (conv_auto, str)) ;;
  let (converter, str1) := selected : converter * jstring in
  convert converter (replace_first str1 (js "\:") (js ":")).

(** [/\w+\(/]. *)
Definition re_call : regex := RSeq (RPlus (RClass is_word)) (RChar (ch "(")).

Definition isRQLQuery (str : jstring) : bool := test re_call str.

Section ParseArg.
(** The call [walkQuery(arg)] on an argument. *)
Variable walkQuery_rec : jstring -> result value.

(** [parseArg(arg)]. *)
Fixpoint parseArg (a : arg) : result value :=
  match a with
  | AStr s => if isRQLQuery s then walkQuery_rec s else stringToValue s
  | AArr elems =>
      vs <- (fix map_parseArg (l : list arg) : result (list value) :=
               match l with
               | [] => Ok []
               | x :: l' =>
                   v <- parseArg x ;; vs <- map_parseArg l' ;; Ok (v :: vs)
               end) elems ;;
      Ok (VArr vs)
  end.

Definition empty_operator : RQLOperator := {| name := []; args := [] |}.

(** [operator.args.push(v)]. *)
Definition push (operator : RQLOperator) (v : value) : RQLOperator :=
  {| name := name operator; args := args operator ++ [v] |}.

(** The loop of [walkQuery].  While no joiner has been seen
    [topOperator] is the very object [currentOperator], and
    [aggregateOperator] is false: [topOperator] is then [None] here, and
    the operator returned is [currentOperator].  An operator pushed into
    another is never written to again, so that a copy stands for the
    reference.  The recursive call [walkQuery(query, index + 1,
    nestedOperator)] is the loop at [index + 1] under [nestedOperator]. *)
Fixpoint walk_loop (fuel : nat) (query : jstring) (index : nat)
         (currentOperator : RQLOperator) (topOperator : option RQLOperator)
  : result RQLOperator :=
  if index <? length query then
    match fuel with
    | O => Err OutOfFuel
    | S fuel' =>
        let char := nth index query 0%N in
        if N.eqb char (ch "&") || N.eqb char (ch ",") then
          match topOperator with
          | Some top =>
              if str_eqb (name top) (js "or") then
                let nestedOperator :=
                  {| name := js "and";
                     args := [VOperator currentOperator] |} in
                nested <- walk_loop fuel' query (index + 1) empty_operator
                            (Some nestedOperator) ;;
                Ok (push top (VOperator nested))
              else
                walk_loop fuel' query (index + 1) empty_operator
                  (Some (push top (VOperator currentOperator)))
          | None =>
              let top := {| name := js "and"; args := [] |} in
              walk_loop fuel' query (index + 1) empty_operator
                (Some (push top (VOperator currentOperator)))
          end
        else if N.eqb char (ch "|") then
          match topOperator with
          | Some top =>
              if str_eqb (name top) (js "and") then
                let top' := push top (VOperator currentOperator) in
                let nestedOperator := {| name := js "or"; args := [] |} in
                nested <- walk_loop fuel' query (index + 1) empty_operator
                            (Some nestedOperator) ;;
                Ok (push top' (VOperator nested))
              else
                walk_loop fuel' query (index + 1) empty_operator
                  (Some (push top (VOperator currentOperator)))
          | None =>
              let top := {| name := js "or"; args := [] |} in
              walk_loop fuel' query (index + 1) empty_operator
                (Some (push top (VOperator currentOperator)))
          end
        else if N.eqb char (ch "(") then
          insides <- inside (slice_from query index) ;;
          split <- splitArguments insides ;;
          parsed <- mapM parseArg split ;;
          walk_loop fuel' query (index + (length insides + 1) + 1)
            {| name := name currentOperator; args := parsed |} topOperator
        else
          walk_loop fuel' query (index + 1)
            {| name := name currentOperator ++ [char];
               args := args currentOperator |} topOperator
    end
  else
    match topOperator with
    | Some top => Ok (push top (VOperator currentOperator))
    | None => Ok currentOperator
    end.

(** [walkQuery(query, index, nestedTopOperator)]. *)
Definition walkQuery_at (query : jstring) (index : nat)
           (nestedTopOperator : option RQLOperator) : result RQLOperator :=
  walk_loop (length query) query index empty_operator nestedTopOperator.
End ParseArg.

(** [walkQuery(query)].  An argument that holds a call is walked in turn;
    it is shorter than the query, and [depth] bounds the nesting. *)
Fixpoint walkQuery_fuel (depth : nat) (query : jstring) : result RQLOperator :=
  match depth with
  | O => Err OutOfFuel
  | S depth' =>
      walkQuery_at
        (fun a => o <- walkQuery_fuel depth' a ;; Ok (VOperator o))
        query 0 None
  end.

Definition walkQuery (query : jstring) : result RQLOperator :=
  walkQuery_fuel (S (length query)) query.

(** [parse(query)]. *)
Definition parse (query : jstring) : result RQLOperator :=
  if is_empty query then
    Err (RQLParseError (js "Query empty or invalid: " ++ query))
  else if str_eqb (charAt query 0) (js "?") then
    Err (RQLParseError (js "Query must not start with ?: " ++ query))
  else
    normalizedQuery <- normalizeSyntax query ;;
    walkQuery normalizedQuery.

(* ===================================================================== *)
(** ** query.ts *)
(* ===================================================================== *)

(** [/[\(\)]/]. *)
Definition re_paren : regex := RClass (one_of "()").

(** [RQLQuery.encodeString]. *)
Definition encodeString (str : jstring) : result jstring :=
  str1 <- encodeURIComponent str ;;
  if test re_paren str1
  then Ok (replace_first (replace_first str1 (js "(") (js "%28"))
                         (js ")") (js "%29"))
  else Ok str1.

(** [typeof val]. *)
Definition typeof (val : value) : jstring :=
  match val with
  | VUndefined => js "undefined"
  | VBool _ => js "boolean"
  | VNum _ => js "number"
  | VStr _ => js "string"
  | _ => js "object"
  end.

(** [a === b] when [b] is a value just made by a converter: an object is
    identical to itself only. *)
Definition strict_eqb (a b : value) : bool :=
  match a, b with
  | VUndefined, VUndefined => true
  | VNull, VNull => true
  | VBool x, VBool y => Bool.eqb x y
  | VNum x, VNum y => num_eqb x y
  | VStr x, VStr y => str_eqb x y
  | _, _ => false
  end.

(** [new RQLQuery(name, args)]. *)
Definition new_RQLQuery (name : jstring) (args : list value) : value :=
  VQuery name args.

(** [val.toString()] for a value that is neither an array nor an
    [RQLQuery]. *)
Definition toString_leaf (val : value) : result jstring :=
  match val with
  | VUndefined | VNull => Err TypeError
  | VBool b => Ok (if b then js "true" else js "false")
  | VNum n => Ok (Number_toString B n)
  | VStr s => Ok s
  | VDate t => Ok (Date_toString B t)
  | VRegExp pattern ignoreCase =>
      Ok (js "/" ++ RegExp_source B pattern ++ js "/"
          ++ (if ignoreCase then js "i" else []))
  | VStringObject s => Ok s
  | _ => Ok (js "[object Object]")
  end.

(** [RQLQuery.encodeValue(val)], given what [val.toString()] returns.  The
    value returned is a string, or [val] itself when it is a number or a
    boolean that needs no tag. *)
Definition encodeValue_of (val : value) (val_toString : result jstring)
  : result value :=
  match val with
  | VNull => Ok (VStr (js "null"))
  | _ =>
      text <- val_toString ;;
      convertedValue <- auto text ;;
      if negb (strict_eqb val convertedValue) then
        match val with
        | VRegExp pattern ignoreCase =>
            encoded <- encodeString (RegExp_source B pattern) ;;
            Ok (VStr ((if ignoreCase then js "re" else js "RE")
                      ++ js ":" ++ encoded))
        | VDate time =>
            match time with
            | Some t => Ok (VStr (js "date:" ++ Date_toISOString B t))
            | None => Err RangeError
            end
        | VStr s =>
            encoded <- encodeString s ;;
            Ok (VStr (js "string:" ++ encoded))
        | _ =>
            (* the template literal prints [val] as [val.toString()] does *)
            encoded <- encodeString (typeof val ++ js ":" ++ text) ;;
            Ok (VStr encoded)
        end
      else
        match val with
        | VStr s => encoded <- encodeString s ;; Ok (VStr encoded)
        | _ => Ok val
        end
  end.

(** What [join] prints of an element of an array. *)
Definition join_element (v : value) : result jstring :=
  match v with
  | VUndefined | VNull => Ok []
  | _ => toString_leaf v
  end.

(** [RQLQuery.queryToString(part)]; [serializeArgs(args, ',')] is the
    local [serialize]. *)
Fixpoint queryToString (part : value) : result value :=
  let serialize :=
    fix serialize (l : list value) : result (list jstring) :=
      match l with
      | [] => Ok []
      | x :: l' =>
          v <- queryToString x ;;
          s <- join_element v ;;
          ss <- serialize l' ;;
          Ok (s :: ss)
      end in
  match part with
  | VArr elems =>
      ss <- serialize elems ;;
      Ok (VStr (js "(" ++ join (js ",") ss ++ js ")"))
  | VQuery name args =>
      ss <- serialize args ;;
      Ok (VStr (name ++ js "(" ++ join (js ",") ss ++ js ")"))
  | _ => encodeValue_of part (toString_leaf part)
  end.

(** [RQLQuery.serializeArgs(args, delimiter)]. *)
Definition serializeArgs (args : list value) (delimiter : jstring)
  : result jstring :=
  vs <- mapM queryToString args ;;
  ss <- mapM join_element vs ;;
  Ok (join delimiter ss).

(** [val.toString()]: of an [RQLQuery] it is [queryToString(this)], of an
    array the elements joined by commas. *)
Fixpoint toString (val : value) : result jstring :=
  match val with
  | VArr elems =>
      ss <- (fix each (l : list value) : result (list jstring) :=
               match l with
               | [] => Ok []
               | x :: l' =>
                   s <- match x with
                        | VUndefined | VNull => Ok []
                        | _ => toString x
                        end ;;
                   ss <- each l' ;;
                   Ok (s :: ss)
               end) elems ;;
      Ok (join (js ",") ss)
  | VQuery _ _ =>
      v <- queryToString val ;;
      match v with VStr s => Ok s | _ => Err TypeError end
  | _ => toString_leaf val
  end.

(** [RQLQuery.encodeValue(val)]. *)
Definition encodeValue (val : value) : result value :=
  encodeValue_of val (toString val).
End Converters.

Arguments parseArg B walkQuery_rec a : rename.
Arguments walk_loop B walkQuery_rec fuel query index currentOperator topOperator : rename.

(* ===================================================================== *)
(** ** What the walker reads *)
(* ===================================================================== *)

(** The argument resolver that [walkQuery] uses on the arguments of
    [query]. *)
Definition parseArg_of (B : Builtins) (query : jstring) : arg -> result value :=
  parseArg B
    (fun a => o <- walkQuery_fuel B (length query) a ;; Ok (VOperator o)).

(** What the loop of [walkQuery] reads at one index: a joiner, the opening
    paren of a group, whose arguments it resolves, or a character that it
    appends to a name. *)
Inductive token :=
| TJoin (c : N)
| TArgs (parsed : list value)
| TName (c : N).

Definition is_joiner (c : N) : bool :=
  N.eqb c (ch "&") || N.eqb c (ch ",") || N.eqb c (ch "|").

(** What the loop of [walkQuery] reads from [index] on.  After a group the
    loop resumes where the walker resumes, at the index that it computes
    from the length of the text that [inside] returned: that is the index
    after the closing paren of the group when the group holds no escape, and
    an earlier one when it holds one. *)
Fixpoint toplevel (resolve : arg -> result value) (fuel : nat)
         (query : jstring) (index : nat) : result (list token) :=
  if index <? length query then
    match fuel with
    | O => Err OutOfFuel
    | S fuel' =>
        let char := nth index query 0%N in
        if is_joiner char then
          rest <- toplevel resolve fuel' query (index + 1) ;;
          Ok (TJoin char :: rest)
        else if N.eqb char (ch "(") then
          insides <- inside (slice_from query index) ;;
          split <- splitArguments insides ;;
          parsed <- mapM resolve split ;;
          rest <- toplevel resolve fuel' query
                    (index + (length insides + 1) + 1) ;;
          Ok (TArgs parsed :: rest)
        else
          rest <- toplevel resolve fuel' query (index + 1) ;;
          Ok (TName char :: rest)
    end
  else Ok [].

Definition name_char (o : RQLOperator) (c : N) : RQLOperator :=
  {| name := name o ++ [c]; args := args o |}.

Definition set_args (o : RQLOperator) (parsed : list value) : RQLOperator :=
  {| name := name o; args := parsed |}.

(** The operators of what the walker read, in the order of the text: a
    joiner ends one operator and begins the next. *)
Fixpoint operators_from (current : RQLOperator) (toks : list token)
  : list RQLOperator :=
  match toks with
  | [] => [current]
  | TJoin _ :: rest => current :: operators_from empty_operator rest
  | TArgs parsed :: rest => operators_from (set_args current parsed) rest
  | TName c :: rest => operators_from (name_char current c) rest
  end.

Definition operators_of (toks : list token) : list RQLOperator :=
  operators_from empty_operator toks.

(** The walker on what it read. *)
Fixpoint walk_tokens (toks : list token) (currentOperator : RQLOperator)
         (topOperator : option RQLOperator) : RQLOperator :=
  match toks with
  | [] =>
      match topOperator with
      | Some top => push top (VOperator currentOperator)
      | None => currentOperator
      end
  | TJoin c :: rest =>
      if N.eqb c (ch "&") || N.eqb c (ch ",") then
        match topOperator with
        | Some top =>
            if str_eqb (name top) (js "or") then
              push top
                (VOperator
                   (walk_tokens rest empty_operator
                      (Some {| name := js "and";
                               args := [VOperator currentOperator] |})))
            else
              walk_tokens rest empty_operator
                (Some (push top (VOperator currentOperator)))
        | None =>
            walk_tokens rest empty_operator
              (Some (push {| name := js "and"; args := [] |}
                          (VOperator currentOperator)))
        end
      else
        match topOperator with
        | Some top =>
            if str_eqb (name top) (js "and") then
              push (push top (VOperator currentOperator))
                (VOperator
                   (walk_tokens rest empty_operator
                      (Some {| name := js "or"; args := [] |})))
            else
              walk_tokens rest empty_operator
                (Some (push top (VOperator currentOperator)))
        | None =>
            walk_tokens rest empty_operator
              (Some (push {| name := js "or"; args := [] |}
                          (VOperator currentOperator)))
        end
  | TArgs parsed :: rest =>
      walk_tokens rest (set_args currentOperator parsed) topOperator
  | TName c :: rest =>
      walk_tokens rest (name_char currentOperator c) topOperator
  end.

(* ===================================================================== *)
(** ** Statements of the specification *)
(* ===================================================================== *)

(** [s] with every closing paren escaped by a backslash. *)
Definition escape_parens (s : jstring) : jstring :=
  flat_map (fun c => if N.eqb c (ch ")") then [ch "\"; ch ")"] else [c]) s.

(** The escaping invariant at [s]: scanning the escaped, parenthesized text
    gives [s] back. *)
Definition scan_returns (s : jstring) : Prop :=
  inside (js "(" ++ escape_parens s ++ js ")") = Ok s.

(** [s] holds no quote character. *)
Definition quote_free (s : jstring) : Prop :=
  Forall (fun c => is_quote c = false) s.

(** A character that neither quotes, nor escapes, nor opens a group. *)
Definition plain (c : N) : bool :=
  negb (is_quote c || N.eqb c (ch "\") || N.eqb c (ch "(")).

(** The explicit tag of a string as the specification words it, one or
    more word characters followed by a colon that no backslash precedes:
    the tag and the remainder. *)
Definition spec_tag (str : jstring) : option (jstring * jstring) :=
  let (word, rest) := span is_word str in
  match word, rest with
  | _ :: _, colon :: remainder =>
      if N.eqb colon (ch ":") then Some (word, remainder) else None
  | _, _ => None
  end.

(** No character of [s] is a parenthesis. *)
Definition paren_free (s : jstring) : Prop :=
  Forall (fun c => one_of "()" c = false) s.

(** A runtime whose abstract parts answer nothing: for runs that never reach
    them. *)
Definition no_runtime : Builtins := {|
  JSON_parse := fun _ => inr [];
  RegExp_error := fun _ => None;
  RegExp_source := fun pattern => pattern;
  Date_of_number := fun _ => None;
  Date_of_string := fun _ => None;
  Date_UTC := fun _ => NaN;
  Date_toISOString := fun _ => [];
  Date_toString := fun _ => [];
  Number_toString := fun _ => [];
  unicode_toLowerCase := fun s => s
|}.

(* ===================================================================== *)
(** ** The language of a regular expression *)
(* ===================================================================== *)

(** The numbers of the groups of a regular expression. *)
Fixpoint groups_of (r : regex) : list nat :=
  match r with
  | RSeq r1 r2 | RAlt r1 r2 => groups_of r1 ++ groups_of r2
  | RStar r0 => groups_of r0
  | RGroup i r0 => i :: groups_of r0
  | _ => []
  end.

(** Texts made of pieces that satisfy [P]. *)
Inductive star_of (P : jstring -> Prop) : jstring -> Prop :=
| star_nil : star_of P []
| star_cons t1 t2 : P t1 -> star_of P t2 -> star_of P (t1 ++ t2).

(** The texts a regular expression can match, anchors apart. *)
Fixpoint lang (r : regex) (text : jstring) : Prop :=
  match r with
  | RChar c => text = [c]
  | RClass p => exists c, text = [c] /\ p c = true
  | RSeq r1 r2 => exists t1 t2, text = t1 ++ t2 /\ lang r1 t1 /\ lang r2 t2
  | RAlt r1 r2 => lang r1 text \/ lang r2 text
  | RStar r0 => star_of (lang r0) text
  | RGroup _ r0 => lang r0 text
  | REmpty | RBol | REol => text = []
  end.

(** An operator that the callback of [normalizeSyntax] accepts: it has
    three characters or more, or it is in the table. *)
Definition accepted_operator (operator : jstring) : Prop :=
  3 <= length operator \/ exists name, operatorMap operator = Some name.

(** The strings of an argument, those of its nested arrays included. *)
Fixpoint strings_of (a : arg) : list jstring :=
  match a with
  | AStr s => [s]
  | AArr elems => flat_map strings_of elems
  end.

(** No string of [args] is longer than [n]. *)
Definition strings_within (n : nat) (args : list arg) : Prop :=
  Forall (fun s => length s <= n) (flat_map strings_of args).

(** Induction on an argument and on the elements of its arrays. *)
Fixpoint arg_induction (P : arg -> Prop)
         (HStr : forall s, P (AStr s))
         (HArr : forall elems, Forall P elems -> P (AArr elems))
         (a : arg) : P a :=
  match a with
  | AStr s => HStr s
  | AArr elems =>
      HArr elems
        ((fix each (l : list arg) : Forall P l :=
            match l with
            | [] => Forall_nil P
            | x :: l' => Forall_cons x (arg_induction HStr HArr x) (each l')
            end) elems)
  end.

(* ===================================================================== *)
(** ** Texts for the properties of the scanner and of the splitter *)
(* ===================================================================== *)

(** A character that is neither a quote nor the escape character. *)
Definition unquoted (c : N) : bool :=
  negb (is_quote c || N.eqb c (ch "\")).

(** The parens of [s] close the [depth] groups that are open and no more:
    no closing paren comes without a group to close. *)
Fixpoint well_nested (depth : nat) (s : jstring) : bool :=
  match s with
  | [] => depth =? 0
  | c :: s' =>
      if N.eqb c (ch "(") then well_nested (S depth) s'
      else if N.eqb c (ch ")") then
        match depth with
        | O => false
        | S depth' => well_nested depth' s'
        end
      else well_nested depth s'
  end.

(** The error of [inside]. *)
Definition no_closing_paren : error :=
  RQLParseError (js "Could not find closing paren").

(** A character that [walkQuery] appends to the name of the operator. *)
Definition operator_char (c : N) : bool :=
  negb (is_joiner c || N.eqb c (ch "(")).

(** [parseArg(arg)], with its call of [walkQuery]. *)
Definition parseArg_top (B : Builtins) : arg -> result value :=
  parseArg B (fun a => o <- walkQuery B a ;; Ok (VOperator o)).

(** A character that [splitArguments] appends to the argument wherever it
    stands: no quote, no backslash, no opening paren, no comma, no white
    space. *)
Definition plain_arg_char (c : N) : bool :=
  negb (is_quote c || N.eqb c (ch "\") || N.eqb c (ch "(")
        || N.eqb c (ch ",") || is_js_space c).

(** The text of the call [name(e1,...,en)]. *)
Definition call_text (opname : jstring) (encoded : list jstring) : jstring :=
  opname ++ js "(" ++ join (js ",") encoded ++ js ")".

(** The parens of [s] never close the group that is open before it:
    [depth] further groups are open. *)
Fixpoint never_closes (depth : nat) (s : jstring) : bool :=
  match s with
  | [] => true
  | c :: s' =>
      if N.eqb c (ch "(") then never_closes (S depth) s'
      else if N.eqb c (ch ")") then
        match depth with
        | O => false
        | S depth' => never_closes depth' s'
        end
      else never_closes depth s'
  end.

(* ===================================================================== *)
(** ** Arguments as they are written *)
(* ===================================================================== *)

(** A piece of an argument as it stands in the string given to
    [splitArguments], outside every paren: text outside quotes, or a run
    between two quotes of the same kind. *)
Inductive piece :=
| Bare (text : jstring)
| Quoted (q : N) (text : jstring).

(** The characters of a piece in the string. *)
Definition piece_src (p : piece) : jstring :=
  match p with
  | Bare text => text
  | Quoted q text => [q] ++ text ++ [q]
  end.

(** The text of a piece, its quotes apart. *)
Definition piece_text (p : piece) : jstring :=
  match p with
  | Bare text | Quoted _ text => text
  end.

(** Bare text is made of plain characters; a quoted run is opened by a
    quote character that the run does not hold. *)
Definition piece_ok (p : piece) : bool :=
  match p with
  | Bare text => forallb plain_arg_char text
  | Quoted q text => is_quote q && forallb (fun c => negb (N.eqb c q)) text
  end.

(** An argument made of pieces, as it is written and as it is without the
    quotes of its runs. *)
Definition written (ps : list piece) : jstring := flat_map piece_src ps.
Definition buffered (ps : list piece) : jstring := flat_map piece_text ps.

(** The arguments [items], each followed by a comma, and the argument
    [last]. *)
Definition comma_list (items : list (list piece)) (last : list piece)
  : jstring :=
  flat_map (fun ps => written ps ++ js ",") items ++ written last.

(* ===================================================================== *)
(** ** Queries as they are written *)
(* ===================================================================== *)

(** The text [s] between the parens of a group holds no escape and closes
    what it opens: outside quotes it has no backslash, and its parens close
    the [depth] groups that are open in it and no more; every quote that
    opens a run is closed by the same quote.  [quote] is the quote of the
    run in which [s] begins, when it begins in one. *)
Fixpoint group_text (depth : nat) (quote : option N) (s : jstring) : bool :=
  match s with
  | [] => match quote with None => depth =? 0 | Some _ => false end
  | c :: s' =>
      match quote with
      | Some q => group_text depth (if N.eqb c q then None else quote) s'
      | None =>
          if N.eqb c (ch "\") then false
          else if is_quote c then group_text depth (Some c) s'
          else if N.eqb c (ch "(") then group_text (S depth) None s'
          else if N.eqb c (ch ")") then
            match depth with
            | O => false
            | S depth' => group_text depth' None s'
            end
          else group_text depth None s'
      end
  end.

(** [quoteType] of the loop of [inside] in a run opened by [quote]. *)
Definition quote_state (quote : option N) : jstring :=
  match quote with None => [] | Some q => [q] end.

(** An operator as a query writes it, [name(inner)]. *)
Record call := { call_name : jstring; call_inner : jstring }.

Definition written_call (opname inner : string) : call :=
  {| call_name := jsq opname; call_inner := jsq inner |}.

Definition call_src (c : call) : jstring :=
  call_name c ++ js "(" ++ call_inner c ++ js ")".

(** The calls of [more], each after its joiner. *)
Fixpoint joined (more : list (N * call)) : jstring :=
  match more with
  | [] => []
  | (joiner, c) :: more' => joiner :: call_src c ++ joined more'
  end.

(** The text of the query that calls [first] and then the operators of
    [more], each after its joiner. *)
Definition query_text (first : call) (more : list (N * call)) : jstring :=
  call_src first ++ joined more.

(** [calls], each after the joiner [joiner]. *)
Definition after (joiner : N) (calls : list call) : list (N * call) :=
  map (pair joiner) calls.

(** A call whose name holds no joiner and no opening paren, and whose
    parens enclose a text without escape. *)
Definition plain_call (c : call) : bool :=
  forallb operator_char (call_name c) && group_text 0 None (call_inner c).

(** The joiners [&] and [,]. *)
Definition and_joiner (j : N) : bool := N.eqb j (ch "&") || N.eqb j (ch ",").

(** The operator of a call: its name, and its arguments split by
    [splitArguments] and resolved one by one. *)
Definition call_operator (resolve : arg -> result value) (c : call)
  : result RQLOperator :=
  split <- splitArguments (call_inner c) ;;
  parsed <- mapM resolve split ;;
  Ok {| name := call_name c; args := parsed |}.

(** What the walker reads of a call whose operator is [o], and of the calls
    of the operators [ops], each after its joiner. *)
Definition call_tokens (o : RQLOperator) : list token :=
  map TName (name o) ++ [TArgs (args o)].

Definition joined_tokens (joiners : list N) (ops : list RQLOperator)
  : list token :=
  flat_map (fun jo => TJoin (fst jo) :: call_tokens (snd jo))
           (combine joiners ops).


(* ===================================================================== *)
(** ** Proof steps *)
(* ===================================================================== *)

(** A successful bind comes from a successful first computation. *)
Ltac bind_inv H :=
  match type of H with
  | bind ?e _ = Ok _ =>
      let E := fresh "E" in
      destruct e eqn:E; cbn [bind] in H; [| discriminate H]
  end.

(** Case analysis on the tests of a branch. *)
Ltac split_ifs :=
  repeat match goal with
         | |- context [if ?b then _ else _] => destruct b eqn:?
         end.

Ltac split_ifs_in H :=
  repeat match type of H with
         | context [if ?b then _ else _] => destruct b eqn:?
         end.

(** An answer of the source is not the exhaustion of the fuel. *)
Ltac not_fuel := let Hx := fresh "Hx" in intro Hx; discriminate Hx.

(* ===================================================================== *)
(** ** The scenarios of the test suite *)
(* ===================================================================== *)

Section Scenarios.
Variable B : Builtins.

Example parse_simple :
  parse B (js "eq(foo,bar)")
  = Ok {| name := js "eq"; args := [VStr (js "foo"); VStr (js "bar")] |}.
Proof. vm_compute. reflexivity. Qed.

Example parse_and :
  parse B (js "eq(foo,bar)&limit(10)")
  = Ok {| name := js "and";
          args := [VOp (js "eq") [VStr (js "foo"); VStr (js "bar")];
                   VOp (js "limit") [VNum (Dec false 10 0)]] |}.
Proof. vm_compute. reflexivity. Qed.

Example parse_array :
  parse B (js "in(foo,(bar,foo,moo))")
  = Ok {| name := js "in";
          args := [VStr (js "foo");
                   VArr [VStr (js "bar"); VStr (js "foo"); VStr (js "moo")]] |}.
Proof. vm_compute. reflexivity. Qed.

Example walk_and_then_or :
  walkQuery B (js "eq(foo,bar)&eq(fizz,buzz)|limit(10)")
  = Ok {| name := js "and";
          args := [VOp (js "eq") [VStr (js "foo"); VStr (js "bar")];
                   VOp (js "eq") [VStr (js "fizz"); VStr (js "buzz")];
                   VOp (js "or") [VOp (js "limit") [VNum (Dec false 10 0)]]] |}.
Proof. vm_compute. reflexivity. Qed.

Example inside_escaped_paren : inside (js "(foo\))") = Ok (js "foo)").
Proof. reflexivity. Qed.

Example inside_unclosed :
  inside (js "(foo()") = Err (RQLParseError (js "Could not find closing paren")).
Proof. reflexivity. Qed.

Example split_nested :
  splitArguments (js "foo, (bar, (fizz, buzz)), bazz")
  = Ok [AStr (js "foo");
        AArr [AStr (js "bar"); AArr [AStr (js "fizz"); AStr (js "buzz")]];
        AStr (js "bazz")].
Proof. vm_compute. reflexivity. Qed.

Example trim_keeps_inner_space : trim (jsq "` foo`") = js " foo".
Proof. vm_compute. reflexivity. Qed.

Example normalize_infix :
  normalizeSyntax (js "foo=bar&fizz<buzz") = Ok (js "eq(foo,bar)&lt(fizz,buzz)").
Proof. vm_compute. reflexivity. Qed.

Example stringToValue_unknown_converter :
  stringToValue B (js "foo:bar")
  = Err (RQLParseError (jsq "Unknown converter: `foo")).
Proof. vm_compute. reflexivity. Qed.

Example stringToValue_delimited_colon :
  stringToValue B (js "12\:12") = Ok (VStr (js "12:12")).
Proof. vm_compute. reflexivity. Qed.

Example encodeString_parens : encodeString (js "(foo)") = Ok (js "%28foo%29").
Proof. vm_compute. reflexivity. Qed.

Example encodeValue_numeric_string :
  encodeValue B (VStr (js "7")) = Ok (VStr (js "string:7")).
Proof. vm_compute. reflexivity. Qed.
End Scenarios.

(* ===================================================================== *)
(** ** Reading a string at an index *)
(* ===================================================================== *)

Lemma index_in_range (pre : jstring) (c : N) (tail : jstring) :
  (length pre <? length (pre ++ c :: tail)) = true.
Proof.
  apply Nat.ltb_lt. rewrite length_app. simpl. lia.
Qed.

Lemma char_at_index (pre : jstring) (c : N) (tail : jstring) :
  nth (length pre) (pre ++ c :: tail) 0%N = c.
Proof. apply nth_middle. Qed.

Lemma index_at_end (s : jstring) : (length s <? length s) = false.
Proof. apply Nat.ltb_irrefl. Qed.

Lemma next_index (pre : jstring) (c : N) :
  length pre + 1 = length (pre ++ [c]).
Proof. rewrite length_app. reflexivity. Qed.

Lemma shift_char (pre : jstring) (c : N) (tail : jstring) :
  pre ++ c :: tail = (pre ++ [c]) ++ tail.
Proof. rewrite <- app_assoc. reflexivity. Qed.

(* ===================================================================== *)
(** ** The scanner [inside] *)
(* ===================================================================== *)

(** One turn of the loop of [inside] outside quotes, on a character that is
    neither special nor escaped: the character is appended. *)
Lemma inside_loop_plain_char fuel pre c tail acc count :
  plain c = true -> c <> ch ")" ->
  inside_loop (S fuel) (pre ++ c :: tail) default_delimiter acc count
    (length pre) false []
  = inside_loop fuel (pre ++ c :: tail) default_delimiter (acc ++ [c]) count
      (length pre + 1) false [].
Proof.
  intros Hplain Hclose.
  unfold plain in Hplain.
  apply negb_true_iff in Hplain.
  apply orb_false_iff in Hplain as [Hplain Hopen].
  apply orb_false_iff in Hplain as [Hquote Hesc].
  cbn [inside_loop].
  rewrite index_in_range, char_at_index.
  unfold default_delimiter. cbn [is_empty str_eqb andb].
  rewrite Hesc. cbn [andb]. rewrite Hquote. cbn [negb].
  rewrite Hopen.
  destruct (N.eqb_spec c (ch ")")) as [-> | _]; [contradiction | reflexivity].
Qed.

(** Two turns of the loop on a backslash and the character after it: the
    character is appended as it is. *)
Lemma inside_loop_escaped fuel pre c tail acc count :
  inside_loop (S (S fuel)) (pre ++ ch "\" :: c :: tail) default_delimiter acc
    count (length pre) false []
  = inside_loop fuel (pre ++ ch "\" :: c :: tail) default_delimiter
      (acc ++ [c]) count (length pre + 1 + 1) false [].
Proof.
  cbn [inside_loop].
  rewrite index_in_range, char_at_index.
  unfold default_delimiter at 1. cbn [is_empty str_eqb andb].
  rewrite N.eqb_refl. cbn [andb].
  rewrite (shift_char pre (ch "\") (c :: tail)), (next_index pre (ch "\")).
  rewrite index_in_range, char_at_index.
  reflexivity.
Qed.

(** The closing paren of the group ends the scan. *)
Lemma inside_loop_close fuel pre tail acc :
  inside_loop (S fuel) (pre ++ ch ")" :: tail) default_delimiter acc 1
    (length pre) false []
  = Ok acc.
Proof.
  cbn [inside_loop].
  rewrite index_in_range, char_at_index.
  reflexivity.
Qed.

Lemma escape_parens_close (s : jstring) :
  escape_parens (ch ")" :: s) = ch "\" :: ch ")" :: escape_parens s.
Proof. reflexivity. Qed.

Lemma escape_parens_other (c : N) (s : jstring) :
  c <> ch ")" -> escape_parens (c :: s) = c :: escape_parens s.
Proof.
  intros Hne. unfold escape_parens. cbn [flat_map].
  destruct (N.eqb_spec c (ch ")")); [contradiction | reflexivity].
Qed.

(** The scan of an escaped text of plain characters and closing parens
    returns the text, whatever follows the closing paren. *)
Lemma inside_loop_escape_parens (s : jstring) :
  forall fuel pre tail acc,
    Forall (fun c => plain c = true) s ->
    length (escape_parens s) < fuel ->
    inside_loop fuel (pre ++ escape_parens s ++ ch ")" :: tail)
      default_delimiter acc 1 (length pre) false []
    = Ok (acc ++ s).
Proof.
  induction s as [| c s IH]; intros fuel pre tail acc Hplain Hfuel.
  - simpl in *. destruct fuel as [| fuel]; [lia |].
    rewrite inside_loop_close, app_nil_r. reflexivity.
  - inversion Hplain as [| ? ? Hc Hs]; subst.
    destruct (N.eqb_spec c (ch ")")) as [-> | Hne].
    + rewrite escape_parens_close in *. cbn [length] in Hfuel.
      destruct fuel as [| [| fuel]]; try lia.
      cbn [app].
      rewrite inside_loop_escaped.
      rewrite (shift_char pre), (next_index pre (ch "\")).
      rewrite (shift_char (pre ++ _)), (next_index _ (ch ")")).
      rewrite IH by (assumption || lia).
      rewrite <- app_assoc. reflexivity.
    + rewrite escape_parens_other in * by assumption. cbn [length] in Hfuel.
      destruct fuel as [| fuel]; try lia.
      cbn [app].
      rewrite inside_loop_plain_char by assumption.
      rewrite (shift_char pre), (next_index pre c).
      rewrite IH by (assumption || lia).
      rewrite <- app_assoc. reflexivity.
Qed.

(** C5, amended: for every string [s] that holds no quote, no backslash and
    no opening paren, the scan of ["("], [s] with every closing paren escaped
    by a backslash, and [")"] returns [s] exactly. *)
Theorem inside_escaped_roundtrip (s : jstring) :
  Forall (fun c => plain c = true) s -> scan_returns s.
Proof.
  intros Hplain. unfold scan_returns, inside, inside_with.
  change (js "(" ++ escape_parens s ++ js ")")
    with ([ch "("] ++ escape_parens s ++ ch ")" :: []).
  apply (@inside_loop_escape_parens s _ [ch "("] [] []); [assumption |].
  rewrite !length_app. simpl. lia.
Qed.

(** The theorem at a text with two closing parens. *)
Lemma inside_escaped_roundtrip_witness :
  Forall (fun c => plain c = true) (js "f)o)")
  /\ inside (js "(f\)o\))") = Ok (js "f)o)").
Proof.
  assert (H : Forall (fun c => plain c = true) (js "f)o)")).
  { repeat constructor. }
  split; [exact H | exact (inside_escaped_roundtrip H)].
Defined.

(** C5 as stated fails: a backslash of [s] is taken for an escape and lost,
    and an opening paren of [s] is never closed, although neither string
    holds a quote. *)
Lemma inside_escaped_counterexample :
  (quote_free (js "a\b") /\ ~ scan_returns (js "a\b")
   /\ inside (js "(" ++ escape_parens (js "a\b") ++ js ")") = Ok (js "ab"))
  /\ (quote_free (js "(") /\ ~ scan_returns (js "(")
      /\ inside (js "(" ++ escape_parens (js "(") ++ js ")")
         = Err (RQLParseError (js "Could not find closing paren"))).
Proof.
  repeat split; try (repeat constructor); try (intro H; discriminate H).
Qed.

(* ===================================================================== *)
(** ** The splitter [splitArguments] *)
(* ===================================================================== *)

Section SplitQuoted.
Variable rec : jstring -> result (list arg).
Variable q : N.
Hypothesis q_quote : is_quote q = true.

Lemma quote_not_delimiter : str_eqb [q] default_delimiter = false.
Proof.
  unfold default_delimiter. cbn [str_eqb].
  destruct (N.eqb_spec q (ch "\")) as [-> | _]; [discriminate q_quote | reflexivity].
Qed.

(** Outside quotes, a quote character opens a quoted run and is not
    appended. *)
Lemma split_loop_open_quote fuel pre tail args cur :
  split_loop rec (S fuel) (pre ++ q :: tail) default_delimiter args cur
    false [] (length pre)
  = split_loop rec fuel (pre ++ q :: tail) default_delimiter args cur
      false [q] (length pre + 1).
Proof.
  cbn [split_loop].
  rewrite index_in_range, char_at_index.
  cbn [is_empty andb]. rewrite quote_not_delimiter, q_quote.
  reflexivity.
Qed.

(** Inside a run quoted by [q], the same quote closes the run and is not
    appended. *)
Lemma split_loop_close_quote fuel pre tail args cur :
  split_loop rec (S fuel) (pre ++ q :: tail) default_delimiter args cur
    false [q] (length pre)
  = split_loop rec fuel (pre ++ q :: tail) default_delimiter args cur
      false [] (length pre + 1).
Proof.
  cbn [split_loop].
  rewrite index_in_range, char_at_index.
  cbn [is_empty andb]. rewrite q_quote.
  cbn [str_eqb]. rewrite N.eqb_refl.
  reflexivity.
Qed.

(** Inside a run quoted by [q], every other character is appended. *)
Lemma split_loop_quoted_char fuel pre c tail args cur :
  c <> q ->
  split_loop rec (S fuel) (pre ++ c :: tail) default_delimiter args cur
    false [q] (length pre)
  = split_loop rec fuel (pre ++ c :: tail) default_delimiter args (cur ++ [c])
      false [q] (length pre + 1).
Proof.
  intros Hne.
  cbn [split_loop].
  rewrite index_in_range, char_at_index.
  cbn [is_empty andb negb str_eqb].
  destruct (N.eqb_spec q c) as [-> | _]; [contradiction |].
  cbn [andb].
  destruct (is_quote c); reflexivity.
Qed.

Lemma split_loop_quoted_run (w : jstring) :
  forall fuel pre tail args cur,
    Forall (fun c => c <> q) w ->
    split_loop rec (length w + fuel) (pre ++ w ++ tail) default_delimiter
      args cur false [q] (length pre)
    = split_loop rec fuel (pre ++ w ++ tail) default_delimiter
        args (cur ++ w) false [q] (length (pre ++ w)).
Proof.
  induction w as [| c w IH]; intros fuel pre tail args cur Hw.
  - rewrite !app_nil_r. reflexivity.
  - inversion Hw as [| ? ? Hc Hw']; subst.
    cbn [length Nat.add app].
    rewrite split_loop_quoted_char by assumption.
    rewrite (shift_char pre), (next_index pre c).
    rewrite IH by assumption.
    rewrite <- !app_assoc. reflexivity.
Qed.

(** At the end of the text the buffer is pushed, trimmed, unless it holds
    white space only. *)
Lemma split_loop_end fuel str args cur quoteType :
  split_loop rec fuel str default_delimiter args cur false quoteType (length str)
  = if 0 <? length (String_trim cur)
    then Ok (args ++ [AStr (trim cur)]) else Ok args.
Proof.
  destruct fuel; cbn [split_loop]; rewrite index_at_end; reflexivity.
Qed.

End SplitQuoted.

(* ===================================================================== *)
(** ** The matcher finds texts of the language only *)
(* ===================================================================== *)

Section MatcherSound.
Variable A : Type.

(** A successful match consumed a text of the language of the expression,
    added groups of the expression only, and went on with the rest. *)
Lemma rmatch_sound (r : regex) :
  forall pos rest caps (k : cont A) a,
    rmatch r pos rest caps k = Some a ->
    exists text rest' new,
      rest = text ++ rest'
      /\ lang r text
      /\ Forall (fun g => In (fst g) (groups_of r)) new
      /\ k (pos + length text) rest' (new ++ caps) = Some a.
Proof.
  induction r as [c | p | r1 IH1 r2 IH2 | r1 IH1 r2 IH2 | r0 IH | | i r0 IH | |];
    intros pos rest caps k a Hm; cbn [rmatch] in Hm.
  - destruct rest as [| x rest']; [discriminate Hm |].
    destruct (N.eqb_spec x c) as [-> | _]; [| discriminate Hm].
    exists [c], rest', []. cbn [length app lang].
    rewrite Nat.add_1_r. repeat split; [constructor | exact Hm].
  - destruct rest as [| x rest']; [discriminate Hm |].
    destruct (p x) eqn:Hp; [| discriminate Hm].
    exists [x], rest', []. cbn [length app lang].
    rewrite Nat.add_1_r. repeat split; [exists x; auto | constructor | exact Hm].
  - apply IH1 in Hm as (t1 & rest1 & new1 & -> & Hl1 & Hg1 & Hm).
    apply IH2 in Hm as (t2 & rest2 & new2 & -> & Hl2 & Hg2 & Hm).
    exists (t1 ++ t2), rest2, (new2 ++ new1).
    rewrite length_app, Nat.add_assoc, <- !app_assoc.
    repeat split; [exists t1, t2; auto | | exact Hm].
    cbn [groups_of]. apply Forall_app. split.
    + eapply Forall_impl; [| exact Hg2]. intros g Hg. apply in_or_app. auto.
    + eapply Forall_impl; [| exact Hg1]. intros g Hg. apply in_or_app. auto.
  - destruct (rmatch r1 pos rest caps k) as [a1 |] eqn:H1.
    + injection Hm as <-.
      apply IH1 in H1 as (t & rest' & new & -> & Hl & Hg & H1).
      exists t, rest', new. repeat split; [left; exact Hl | | exact H1].
      eapply Forall_impl; [| exact Hg]. intros g Hin.
      cbn [groups_of]. apply in_or_app. auto.
    + apply IH2 in Hm as (t & rest' & new & -> & Hl & Hg & Hm).
      exists t, rest', new. repeat split; [right; exact Hl | | exact Hm].
      eapply Forall_impl; [| exact Hg]. intros g Hin.
      cbn [groups_of]. apply in_or_app. auto.
  - revert Hm. generalize (length rest) at 1. intros fuel. revert pos rest caps.
    induction fuel as [| fuel IHf]; intros pos rest caps Hm.
    + exists [], rest, []. cbn [length app]. rewrite Nat.add_0_r.
      repeat split; [constructor | constructor | exact Hm].
    + match type of Hm with
      | match ?e with _ => _ end = _ => destruct e as [a1 |] eqn:H1
      end.
      * injection Hm as <-.
        apply IH in H1 as (t1 & rest1 & new1 & -> & Hl1 & Hg1 & H1).
        destruct (pos <? pos + length t1); [| discriminate H1].
        apply IHf in H1 as (t2 & rest2 & new2 & -> & Hl2 & Hg2 & H1).
        exists (t1 ++ t2), rest2, (new2 ++ new1).
        rewrite length_app, Nat.add_assoc, <- !app_assoc.
        repeat split; [constructor; assumption | | exact H1].
        apply Forall_app. split; assumption.
      * exists [], rest, []. cbn [length app]. rewrite Nat.add_0_r.
        repeat split; [constructor | constructor | exact Hm].
  - exists [], rest, []. cbn [length app]. rewrite Nat.add_0_r.
    repeat split; [constructor | exact Hm].
  - apply IH in Hm as (t & rest' & new & -> & Hl & Hg & Hm).
    exists t, rest', ((i, t) :: new).
    replace (pos + length t - pos) with (length t) in Hm by lia.
    rewrite firstn_app, Nat.sub_diag, firstn_all, firstn_O, app_nil_r in Hm.
    repeat split; [exact Hl | | exact Hm].
    constructor; [left; reflexivity |].
    eapply Forall_impl; [| exact Hg]. intros g Hin. right. exact Hin.
  - destruct (pos =? 0); [| discriminate Hm].
    exists [], rest, []. cbn [length app]. rewrite Nat.add_0_r.
    repeat split; [constructor | exact Hm].
  - destruct rest; [| discriminate Hm].
    exists [], [], []. cbn [length app]. rewrite Nat.add_0_r.
    repeat split; [constructor | exact Hm].
Qed.

(** A group whose body has no group of its own captures the text it
    matched. *)
Lemma rmatch_group_sound (i : nat) (r0 : regex) :
  groups_of r0 = [] ->
  forall pos rest caps (k : cont A) a,
    rmatch (RGroup i r0) pos rest caps k = Some a ->
    exists text rest',
      rest = text ++ rest'
      /\ lang r0 text
      /\ k (pos + length text) rest' ((i, text) :: caps) = Some a.
Proof.
  intros Hnone pos rest caps k a Hm. cbn [rmatch] in Hm.
  apply rmatch_sound in Hm as (t & rest' & new & -> & Hl & Hg & Hm).
  rewrite Hnone in Hg.
  destruct new as [| g new]; [| inversion Hg as [| ? ? []]].
  replace (pos + length t - pos) with (length t) in Hm by lia.
  rewrite firstn_app, Nat.sub_diag, firstn_all, firstn_O, app_nil_r in Hm.
  exists t, rest'. auto.
Qed.
End MatcherSound.

(* ===================================================================== *)
(** ** [normalizeSyntax] never throws *)
(* ===================================================================== *)

Lemma search_unfold (r : regex) (pos : nat) (rest : jstring) :
  search r pos rest
  = match rmatch r pos rest [] (found pos) with
    | Some m => Some m
    | None =>
        match rest with
        | [] => None
        | _ :: rest' => search r (S pos) rest'
        end
    end.
Proof. destruct rest; reflexivity. Qed.

(** The match of a search lies in the text searched, and was found by the
    matcher at its index. *)
Lemma search_sound (r : regex) (rest : jstring) :
  forall pos m,
    search r pos rest = Some m ->
    exists skipped text rest',
      rest = skipped ++ text ++ rest'
      /\ lang r text
      /\ m_index m = pos + length skipped
      /\ m_end m = m_index m + length text
      /\ rmatch r (m_index m) (text ++ rest') [] (found (m_index m)) = Some m.
Proof.
  induction rest as [| c rest IH]; intros pos m Hs; rewrite search_unfold in Hs.
  - destruct (rmatch r pos [] [] (found pos)) as [m' |] eqn:Hm; [| discriminate Hs].
    injection Hs as <-.
    pose proof Hm as Hm0.
    apply rmatch_sound in Hm as (t & rest' & new & Hrest & Hl & _ & Hk).
    injection Hk as <-. cbn [m_index m_end].
    exists [], t, rest'. cbn [app length]. rewrite Nat.add_0_r, <- Hrest. auto.
  - destruct (rmatch r pos (c :: rest) [] (found pos)) as [m' |] eqn:Hm.
    + injection Hs as <-.
      pose proof Hm as Hm0.
      apply rmatch_sound in Hm as (t & rest' & new & Hrest & Hl & _ & Hk).
      injection Hk as <-. cbn [m_index m_end].
      exists [], t, rest'. cbn [app length]. rewrite Nat.add_0_r, <- Hrest. auto.
    + apply IH in Hs as (skipped & t & rest' & -> & Hl & Hi & He & Hm').
      exists (c :: skipped), t, rest'. cbn [app length].
      rewrite Hi. repeat split; auto; try lia.
      rewrite <- Hi. exact Hm'.
Qed.

(** With a callback that answers every match, and a step of fuel for every
    character and one more, the replacement returns. *)
Lemma replace_loop_total (r : regex) (f : jstring -> captures -> result jstring) :
  (forall pos text rest' m,
      rmatch r pos (text ++ rest') [] (found pos) = Some m ->
      m_end m = pos + length text ->
      exists rep, f text (m_groups m) = Ok rep) ->
  forall fuel pos rest,
    length rest < fuel -> exists out, replace_loop fuel r f pos rest = Ok out.
Proof.
  intros Hf. induction fuel as [| fuel IH]; intros pos rest Hfuel; [lia |].
  cbn [replace_loop].
  destruct (search r pos rest) as [m |] eqn:Hs; [| eexists; reflexivity].
  apply search_sound in Hs as (skipped & t & rest' & -> & Hl & Hi & He & Hm).
  destruct (Hf _ _ _ _ Hm He) as [rep Hrep].
  replace (m_index m - pos) with (length skipped) by lia.
  replace (m_end m - m_index m) with (length t) by lia.
  rewrite skipn_app, Nat.sub_diag, skipn_all, skipn_O. cbn [app].
  rewrite firstn_app, Nat.sub_diag, firstn_all, firstn_O, app_nil_r.
  rewrite Hrep. cbn [bind].
  rewrite !length_app in Hfuel.
  destruct (m_index m <? m_end m) eqn:Hlt.
  - apply Nat.ltb_lt in Hlt.
    rewrite skipn_app, Nat.sub_diag, skipn_all, skipn_O. cbn [app].
    destruct (IH (m_end m) rest') as [tail ->]; [lia |].
    eexists; reflexivity.
  - apply Nat.ltb_ge in Hlt.
    assert (t = []) by (destruct t; [reflexivity | cbn [length] in He; lia]).
    subst t. cbn [app].
    destruct rest' as [| c rest'']; [eexists; reflexivity |].
    destruct (IH (S (m_index m)) rest'') as [tail ->];
      [cbn [length] in Hfuel; lia |].
    eexists; reflexivity.
Qed.

Lemma replace_literal_total (pat rep : string) (s : jstring) :
  exists out, replace_literal pat rep s = Ok out.
Proof.
  unfold replace_literal, replace_all.
  apply replace_loop_total; [| lia].
  intros. eexists; reflexivity.
Qed.

Lemma one_of_comparison (c : N) :
  one_of "<>!" c = true -> c = ch "<" \/ c = ch ">" \/ c = ch "!".
Proof.
  unfold one_of. cbn [js list_ascii_of_string map existsb].
  destruct (N.eqb_spec c (N_of_ascii "<")); [auto |].
  destruct (N.eqb_spec c (N_of_ascii ">")); [auto |].
  destruct (N.eqb_spec c (N_of_ascii "!")); [auto |].
  discriminate.
Qed.

(** Every text that the operator group can match is accepted: the table
    holds every operator of one or two characters that the group matches. *)
Lemma operator_group_accepted (text : jstring) :
  lang re_operator text -> accepted_operator text.
Proof.
  unfold re_operator, ROpt. cbn [lang].
  intros [(t1 & t2 & -> & Hopt & t3 & t4 & -> & -> & Hsuffix) | [-> | ->]].
  - destruct Hopt as [(c & -> & Hc) | ->];
      destruct Hsuffix as [(t5 & t6 & -> & _ & ->) | ->].
    + left. rewrite !length_app. cbn [length]. lia.
    + right.
      destruct (one_of_comparison c Hc) as [-> | [-> | ->]];
        eexists; vm_compute; reflexivity.
    + destruct t5 as [| c t5].
      * right. eexists; vm_compute; reflexivity.
      * left. cbn [app length]. rewrite !length_app. cbn [length]. lia.
    + right. eexists; vm_compute; reflexivity.
  - right. eexists; vm_compute; reflexivity.
  - right. eexists; vm_compute; reflexivity.
Qed.

Lemma operand_no_inner_group (i : nat) :
  exists r0, re_operand i = RGroup i r0 /\ groups_of r0 = [].
Proof. eexists. split; reflexivity. Qed.

(** The groups of a match of the infix expression: the second one is an
    accepted operator. *)
Lemma infix_match_groups (pos : nat) (rest : jstring) (m : rmatched) :
  rmatch re_infix pos rest [] (found pos) = Some m ->
  exists property operator value,
    m_groups m = [(3, value); (2, operator); (1, property)]
    /\ accepted_operator operator.
Proof.
  intros Hm. unfold re_infix in Hm. cbn [rmatch] in Hm.
  destruct (operand_no_inner_group 1) as (r1 & E1 & G1).
  destruct (operand_no_inner_group 3) as (r3 & E3 & G3).
  rewrite E1, E3 in Hm.
  apply rmatch_group_sound in Hm as (property & rest1 & -> & _ & Hm);
    [| exact G1].
  unfold re_operator in Hm.
  apply rmatch_group_sound in Hm as (operator & rest2 & -> & Hop & Hm);
    [| reflexivity].
  apply rmatch_group_sound in Hm as (value & rest3 & -> & _ & Hm);
    [| exact G3].
  injection Hm as <-. cbn [m_groups].
  exists property, operator, value. split; [reflexivity |].
  apply operator_group_accepted. exact Hop.
Qed.

Lemma infix_to_prefix_total (t : jstring) (m : rmatched) (pos : nat)
      (rest : jstring) :
  rmatch re_infix pos rest [] (found pos) = Some m ->
  exists rep, infix_to_prefix t (m_groups m) = Ok rep.
Proof.
  intros Hm.
  apply infix_match_groups in Hm as (property & operator & value & -> & Hop).
  unfold infix_to_prefix. cbn [capture Nat.eqb].
  destruct (length operator <? 3) eqn:Hlen.
  - apply Nat.ltb_lt in Hlen.
    destruct Hop as [Hop | [name ->]]; [lia |].
    eexists; reflexivity.
  - eexists; reflexivity.
Qed.

(** The error [Illegal operator] cannot be reached: [normalizeSyntax]
    returns a string for every query. *)
Theorem normalizeSyntax_total (query : jstring) :
  exists normalized, normalizeSyntax query = Ok normalized.
Proof.
  unfold normalizeSyntax.
  destruct (replace_literal_total "%3C=" "=le=" query) as [q1 ->]. cbn [bind].
  destruct (replace_literal_total "%3E=" "=ge=" q1) as [q2 ->]. cbn [bind].
  destruct (replace_literal_total "%3C" "=lt=" q2) as [q3 ->]. cbn [bind].
  destruct (replace_literal_total "%3E" "=gt=" q3) as [q4 ->]. cbn [bind].
  unfold replace_all. apply replace_loop_total; [| lia].
  intros pos text rest' m Hm _. eapply infix_to_prefix_total. exact Hm.
Qed.

(* ===================================================================== *)
(** ** [normalizeSyntax] on a chained comparison *)
(* ===================================================================== *)

(** C3, what the code does: the operator group of the regular expression
    takes [>==] whole; it has three characters, so that the table of
    operators is not consulted, and its middle character [=] becomes the
    name.  [foo>==bar] is normalized to [=(foo,bar)] and nothing is thrown;
    [foo>=bar] is normalized to [ge(foo,bar)].  No query at all makes
    [normalizeSyntax] throw. *)
Theorem normalizeSyntax_chained_comparison :
  normalizeSyntax (js "foo>==bar") = Ok (js "=(foo,bar)")
  /\ normalizeSyntax (js "a>==b") = Ok (js "=(a,b)")
  /\ normalizeSyntax (js "foo>=bar") = Ok (js "ge(foo,bar)")
  /\ (forall query, exists normalized, normalizeSyntax query = Ok normalized).
Proof.
  repeat split; try (vm_compute; reflexivity).
  apply normalizeSyntax_total.
Qed.

(* ===================================================================== *)
(** ** The loops have fuel enough *)
(* ===================================================================== *)

(** The scan of [inside] does not run out of fuel. *)
Lemma inside_loop_fuel (fuel : nat) :
  forall str delimiter acc count index delimited quoteType,
    length str <= fuel + index ->
    inside_loop fuel str delimiter acc count index delimited quoteType
    <> Err OutOfFuel.
Proof.
  induction fuel as [| fuel IH]; intros str d acc count index del q Hfuel;
    cbn [inside_loop]; destruct (index <? length str) eqn:Hlt;
    try (intro Hx; discriminate Hx).
  - apply Nat.ltb_lt in Hlt. lia.
  - split_ifs; try (apply IH; lia); intro Hx; discriminate Hx.
Qed.

Lemma inside_fuel (str : jstring) : inside str <> Err OutOfFuel.
Proof. apply inside_loop_fuel. lia. Qed.

(** The text returned by [inside] is shorter than what was left to scan. *)
Lemma inside_loop_length (fuel : nat) :
  forall str delimiter acc count index delimited quoteType r,
    inside_loop fuel str delimiter acc count index delimited quoteType = Ok r ->
    length r + index < length acc + length str.
Proof.
  induction fuel as [| fuel IH]; intros str d acc count index del q r Hr;
    cbn [inside_loop] in Hr; destruct (index <? length str) eqn:Hlt;
    try discriminate Hr.
  apply Nat.ltb_lt in Hlt.
  split_ifs_in Hr;
    try (apply IH in Hr; rewrite ?length_app in Hr; cbn [length] in Hr; lia).
  injection Hr as <-. lia.
Qed.

Lemma inside_length (str r : jstring) :
  inside str = Ok r -> length r + 1 < length str.
Proof.
  intros Hr. apply inside_loop_length in Hr. cbn [length] in Hr. lia.
Qed.

Lemma skipn_length_le (n : nat) (s : jstring) : length (skipn n s) <= length s.
Proof. rewrite length_skipn. lia. Qed.

(** The loop of [splitArguments] does not run out of fuel when the call on
    the inside of an array does not. *)
Lemma split_loop_fuel (rec : jstring -> result (list arg)) (str : jstring) :
  (forall arr, length arr + 1 < length str -> rec arr <> Err OutOfFuel) ->
  forall fuel delimiter args cur delimited quoteType index,
    length str <= fuel + index ->
    split_loop rec fuel str delimiter args cur delimited quoteType index
    <> Err OutOfFuel.
Proof.
  intros Hrec.
  induction fuel as [| fuel IH]; intros d args cur del q index Hfuel;
    cbn [split_loop]; destruct (index <? length str) eqn:Hlt.
  - apply Nat.ltb_lt in Hlt. lia.
  - split_ifs; intro Hx; discriminate Hx.
  - destruct del; [apply IH; lia |].
    destruct (is_empty q && str_eqb [nth index str 0%N] d); [apply IH; lia |].
    destruct (is_quote (nth index str 0%N)).
    { split_ifs; apply IH; lia. }
    destruct (negb (is_empty q)); [apply IH; lia |].
    destruct (length cur =? 0).
    + destruct (N.eqb (nth index str 0%N) (ch "(")).
      * destruct (inside (slice_from str index)) as [arr | e] eqn:Harr.
        -- cbn [bind].
           pose proof (inside_length _ Harr) as Hlen.
           pose proof (skipn_length_le index str) as Hskip.
           unfold slice_from in Hlen.
           destruct (rec arr) as [nested | e] eqn:Hnested.
           ++ cbn [bind]. apply IH.
              destruct (exec re_toNextArg _); lia.
           ++ cbn [bind]. intro Hx. injection Hx as ->.
              apply (Hrec arr); [lia | exact Hnested].
        -- cbn [bind]. intro Hx. injection Hx as ->.
           exact (inside_fuel _ Harr).
      * split_ifs; apply IH; lia.
    + destruct (N.eqb (nth index str 0%N) (ch ",")); [apply IH; lia |].
      destruct (N.eqb (nth index str 0%N) (ch "(")); [| apply IH; lia].
      destruct (inside (slice_from str index)) as [arr | e] eqn:Harr.
      * cbn [bind]. apply IH. lia.
      * cbn [bind]. intro Hx. injection Hx as ->.
        exact (inside_fuel _ Harr).
  - split_ifs; intro Hx; discriminate Hx.
Qed.

(** [splitArguments] does not run out of fuel. *)
Lemma splitArguments_fuel_enough (depth : nat) :
  forall str delimiter,
    length str < depth ->
    splitArguments_fuel depth str delimiter <> Err OutOfFuel.
Proof.
  induction depth as [| depth IH]; intros str d Hdepth; [lia |].
  cbn [splitArguments_fuel].
  apply split_loop_fuel; [| lia].
  intros arr Harr. apply IH. lia.
Qed.

Lemma splitArguments_never_out_of_fuel (str : jstring) :
  splitArguments str <> Err OutOfFuel.
Proof. apply splitArguments_fuel_enough. lia. Qed.

Lemma trimStart_length (s : jstring) : length (trimStart s) <= length s.
Proof.
  induction s as [| c s IH]; cbn [trimStart length]; [lia |].
  destruct (is_js_space c); cbn [length]; lia.
Qed.

Lemma String_trim_length (s : jstring) : length (String_trim s) <= length s.
Proof.
  unfold String_trim. rewrite length_rev.
  etransitivity; [apply trimStart_length |].
  rewrite length_rev. apply trimStart_length.
Qed.

Lemma trim_length (s : jstring) : length (trim s) <= length s.
Proof.
  unfold trim, slice.
  destruct (test _ _ || test _ _).
  - rewrite length_firstn, length_skipn.
    pose proof (String_trim_length s). lia.
  - apply String_trim_length.
Qed.

Lemma strings_within_push (n : nat) (args : list arg) (a : arg) :
  strings_within n args ->
  Forall (fun s => length s <= n) (strings_of a) ->
  strings_within n (args ++ [a]).
Proof.
  intros Hargs Ha. unfold strings_within.
  rewrite flat_map_app. apply Forall_app. split; [exact Hargs |].
  cbn [flat_map]. rewrite app_nil_r. exact Ha.
Qed.

(** No string that [splitArguments] returns is longer than its input. *)
Lemma split_loop_strings (rec : jstring -> result (list arg)) (str : jstring) :
  (forall arr nested,
      rec arr = Ok nested -> strings_within (length arr) nested) ->
  forall fuel delimiter args cur delimited quoteType index out,
    strings_within (length str) args ->
    length cur + (length str - index) <= length str ->
    split_loop rec fuel str delimiter args cur delimited quoteType index = Ok out ->
    strings_within (length str) out.
Proof.
  intros Hrec.
  assert (Hpush : forall args cur index,
             strings_within (length str) args ->
             length cur + (length str - index) <= length str ->
             strings_within (length str) (args ++ [AStr (trim cur)])).
  { intros args cur index Hargs Hcur. apply strings_within_push; [exact Hargs |].
    constructor; [| constructor]. pose proof (trim_length cur). lia. }
  induction fuel as [| fuel IH]; intros d args cur del q index out Hargs Hcur Hout;
    cbn [split_loop] in Hout; destruct (index <? length str) eqn:Hlt;
    try discriminate Hout.
  - destruct (0 <? length (String_trim cur)); injection Hout as <-;
      [eapply Hpush; eassumption | exact Hargs].
  - apply Nat.ltb_lt in Hlt.
    assert (Hstep : forall c, length (cur ++ [c]) + (length str - (index + 1))
                              <= length str)
      by (intros c; rewrite length_app; cbn [length]; lia).
    destruct del; [eapply IH; [| | exact Hout]; auto |].
    destruct (is_empty q && str_eqb [nth index str 0%N] d);
      [eapply IH; [| | exact Hout]; [auto | lia] |].
    destruct (is_quote (nth index str 0%N)).
    { split_ifs_in Hout; (eapply IH; [| | exact Hout]; [auto | auto; lia]). }
    destruct (negb (is_empty q)); [eapply IH; [| | exact Hout]; auto |].
    destruct (length cur =? 0) eqn:Hempty.
    + apply Nat.eqb_eq in Hempty.
      destruct (N.eqb (nth index str 0%N) (ch "(")).
      * bind_inv Hout. bind_inv Hout.
        eapply IH; [| | exact Hout]; [| lia].
        apply strings_within_push; [exact Hargs |].
        cbn [strings_of].
        pose proof (inside_length _ E) as Hlen.
        pose proof (skipn_length_le index str) as Hskip.
        unfold slice_from in Hlen.
        eapply Forall_impl; [| apply (Hrec _ _ E0)].
        cbn beta. intros s Hs. lia.
      * split_ifs_in Hout; (eapply IH; [| | exact Hout]; [auto | auto; lia]).
    + destruct (N.eqb (nth index str 0%N) (ch ",")).
      { eapply IH; [| | exact Hout]; [eapply Hpush; eassumption | cbn [length]; lia]. }
      destruct (N.eqb (nth index str 0%N) (ch "(")).
      * bind_inv Hout.
        pose proof (inside_length _ E) as Hlen.
        unfold slice_from in Hlen. rewrite length_skipn in Hlen.
        eapply IH; [| | exact Hout]; [auto |].
        rewrite !length_app. cbn [length]. lia.
      * eapply IH; [| | exact Hout]; auto.
  - destruct (0 <? length (String_trim cur)); injection Hout as <-;
      [eapply Hpush; eassumption | exact Hargs].
Qed.

Lemma splitArguments_fuel_strings (depth : nat) :
  forall str delimiter out,
    splitArguments_fuel depth str delimiter = Ok out ->
    strings_within (length str) out.
Proof.
  induction depth as [| depth IH]; intros str d out Hout; [discriminate Hout |].
  cbn [splitArguments_fuel] in Hout.
  eapply split_loop_strings; [| | | exact Hout].
  - intros arr nested Hnested. eapply IH. exact Hnested.
  - constructor.
  - cbn [length]. lia.
Qed.

Lemma splitArguments_strings (str : jstring) (out : list arg) :
  splitArguments str = Ok out -> strings_within (length str) out.
Proof. apply splitArguments_fuel_strings. Qed.

Lemma bind_fuel {X Y} (r : result X) (k : X -> result Y) :
  r <> Err OutOfFuel ->
  (forall x, r = Ok x -> k x <> Err OutOfFuel) ->
  bind r k <> Err OutOfFuel.
Proof.
  intros Hr Hk. destruct r as [x | e]; cbn [bind].
  - apply Hk. reflexivity.
  - intro Hx. injection Hx as ->. apply Hr. reflexivity.
Qed.

(** [decodeURIComponent] throws a URIError or nothing. *)
Lemma decode_from_fuel (n : nat) :
  forall s pending cp size,
    length s <= n -> decode_from pending cp size s <> Err OutOfFuel.
Proof.
  induction n as [| n IH]; intros s pending cp size Hn.
  - destruct s; [| cbn [length] in Hn; lia].
    destruct pending; cbn [decode_from]; intro Hx; discriminate Hx.
  - destruct pending as [| pending].
    + destruct s as [| c rest]; cbn [decode_from]; [intro Hx; discriminate Hx |].
      cbn [length] in Hn.
      destruct (N.eqb c (ch "%")).
      * destruct rest as [| h1 [| h2 rest2]]; try (intro Hx; discriminate Hx).
        cbn [length] in Hn.
        destruct (hex_value h1); [| intro Hx; discriminate Hx].
        destruct (hex_value h2); [| intro Hx; discriminate Hx].
        cbv zeta.
        split_ifs; try (intro Hx; discriminate Hx); try (apply IH; lia).
        apply bind_fuel; [apply IH; lia | intros; intro Hx; discriminate Hx].
      * apply bind_fuel; [apply IH; lia | intros; intro Hx; discriminate Hx].
    + destruct s as [| c [| h1 [| h2 rest2]]]; cbn [decode_from];
        try (intro Hx; discriminate Hx).
      cbn [length] in Hn.
      destruct (N.eqb c (ch "%")); [| intro Hx; discriminate Hx].
      destruct (hex_value h1); [| intro Hx; discriminate Hx].
      destruct (hex_value h2); [| intro Hx; discriminate Hx].
      cbv zeta.
      destruct (N.eqb _ 128); [| intro Hx; discriminate Hx].
      destruct pending as [| pending]; [| apply IH; lia].
      destruct (valid_code_point _ _); [| intro Hx; discriminate Hx].
      apply bind_fuel; [apply IH; lia | intros; intro Hx; discriminate Hx].
Qed.

Lemma decodeURIComponent_fuel (s : jstring) :
  decodeURIComponent s <> Err OutOfFuel.
Proof. apply (decode_from_fuel (n := length s)). lia. Qed.

Section ModelTotal.
Variable B : Builtins.

Lemma json_fuel (x : jstring) : json B x <> Err OutOfFuel.
Proof. unfold json. destruct (JSON_parse B x); not_fuel. Qed.

Lemma auto_fuel (str : jstring) : auto B str <> Err OutOfFuel.
Proof.
  unfold auto. destruct (autoConverted str); [not_fuel |].
  destruct (number str); [not_fuel |].
  apply bind_fuel; [apply decodeURIComponent_fuel |].
  intros strVal _. destruct (_ && _); [apply json_fuel | not_fuel].
Qed.

Lemma number_fuel (x : jstring) : number x <> Err OutOfFuel.
Proof. unfold number. destruct (isNaN _); not_fuel. Qed.

Lemma date_fuel (x : jstring) : date B x <> Err OutOfFuel.
Proof.
  unfold date.
  destruct (match exec re_isoDate x with Some _ => _ | None => _ end); not_fuel.
Qed.

Lemma convert_fuel (c : converter) (str : jstring) :
  convert B c str <> Err OutOfFuel.
Proof.
  destruct c; cbn [convert]; try not_fuel.
  - apply auto_fuel.
  - apply bind_fuel; [apply number_fuel | intros; not_fuel].
  - unfold epoch. apply bind_fuel; [apply number_fuel |].
    intros n _. destruct (Date_of_number B n); not_fuel.
  - unfold isodate. apply date_fuel.
  - apply date_fuel.
  - apply bind_fuel; [apply decodeURIComponent_fuel | intros; not_fuel].
  - unfold regexp. destruct (string_ str); [| not_fuel].
    destruct (RegExp_error B a); not_fuel.
  - unfold regexp. destruct (string_ str); [| not_fuel].
    destruct (RegExp_error B a); not_fuel.
  - apply json_fuel.
Qed.

Lemma stringToValue_fuel (str : jstring) : stringToValue B str <> Err OutOfFuel.
Proof.
  unfold stringToValue.
  apply bind_fuel.
  - destruct (test re_converter str); [| not_fuel].
    cbv zeta. destruct (converters_get _); not_fuel.
  - intros [c str1] _. apply convert_fuel.
Qed.

Lemma mapM_fuel {X Y} (f : X -> result Y) (l : list X) :
  Forall (fun x => f x <> Err OutOfFuel) l -> mapM f l <> Err OutOfFuel.
Proof.
  induction 1 as [| x l Hx Hl IH]; cbn [mapM]; [not_fuel |].
  apply bind_fuel; [exact Hx |]. intros y _.
  apply bind_fuel; [exact IH |]. intros; not_fuel.
Qed.

(** [parseArg] runs out of fuel only if the walk of one of its strings
    does. *)
Lemma parseArg_fuel (rec : jstring -> result value) (a : arg) :
  Forall (fun s => rec s <> Err OutOfFuel) (strings_of a) ->
  parseArg B rec a <> Err OutOfFuel.
Proof.
  induction a as [s | elems IH] using arg_induction; intros Hrec.
  - cbn [parseArg]. destruct (isRQLQuery s); [| apply stringToValue_fuel].
    inversion Hrec; assumption.
  - cbn [parseArg]. apply bind_fuel; [| intros; not_fuel].
    cbn [strings_of] in Hrec.
    induction IH as [| x l Hx Hl IHl]; [not_fuel |].
    cbn [flat_map] in Hrec. apply Forall_app in Hrec as [Hrx Hrl].
    apply bind_fuel; [apply Hx; exact Hrx |]. intros v _.
    apply bind_fuel; [apply IHl; exact Hrl |]. intros; not_fuel.
Qed.

(** The loop of [walkQuery] does not run out of fuel when the walk of the
    shorter strings does not. *)
Lemma walk_loop_fuel (rec : jstring -> result value) (query : jstring) :
  (forall s, length s + 1 < length query -> rec s <> Err OutOfFuel) ->
  forall fuel index cur top,
    length query <= fuel + index ->
    walk_loop B rec fuel query index cur top <> Err OutOfFuel.
Proof.
  intros Hrec.
  induction fuel as [| fuel IH]; intros index cur top Hfuel;
    cbn [walk_loop]; destruct (index <? length query) eqn:Hlt.
  - apply Nat.ltb_lt in Hlt. lia.
  - destruct top; not_fuel.
  - destruct (N.eqb _ (ch "&") || N.eqb _ (ch ",")).
    { destruct top as [top |]; [| apply IH; lia].
      destruct (str_eqb (name top) (js "or")); [| apply IH; lia].
      apply bind_fuel; [apply IH; lia | intros; not_fuel]. }
    destruct (N.eqb _ (ch "|")).
    { destruct top as [top |]; [| apply IH; lia].
      destruct (str_eqb (name top) (js "and")); [| apply IH; lia].
      apply bind_fuel; [apply IH; lia | intros; not_fuel]. }
    destruct (N.eqb _ (ch "(")); [| apply IH; lia].
    apply bind_fuel; [apply inside_fuel |]. intros insides Hinsides.
    apply bind_fuel; [apply splitArguments_never_out_of_fuel |].
    intros split Hsplit.
    apply bind_fuel; [| intros; apply IH; lia].
    apply mapM_fuel.
    pose proof (inside_length _ Hinsides) as Hlen.
    pose proof (skipn_length_le index query) as Hskip.
    unfold slice_from in Hlen.
    pose proof (splitArguments_strings _ Hsplit) as Hstrings.
    unfold strings_within in Hstrings.
    rewrite Forall_forall. intros a Ha.
    apply parseArg_fuel.
    rewrite Forall_forall. intros s Hs.
    apply Hrec.
    rewrite Forall_forall in Hstrings.
    assert (Hin : In s (flat_map strings_of split))
      by (apply in_flat_map; exists a; auto).
    apply Hstrings in Hin. lia.
  - destruct top; not_fuel.
Qed.

Lemma walkQuery_fuel_enough (depth : nat) :
  forall query,
    length query < depth -> walkQuery_fuel B depth query <> Err OutOfFuel.
Proof.
  induction depth as [| depth IH]; intros query Hdepth; [lia |].
  cbn [walkQuery_fuel]. unfold walkQuery_at.
  apply walk_loop_fuel; [| lia].
  intros s Hs. apply bind_fuel; [apply IH; lia | intros; not_fuel].
Qed.

(** The model of [walkQuery] always answers as the code does: with an
    operator or with an exception of the source. *)
Theorem walkQuery_never_out_of_fuel (query : jstring) :
  walkQuery B query <> Err OutOfFuel.
Proof. apply walkQuery_fuel_enough. lia. Qed.

Theorem parse_never_out_of_fuel (query : jstring) :
  parse B query <> Err OutOfFuel.
Proof.
  unfold parse. destruct (is_empty query); [not_fuel |].
  destruct (str_eqb _ _); [not_fuel |].
  destruct (normalizeSyntax_total query) as [normalized ->]. cbn [bind].
  apply walkQuery_never_out_of_fuel.
Qed.
End ModelTotal.

(* ===================================================================== *)
(** ** The walker and what it reads *)
(* ===================================================================== *)

Section WalkTokens.
Variable B : Builtins.
Variable walkQuery_rec : jstring -> result value.

(** The loop of [walkQuery] is the walker on what the loop reads, and it
    throws what the reading throws. *)
Lemma walk_loop_toplevel (fuel : nat) :
  forall query index cur top,
    walk_loop B walkQuery_rec fuel query index cur top
    = (toks <- toplevel (parseArg B walkQuery_rec) fuel query index ;;
       Ok (walk_tokens toks cur top)).
Proof.
  induction fuel as [| fuel IH]; intros query index cur top;
    cbn [toplevel walk_loop]; destruct (index <? length query);
    try reflexivity; try (destruct top; reflexivity).
  unfold is_joiner.
  destruct (N.eqb (nth index query 0%N) (ch "&")) eqn:Hamp;
    [| destruct (N.eqb (nth index query 0%N) (ch ",")) eqn:Hcomma;
       [| destruct (N.eqb (nth index query 0%N) (ch "|")) eqn:Hbar;
          [| destruct (N.eqb (nth index query 0%N) (ch "(")) eqn:Hopen]]];
    cbn [orb].
  1, 2: destruct top as [top |];
    [ destruct (str_eqb (name top) (js "or")) eqn:Hor |];
    rewrite IH;
    destruct (toplevel (parseArg B walkQuery_rec) fuel query (index + 1))
      as [toks | e];
    cbn [bind walk_tokens]; rewrite ?Hamp, ?Hcomma; cbn [orb];
    rewrite ?Hor; reflexivity.
  - destruct top as [top |];
      [ destruct (str_eqb (name top) (js "and")) eqn:Hand |];
      rewrite IH;
      destruct (toplevel (parseArg B walkQuery_rec) fuel query (index + 1))
        as [toks | e];
      cbn [bind walk_tokens]; rewrite ?Hamp, ?Hcomma; cbn [orb];
      rewrite ?Hand; reflexivity.
  - destruct (inside (slice_from query index)) as [insides | e];
      [| reflexivity].
    cbn [bind].
    destruct (splitArguments insides) as [split | e]; [| reflexivity].
    cbn [bind].
    destruct (mapM (parseArg B walkQuery_rec) split) as [parsed | e];
      [| reflexivity].
    cbn [bind]. rewrite IH.
    destruct (toplevel _ _ _ _) as [toks | e]; reflexivity.
  - rewrite IH.
    destruct (toplevel _ _ _ _) as [toks | e]; reflexivity.
Qed.
End WalkTokens.

(** Under a top operator that is not [or], with joiners [&] and [,] only,
    every operator is pushed into the top operator. *)
Lemma walk_tokens_flat_and (toks : list token) :
  forall cur t,
    (forall c, In (TJoin c) toks -> c = ch "&" \/ c = ch ",") ->
    str_eqb (name t) (js "or") = false ->
    walk_tokens toks cur (Some t)
    = {| name := name t;
         args := args t ++ map VOperator (operators_from cur toks) |}.
Proof.
  induction toks as [| tok toks IH]; intros cur t Hjoin Hname.
  - reflexivity.
  - assert (Hrest : forall c, In (TJoin c) toks -> c = ch "&" \/ c = ch ",")
      by (intros c Hc; apply Hjoin; right; exact Hc).
    destruct tok as [c | parsed | c]; cbn [walk_tokens operators_from].
    + assert (Hc : N.eqb c (ch "&") || N.eqb c (ch ",") = true).
      { destruct (Hjoin c (or_introl eq_refl)) as [-> | ->]; reflexivity. }
      rewrite Hc, Hname.
      rewrite IH by assumption.
      cbn [push name args map]. rewrite <- app_assoc. reflexivity.
    + apply IH; assumption.
    + apply IH; assumption.
Qed.

(** Under a top operator that is not [and], with the joiner [|] only, every
    operator is pushed into the top operator. *)
Lemma walk_tokens_flat_or (toks : list token) :
  forall cur t,
    (forall c, In (TJoin c) toks -> c = ch "|") ->
    str_eqb (name t) (js "and") = false ->
    walk_tokens toks cur (Some t)
    = {| name := name t;
         args := args t ++ map VOperator (operators_from cur toks) |}.
Proof.
  induction toks as [| tok toks IH]; intros cur t Hjoin Hname.
  - reflexivity.
  - assert (Hrest : forall c, In (TJoin c) toks -> c = ch "|")
      by (intros c Hc; apply Hjoin; right; exact Hc).
    destruct tok as [c | parsed | c]; cbn [walk_tokens operators_from].
    + rewrite (Hjoin c (or_introl eq_refl)).
      change (N.eqb (ch "|") (ch "&") || N.eqb (ch "|") (ch ",")) with false.
      cbv iota. rewrite Hname.
      rewrite IH by assumption.
      cbn [push name args map]. rewrite <- app_assoc. reflexivity.
    + apply IH; assumption.
    + apply IH; assumption.
Qed.

(** Before the first joiner there is no top operator; the first joiner
    makes it. *)
Lemma walk_tokens_and (toks : list token) :
  forall cur,
    (forall c, In (TJoin c) toks -> c = ch "&" \/ c = ch ",") ->
    (exists c, In (TJoin c) toks) ->
    walk_tokens toks cur None
    = {| name := js "and"; args := map VOperator (operators_from cur toks) |}.
Proof.
  induction toks as [| tok toks IH]; intros cur Hjoin [c0 Hc0].
  - destruct Hc0.
  - assert (Hrest : forall c, In (TJoin c) toks -> c = ch "&" \/ c = ch ",")
      by (intros c Hc; apply Hjoin; right; exact Hc).
    destruct tok as [c | parsed | c]; cbn [walk_tokens operators_from].
    + assert (Hc : N.eqb c (ch "&") || N.eqb c (ch ",") = true).
      { destruct (Hjoin c (or_introl eq_refl)) as [-> | ->]; reflexivity. }
      rewrite Hc.
      rewrite walk_tokens_flat_and by (assumption || reflexivity).
      reflexivity.
    + apply IH; [assumption |].
      destruct Hc0 as [Hc0 | Hc0]; [discriminate Hc0 | exists c0; exact Hc0].
    + apply IH; [assumption |].
      destruct Hc0 as [Hc0 | Hc0]; [discriminate Hc0 | exists c0; exact Hc0].
Qed.

Lemma walk_tokens_or (toks : list token) :
  forall cur,
    (forall c, In (TJoin c) toks -> c = ch "|") ->
    (exists c, In (TJoin c) toks) ->
    walk_tokens toks cur None
    = {| name := js "or"; args := map VOperator (operators_from cur toks) |}.
Proof.
  induction toks as [| tok toks IH]; intros cur Hjoin [c0 Hc0].
  - destruct Hc0.
  - assert (Hrest : forall c, In (TJoin c) toks -> c = ch "|")
      by (intros c Hc; apply Hjoin; right; exact Hc).
    destruct tok as [c | parsed | c]; cbn [walk_tokens operators_from].
    + rewrite (Hjoin c (or_introl eq_refl)).
      change (N.eqb (ch "|") (ch "&") || N.eqb (ch "|") (ch ",")) with false.
      cbv iota.
      rewrite walk_tokens_flat_or by (assumption || reflexivity).
      reflexivity.
    + apply IH; [assumption |].
      destruct Hc0 as [Hc0 | Hc0]; [discriminate Hc0 | exists c0; exact Hc0].
    + apply IH; [assumption |].
      destruct Hc0 as [Hc0 | Hc0]; [discriminate Hc0 | exists c0; exact Hc0].
Qed.

(* ===================================================================== *)
(** ** The walker on mixed joiners *)
(* ===================================================================== *)

Lemma str_eqb_eq (a b : jstring) : str_eqb a b = true <-> a = b.
Proof.
  revert b. induction a as [| x a IH]; intros [| y b]; cbn [str_eqb];
    try (split; [discriminate | discriminate]); [tauto |].
  rewrite andb_true_iff, N.eqb_eq, IH.
  split; [intros [-> ->]; reflexivity | intros H; injection H; auto].
Qed.

Lemma operators_from_not_nil (toks : list token) :
  forall cur, operators_from cur toks <> [].
Proof.
  induction toks as [| [c | parsed | c] toks IH]; intros cur;
    cbn [operators_from]; try apply IH; discriminate.
Qed.

(** Under an [or], the first [&] or [,] opens an [and] that begins with the
    operator before it and takes the rest of the text. *)
Lemma walk_tokens_or_then_and (toks1 toks2 : list token) (j : N) :
  forall cur t,
    (forall c, In (TJoin c) toks1 -> c = ch "|") ->
    (forall c, In (TJoin c) toks2 -> c = ch "&" \/ c = ch ",") ->
    j = ch "&" \/ j = ch "," ->
    str_eqb (name t) (js "or") = true ->
    walk_tokens (toks1 ++ TJoin j :: toks2) cur (Some t)
    = {| name := name t;
         args := args t
                 ++ map VOperator (removelast (operators_from cur toks1))
                 ++ [VOp (js "and")
                       (map VOperator
                          (last (operators_from cur toks1) empty_operator
                           :: operators_of toks2))] |}.
Proof.
  induction toks1 as [| tok toks1 IH]; intros cur t H1 H2 Hj Hname.
  - cbn [app walk_tokens operators_from removelast last map].
    replace (N.eqb j (ch "&") || N.eqb j (ch ",")) with true
      by (destruct Hj as [-> | ->]; reflexivity).
    rewrite Hname.
    rewrite walk_tokens_flat_and by (assumption || reflexivity).
    reflexivity.
  - assert (Hrest : forall c, In (TJoin c) toks1 -> c = ch "|")
      by (intros c Hc; apply H1; right; exact Hc).
    destruct tok as [c | parsed | c];
      cbn [app walk_tokens operators_from]; try (apply IH; assumption).
    rewrite (H1 c (or_introl eq_refl)).
    change (N.eqb (ch "|") (ch "&") || N.eqb (ch "|") (ch ",")) with false.
    cbv iota.
    assert (Hand : str_eqb (name t) (js "and") = false)
      by (apply str_eqb_eq in Hname; rewrite Hname; reflexivity).
    rewrite Hand.
    rewrite IH by (assumption || exact Hname).
    cbn [push name args].
    pose proof (operators_from_not_nil toks1 empty_operator) as Hne.
    destruct (operators_from empty_operator toks1) as [| o ops] eqn:Hops;
      [contradiction |].
    cbn [removelast last map].
    rewrite <- !app_assoc. reflexivity.
Qed.

Lemma walk_tokens_first_or_then_and (toks1 toks2 : list token) (j : N) :
  forall cur,
    (exists c, In (TJoin c) toks1) ->
    (forall c, In (TJoin c) toks1 -> c = ch "|") ->
    (forall c, In (TJoin c) toks2 -> c = ch "&" \/ c = ch ",") ->
    j = ch "&" \/ j = ch "," ->
    walk_tokens (toks1 ++ TJoin j :: toks2) cur None
    = {| name := js "or";
         args := map VOperator (removelast (operators_from cur toks1))
                 ++ [VOp (js "and")
                       (map VOperator
                          (last (operators_from cur toks1) empty_operator
                           :: operators_of toks2))] |}.
Proof.
  induction toks1 as [| tok toks1 IH]; intros cur Hsome H1 H2 Hj.
  - destruct Hsome as [c []].
  - assert (Hrest : forall c, In (TJoin c) toks1 -> c = ch "|")
      by (intros c Hc; apply H1; right; exact Hc).
    destruct tok as [c | parsed | c]; cbn [app walk_tokens operators_from].
    + rewrite (H1 c (or_introl eq_refl)).
      change (N.eqb (ch "|") (ch "&") || N.eqb (ch "|") (ch ",")) with false.
      cbv iota.
      rewrite walk_tokens_or_then_and by (assumption || reflexivity).
      cbn [push name args app].
      pose proof (operators_from_not_nil toks1 empty_operator) as Hne.
      destruct (operators_from empty_operator toks1) as [| o ops] eqn:Hops;
        [contradiction |].
      reflexivity.
    + apply IH; [| exact Hrest | exact H2 | exact Hj].
      destruct Hsome as [c0 [Hc0 | Hc0]]; [discriminate Hc0 | exists c0; exact Hc0].
    + apply IH; [| exact Hrest | exact H2 | exact Hj].
      destruct Hsome as [c0 [Hc0 | Hc0]]; [discriminate Hc0 | exists c0; exact Hc0].
Qed.

(* ===================================================================== *)
(** ** [parse]: the guards *)
(* ===================================================================== *)

(** C6: [parse] of the empty string throws a parse error, and so does
    [parse] of every query that begins with [?], whatever follows: the error
    is that of the guard, not one of the normalization or of the scan of the
    rest. *)
Theorem parse_rejects_empty_and_question_mark (B : Builtins) (rest : jstring) :
  parse B [] = Err (RQLParseError (js "Query empty or invalid: "))
  /\ parse B (ch "?" :: rest)
     = Err (RQLParseError (js "Query must not start with ?: " ++ ch "?" :: rest))
  /\ parse B (js "?eq(foo,3)")
     = Err (RQLParseError (js "Query must not start with ?: ?eq(foo,3)")).
Proof. repeat split. Qed.

(* ===================================================================== *)
(** ** [stringToValue]: the tag of a converter *)
(* ===================================================================== *)

Lemma star_of_class (p : N -> bool) (text : jstring) :
  star_of (lang (RClass p)) text -> Forall (fun c => p c = true) text.
Proof.
  induction 1 as [| t1 t2 (c & -> & Hc) _ IH]; [constructor |].
  constructor; assumption.
Qed.

(** A string that passes [/^\w+[^\\]:/] begins with a word of one character
    or more, then a character that is not a backslash, then a colon. *)
Lemma re_converter_shape (str : jstring) :
  test re_converter str = true ->
  exists w x rest,
    str = w ++ x :: ch ":" :: rest
    /\ w <> []
    /\ Forall (fun c => is_word c = true) w
    /\ x <> ch "\".
Proof.
  unfold test, exec. intros Htest.
  destruct (search re_converter 0 str) as [m |] eqn:Hs; [| discriminate Htest].
  apply search_sound in Hs as (skipped & text & rest' & -> & Hl & Hi & _ & Hm).
  unfold re_converter in Hm. cbn [rmatch] in Hm.
  destruct (m_index m =? 0) eqn:H0; [| discriminate Hm].
  apply Nat.eqb_eq in H0.
  assert (skipped = []) by (destruct skipped; [reflexivity | cbn [length] in Hi; lia]).
  subst skipped. cbn [app].
  unfold re_converter, RPlus in Hl. cbn [lang] in Hl.
  destruct Hl as (t0 & t1 & -> & -> & t2 & t3 & -> & Hword & t4 & t5 & -> & Hx & ->).
  destruct Hword as (a & b & -> & (c & -> & Hc) & Hstar).
  destruct Hx as (x & -> & Hx).
  apply star_of_class in Hstar.
  exists (c :: b), x, rest'. cbn [app]. rewrite <- !app_assoc. cbn [app].
  repeat split; [discriminate | constructor; assumption |].
  intros ->. discriminate Hx.
Qed.

(** A tag of one character is never seen: whatever the word character
    before the colon, unless a second colon follows, the whole string goes
    to the default converter. *)
Theorem stringToValue_one_character_tag (B : Builtins) (c : N) (rest : jstring) :
  is_word c = true ->
  (forall rest', rest <> ch ":" :: rest') ->
  stringToValue B (c :: ch ":" :: rest)
  = auto B (replace_first (c :: ch ":" :: rest) (js "\:") (js ":")).
Proof.
  intros Hc Hrest. unfold stringToValue.
  destruct (test re_converter (c :: ch ":" :: rest)) eqn:Htest; [| reflexivity].
  exfalso.
  apply re_converter_shape in Htest as (w & x & rest' & Hstr & Hw & Hword & Hx).
  destruct w as [| c' [| y w']]; [contradiction | |].
  - cbn [app] in Hstr. injection Hstr as _ _ Hstr. exact (Hrest _ Hstr).
  - cbn [app] in Hstr. injection Hstr as _ Hy _.
    inversion Hword as [| ? ? _ Hword']; subst.
    inversion Hword' as [| ? ? Hcolon _]; subst.
    discriminate Hcolon.
Qed.

(** C7, what the code does: the test [/^\w+[^\\]:/] asks for a character
    between the word and the colon.  A tag of one character is not seen,
    and [a:b] goes whole to the default converter; a character that is not
    of a word is taken into the tag, and [ab :c] is refused for its converter
    [ab ] though the specification finds no tag in it. *)
Theorem stringToValue_tag_detection (B : Builtins) :
  spec_tag (js "a:b") = Some (js "a", js "b")
  /\ converters_get (js "a") = None
  /\ stringToValue B (js "a:b") = Ok (VStr (js "a:b"))
  /\ spec_tag (js "ab :c") = None
  /\ stringToValue B (js "ab :c")
     = Err (RQLParseError (jsq "Unknown converter: `ab ")).
Proof. repeat split; vm_compute; reflexivity. Qed.

(* ===================================================================== *)
(** ** The converter [auto] on a quoted string *)
(* ===================================================================== *)

Lemma utf16_length (cp : N) : length (utf16 cp) <= 2.
Proof. unfold utf16. destruct (N.ltb cp 65536); cbn [length]; lia. Qed.

(** Decoding does not lengthen a string, and shortens one that holds a
    percent sign. *)
Lemma decode_from_length (n : nat) :
  forall s pending cp size d,
    length s <= n ->
    decode_from pending cp size s = Ok d ->
    (pending = 0 ->
     length d <= length s /\ (In (ch "%") s -> length d < length s))
    /\ (0 < pending -> length d < length s).
Proof.
  induction n as [| n IH]; intros s pending cp size d Hn Hd.
  - destruct s; [| cbn [length] in Hn; lia].
    destruct pending; cbn [decode_from] in Hd; [| discriminate Hd].
    injection Hd as <-. split; [| lia]. intros _. split; [lia | intros []].
  - destruct pending as [| pending].
    + split; [intros _ | lia].
      destruct s as [| c rest]; cbn [decode_from] in Hd.
      { injection Hd as <-. split; [lia | intros []]. }
      cbn [length] in Hn.
      destruct (N.eqb_spec c (ch "%")) as [-> | Hc].
      * destruct rest as [| h1 [| h2 rest2]]; try discriminate Hd.
        cbn [length] in Hn |- *.
        destruct (hex_value h1); [| discriminate Hd].
        destruct (hex_value h2); [| discriminate Hd].
        cbv zeta in Hd.
        assert (Hlt : length d < S (S (S (length rest2)))).
        { split_ifs_in Hd; try discriminate Hd.
          - bind_inv Hd. injection Hd as <-.
            apply IH in E; [| lia]. destruct E as [E _].
            destruct (E eq_refl) as [E' _]. cbn [length]. lia.
          - apply IH in Hd; [| lia]. destruct Hd as [_ Hd]. lia.
          - apply IH in Hd; [| lia]. destruct Hd as [_ Hd]. lia.
          - apply IH in Hd; [| lia]. destruct Hd as [_ Hd]. lia. }
        split; [lia | intros _; exact Hlt].
      * bind_inv Hd. injection Hd as <-.
        apply IH in E; [| lia]. destruct E as [E _].
        destruct (E eq_refl) as [Hle Hin]. cbn [length].
        split; [lia |].
        intros [Heq | Hrest]; [congruence | apply Hin in Hrest; lia].
    + split; [discriminate | intros _].
      destruct s as [| c [| h1 [| h2 rest2]]]; cbn [decode_from] in Hd;
        try discriminate Hd.
      cbn [length] in Hn |- *.
      destruct (N.eqb c (ch "%")); [| discriminate Hd].
      destruct (hex_value h1); [| discriminate Hd].
      destruct (hex_value h2); [| discriminate Hd].
      cbv zeta in Hd.
      destruct (N.eqb _ 128); [| discriminate Hd].
      destruct pending as [| pending].
      * destruct (valid_code_point _ _); [| discriminate Hd].
        bind_inv Hd. injection Hd as <-.
        apply IH in E; [| lia]. destruct E as [E _].
        destruct (E eq_refl) as [Hle _].
        rewrite length_app.
        match goal with
        | |- context [utf16 ?x] => pose proof (utf16_length x)
        end.
        lia.
      * apply IH in Hd; [| lia]. destruct Hd as [_ Hd]. lia.
Qed.

Lemma decodeURIComponent_shortens (s d : jstring) :
  In (ch "%") s -> decodeURIComponent s = Ok d -> length d < length s.
Proof.
  intros Hin Hd.
  destruct (@decode_from_length (length s) s 0 0%N 0 d (le_n _) Hd) as [H _].
  apply H; auto.
Qed.

Lemma charAt_beyond (s : jstring) (i : Z) :
  (Z.of_nat (length s) <= i)%Z -> charAt s i = [].
Proof.
  intros Hi. unfold charAt.
  destruct (Z.ltb_spec i 0); [reflexivity |].
  destruct (nth_error s (Z.to_nat i)) eqn:Hnth; [| reflexivity].
  assert (Z.to_nat i < length s) by (apply nth_error_Some; congruence).
  lia.
Qed.

(** When a percent escape was decoded, [auto] returns the decoded text as
    it is: the test of the closing quote reads the decoded string at the
    length of the raw one and finds nothing there. *)
Theorem auto_returns_decoded_text (B : Builtins) (str d : jstring) :
  autoConverted str = None ->
  Number str = NaN ->
  In (ch "%") str ->
  decodeURIComponent str = Ok d ->
  auto B str = Ok (VStr d).
Proof.
  intros Htable Hnum Hin Hd.
  pose proof (decodeURIComponent_shortens _ Hin Hd) as Hlen.
  unfold auto, number, string_. rewrite Htable, Hnum, Hd. cbn [isNaN bind].
  rewrite (@charAt_beyond d (Z.of_nat (length str) - 1)%Z) by lia.
  rewrite andb_false_r. reflexivity.
Qed.

Lemma decode_from_plain (s : jstring) :
  ~ In (ch "%") s -> decode_from 0 0 0 s = Ok s.
Proof.
  induction s as [| c s IH]; intros Hin; [reflexivity |].
  cbn [decode_from].
  destruct (N.eqb_spec c (ch "%")) as [-> | _]; [destruct Hin; left; reflexivity |].
  rewrite IH by (intro H; apply Hin; right; exact H).
  reflexivity.
Qed.

Lemma trimStart_keeps (c : N) (s : jstring) :
  is_js_space c = false -> trimStart (c :: s) = c :: s.
Proof. intros Hc. cbn [trimStart]. rewrite Hc. reflexivity. Qed.

(** Without a percent escape, [auto] parses the text between single quotes
    as a JSON string. *)
Theorem auto_parses_quoted_text (B : Builtins) (inner : jstring) :
  ~ In (ch "%") inner ->
  auto B (js "'" ++ inner ++ js "'") = json B (jsq "`" ++ inner ++ jsq "`").
Proof.
  intros Hin.
  change (js "'") with [ch "'"]. cbn [app].
  set (str := ch "'" :: inner ++ [ch "'"]).
  assert (Hlen : length str = S (S (length inner)))
    by (unfold str; cbn [length]; rewrite length_app; cbn [length]; lia).
  assert (Htrim : String_trim str = str).
  { unfold String_trim, str.
    rewrite trimStart_keeps by reflexivity.
    cbn [rev]. rewrite rev_app_distr. cbn [rev app].
    rewrite trimStart_keeps by reflexivity.
    cbn [rev]. rewrite rev_app_distr, rev_involutive. reflexivity. }
  assert (Hnum : Number str = NaN).
  { unfold Number. rewrite Htrim. unfold str.
    destruct inner as [| x inner']; reflexivity. }
  assert (Hd : decodeURIComponent str = Ok str).
  { apply decode_from_plain. unfold str.
    intros [H | H]; [discriminate H |].
    apply in_app_or in H as [H | [H | []]]; [auto | discriminate H]. }
  unfold auto, number, string_.
  replace (autoConverted str) with (@None value) by reflexivity.
  rewrite Hnum, Hd. cbn [isNaN bind].
  assert (H0 : charAt str 0 = js "'") by reflexivity.
  assert (H1 : charAt str (Z.of_nat (length str) - 1)%Z = js "'").
  { unfold charAt. rewrite Hlen.
    destruct (Z.ltb_spec (Z.of_nat (S (S (length inner))) - 1) 0); [lia |].
    replace (Z.to_nat (Z.of_nat (S (S (length inner))) - 1)%Z)
      with (S (length inner)) by lia.
    unfold str. cbn [nth_error].
    rewrite nth_error_app2, Nat.sub_diag by lia. reflexivity. }
  rewrite H0, H1. cbn [str_eqb js list_ascii_of_string map andb N.eqb].
  replace (N_of_ascii "'" =? N_of_ascii "'")%N with true by reflexivity.
  cbn [andb].
  f_equal. f_equal.
  unfold substring, clamp. rewrite Hlen.
  replace (Z.to_nat (Z.min (Z.max 1 0) (Z.of_nat (S (S (length inner))))))
    with 1 by lia.
  replace (Z.to_nat (Z.min (Z.max (Z.of_nat (S (S (length inner))) - 1)%Z 0)
                           (Z.of_nat (S (S (length inner))))))
    with (S (length inner)) by lia.
  rewrite Nat.min_l, Nat.max_r by lia.
  unfold str. cbn [skipn].
  replace (S (length inner) - 1) with (length inner) by lia.
  rewrite firstn_app, Nat.sub_diag, firstn_all, firstn_O, app_nil_r.
  reflexivity.
Qed.

(** C8, what the code does: the last character of the decoded string is
    looked up at the length of the raw string.  When a percent escape was
    decoded the raw string is longer, the closing quote is not found, and the
    decoded text comes back with its quotes: ['a%20b'] gives ['a b'] and
    [%27foo%27] gives ['foo'].  Without an escape the inner text is parsed
    as JSON. *)
Theorem auto_quoted_with_escape (B : Builtins) :
  autoConverted (js "'a%20b'") = None
  /\ Number (js "'a%20b'") = NaN
  /\ decodeURIComponent (js "'a%20b'") = Ok (js "'a b'")
  /\ auto B (js "'a%20b'") = Ok (VStr (js "'a b'"))
  /\ decodeURIComponent (js "%27foo%27") = Ok (js "'foo'")
  /\ auto B (js "%27foo%27") = Ok (VStr (js "'foo'"))
  /\ auto B (js "'foo'") = json B (jsq "`foo`").
Proof. repeat split; vm_compute; reflexivity. Qed.

(* ===================================================================== *)
(** ** [encodeString] on parentheses *)
(* ===================================================================== *)

(** C9, what the code does: [replace] with a string for a pattern replaces
    the first occurrence only.  Of two opening parens the second stays, and
    so does the second of two closing ones. *)
Theorem encodeString_second_paren :
  encodeString (js "(foo)") = Ok (js "%28foo%29")
  /\ encodeString (js "((a))") = Ok (js "%28(a%29)")
  /\ ~ paren_free (js "%28(a%29)").
Proof.
  repeat split; try (vm_compute; reflexivity).
  intros H. unfold paren_free in H.
  rewrite Forall_forall in H.
  specialize (H (ch "(")).
  assert (Hin : In (ch "(") (js "%28(a%29)")) by (vm_compute; tauto).
  apply H in Hin. discriminate Hin.
Qed.

(* ===================================================================== *)
(** ** The serializer on the result of [parse] *)
(* ===================================================================== *)

(** C4, amended: [queryToString] applied to the [RQLQuery] made of the name
    and the arguments of [parse("eq(foo,bar)")] returns ["eq(foo,bar)"]. *)
Theorem queryToString_of_parsed_query (B : Builtins) :
  exists o,
    parse B (js "eq(foo,bar)") = Ok o
    /\ queryToString B (new_RQLQuery (name o) (args o))
       = Ok (VStr (js "eq(foo,bar)")).
Proof.
  eexists. split; [vm_compute; reflexivity | vm_compute; reflexivity].
Qed.

(** C4 as stated fails: [parse] returns a plain object, which is not an
    instance of [RQLQuery]; [queryToString] takes it for a value and encodes
    the text [object:[object Object]], in every runtime. *)
Lemma queryToString_of_parsed_counterexample :
  ~ (exists B o,
       parse B (js "eq(foo,bar)") = Ok o
       /\ queryToString B (VOperator o) = Ok (VStr (js "eq(foo,bar)")))
  /\ (exists o,
       parse no_runtime (js "eq(foo,bar)") = Ok o
       /\ queryToString no_runtime (VOperator o)
          = Ok (VStr (js "object%3A%5Bobject%20Object%5D"))).
Proof.
  split.
  - intros (B & o & Hparse & Hstring).
    vm_compute in Hparse. injection Hparse as <-.
    vm_compute in Hstring. discriminate Hstring.
  - eexists. split; vm_compute; reflexivity.
Qed.

(* ===================================================================== *)
(** ** More on the scanner [inside] *)
(* ===================================================================== *)

(** The scan fails for one reason only. *)
Lemma inside_loop_error (fuel : nat) :
  forall str delimiter acc count index delimited quoteType e,
    inside_loop fuel str delimiter acc count index delimited quoteType = Err e ->
    e = OutOfFuel \/ e = no_closing_paren.
Proof.
  induction fuel as [| fuel IH]; intros str d acc count index del q e He;
    cbn [inside_loop] in He; destruct (index <? length str).
  - injection He as <-. auto.
  - injection He as <-. auto.
  - split_ifs_in He; try (eapply IH; exact He). discriminate He.
  - injection He as <-. auto.
Qed.

(** [inside] returns a text at least two characters shorter than its input,
    or throws the parse error of the missing closing paren: it has no other
    outcome. *)
Theorem inside_outcomes (str : jstring) :
  (exists r, inside str = Ok r /\ length r + 2 <= length str)
  \/ inside str = Err no_closing_paren.
Proof.
  destruct (inside str) as [r | e] eqn:Hin.
  - left. exists r. split; [reflexivity |].
    apply inside_length in Hin. lia.
  - right. pose proof (inside_fuel str) as Hfuel. rewrite Hin in Hfuel.
    apply inside_loop_error in Hin as [-> | ->]; [| reflexivity].
    contradiction.
Qed.

(** The loop never reads the first character. *)
Lemma inside_loop_first_char (fuel : nat) (c c' : N) (s : jstring) :
  forall delimiter acc count index delimited quoteType,
    inside_loop fuel (c :: s) delimiter acc count (S index) delimited quoteType
    = inside_loop fuel (c' :: s) delimiter acc count (S index) delimited
        quoteType.
Proof.
  induction fuel as [| fuel IH]; intros d acc count index del q;
    cbn [inside_loop length nth]; [reflexivity |].
  replace (S index + 1) with (S (index + 1)) by lia.
  rewrite !IH. reflexivity.
Qed.

(** [inside] takes the first character for the opening paren without
    looking at it: the result is the same whatever that character is. *)
Theorem inside_ignores_first_character (c c' : N) (s : jstring) :
  inside (c :: s) = inside (c' :: s).
Proof.
  unfold inside, inside_with. cbn [length].
  apply inside_loop_first_char.
Qed.

(** One turn of the loop on an opening paren, outside quotes. *)
Lemma inside_loop_open fuel pre tail acc count :
  inside_loop (S fuel) (pre ++ ch "(" :: tail) default_delimiter acc count
    (length pre) false []
  = inside_loop fuel (pre ++ ch "(" :: tail) default_delimiter
      (acc ++ [ch "("]) (count + 1) (length pre + 1) false [].
Proof.
  cbn [inside_loop]. rewrite index_in_range, char_at_index. reflexivity.
Qed.

(** One turn of the loop on a closing paren that does not close the
    group. *)
Lemma inside_loop_inner_close fuel pre tail acc count :
  (count - 1 <> 0)%Z ->
  inside_loop (S fuel) (pre ++ ch ")" :: tail) default_delimiter acc count
    (length pre) false []
  = inside_loop fuel (pre ++ ch ")" :: tail) default_delimiter
      (acc ++ [ch ")"]) (count - 1) (length pre + 1) false [].
Proof.
  intros Hcount. cbn [inside_loop]. rewrite index_in_range, char_at_index.
  cbn [is_empty andb negb]. unfold default_delimiter.
  replace (str_eqb [ch ")"] [ch "\"]) with false by reflexivity.
  replace (is_quote (ch ")")) with false by reflexivity.
  replace (N.eqb (ch ")") (ch "(")) with false by reflexivity.
  replace (N.eqb (ch ")") (ch ")")) with true by reflexivity.
  destruct (Z.eqb_spec (count - 1) 0); [contradiction | reflexivity].
Qed.

Lemma unquoted_plain (c : N) :
  unquoted c = true -> c <> ch "(" -> plain c = true.
Proof.
  unfold unquoted, plain. intros Hc Hopen.
  apply negb_true_iff in Hc. rewrite Hc.
  destruct (N.eqb_spec c (ch "(")); [contradiction | reflexivity].
Qed.

(** The scan of a text whose parens are well nested under [depth] open
    groups, and of the closing paren after it. *)
Lemma inside_loop_well_nested (s : jstring) :
  forall depth fuel pre tail acc,
    Forall (fun c => unquoted c = true) s ->
    well_nested depth s = true ->
    length s < fuel ->
    inside_loop fuel (pre ++ s ++ ch ")" :: tail) default_delimiter acc
      (Z.of_nat depth + 1) (length pre) false []
    = Ok (acc ++ s).
Proof.
  induction s as [| c s IH]; intros depth fuel pre tail acc Hs Hnest Hfuel.
  - cbn [well_nested] in Hnest. apply Nat.eqb_eq in Hnest. subst depth.
    cbn [app length]. destruct fuel as [| fuel]; [lia |].
    rewrite inside_loop_close, app_nil_r. reflexivity.
  - inversion Hs as [| ? ? Hc Hs']; subst.
    cbn [length] in Hfuel. destruct fuel as [| fuel]; [lia |].
    cbn [well_nested] in Hnest. cbn [app].
    destruct (N.eqb_spec c (ch "(")) as [-> | Hopen].
    + rewrite inside_loop_open.
      rewrite (shift_char pre), (next_index pre (ch "(")).
      replace (Z.of_nat depth + 1 + 1)%Z with (Z.of_nat (S depth) + 1)%Z by lia.
      rewrite (IH (S depth)) by (assumption || lia).
      rewrite <- app_assoc. reflexivity.
    + destruct (N.eqb_spec c (ch ")")) as [-> | Hclose].
      * destruct depth as [| depth]; [discriminate Hnest |].
        rewrite inside_loop_inner_close by lia.
        rewrite (shift_char pre), (next_index pre (ch ")")).
        replace (Z.of_nat (S depth) + 1 - 1)%Z with (Z.of_nat depth + 1)%Z by lia.
        rewrite (IH depth) by (assumption || lia).
        rewrite <- app_assoc. reflexivity.
      * rewrite inside_loop_plain_char
          by (try apply unquoted_plain; assumption).
        rewrite (shift_char pre), (next_index pre c).
        rewrite (IH depth) by (assumption || lia).
        rewrite <- app_assoc. reflexivity.
Qed.

(** [inside] returns a group whole: for every text without quotes and
    backslashes whose parens are well nested, ["(" + s + ")"] followed by
    anything scans to [s]. *)
Theorem inside_returns_group (s tail : jstring) :
  Forall (fun c => unquoted c = true) s ->
  well_nested 0 s = true ->
  inside (js "(" ++ s ++ js ")" ++ tail) = Ok s.
Proof.
  intros Hs Hnest. unfold inside, inside_with.
  apply (@inside_loop_well_nested s 0 _ [ch "("] tail []); [assumption .. |].
  rewrite !length_app. change (length (js "(")) with 1. lia.
Qed.

(** The theorem at the group of a query with nested calls. *)
Lemma inside_returns_group_witness :
  inside (js "(deep(),really(deep(in(there))))&eq(a,b)")
  = Ok (js "deep(),really(deep(in(there)))").
Proof.
  assert (Hs : Forall (fun c => unquoted c = true)
                 (js "deep(),really(deep(in(there)))"))
    by (apply Forall_forall; intros c Hc; vm_compute in Hc;
        repeat (destruct Hc as [<- | Hc]; [reflexivity |]); destruct Hc).
  assert (Hnest : well_nested 0 (js "deep(),really(deep(in(there)))") = true)
    by reflexivity.
  exact (inside_returns_group (js "&eq(a,b)") Hs Hnest).
Defined.

(** One turn of the loop inside a run quoted by [q], on another
    character. *)
Lemma inside_loop_quoted_char fuel pre q c tail acc count :
  is_quote q = true -> c <> q ->
  inside_loop (S fuel) (pre ++ c :: tail) default_delimiter acc count
    (length pre) false [q]
  = inside_loop fuel (pre ++ c :: tail) default_delimiter (acc ++ [c]) count
      (length pre + 1) false [q].
Proof.
  intros Hq Hne. cbn [inside_loop].
  rewrite index_in_range, char_at_index.
  cbn [is_empty andb negb str_eqb].
  destruct (N.eqb_spec q c) as [-> | _]; [contradiction |].
  cbn [andb]. destruct (is_quote c); reflexivity.
Qed.

Lemma inside_loop_quote fuel pre q tail acc count quoteType quoteType' :
  is_quote q = true ->
  (quoteType = [] /\ quoteType' = [q]) \/ (quoteType = [q] /\ quoteType' = []) ->
  inside_loop (S fuel) (pre ++ q :: tail) default_delimiter acc count
    (length pre) false quoteType
  = inside_loop fuel (pre ++ q :: tail) default_delimiter (acc ++ [q]) count
      (length pre + 1) false quoteType'.
Proof.
  intros Hq Hcase. cbn [inside_loop].
  rewrite index_in_range, char_at_index.
  assert (Hd : str_eqb [q] default_delimiter = false).
  { unfold default_delimiter. cbn [str_eqb].
    destruct (N.eqb_spec q (ch "\")) as [-> | _]; [discriminate Hq | reflexivity]. }
  destruct Hcase as [[-> ->] | [-> ->]]; cbn [is_empty andb].
  - rewrite Hd, Hq. reflexivity.
  - rewrite Hq. cbn [str_eqb]. rewrite N.eqb_refl. reflexivity.
Qed.

Lemma inside_loop_quoted_run (w : jstring) :
  forall fuel pre q tail acc count,
    is_quote q = true ->
    Forall (fun c => c <> q) w ->
    inside_loop (length w + fuel) (pre ++ w ++ tail) default_delimiter acc
      count (length pre) false [q]
    = inside_loop fuel (pre ++ w ++ tail) default_delimiter (acc ++ w) count
        (length (pre ++ w)) false [q].
Proof.
  induction w as [| c w IH]; intros fuel pre q tail acc count Hq Hw.
  - rewrite !app_nil_r. reflexivity.
  - inversion Hw as [| ? ? Hc Hw']; subst.
    cbn [length Nat.add app].
    rewrite inside_loop_quoted_char by assumption.
    rewrite (shift_char pre), (next_index pre c).
    rewrite IH by assumption.
    rewrite <- !app_assoc. reflexivity.
Qed.

(** Between two quotes of the same kind nothing is special: parens are not
    counted, a backslash escapes nothing, and the text comes back with its
    quotes. *)
Theorem inside_keeps_quoted_text (q : N) (w tail : jstring) :
  is_quote q = true ->
  Forall (fun c => c <> q) w ->
  inside (js "(" ++ [q] ++ w ++ [q] ++ js ")" ++ tail) = Ok ([q] ++ w ++ [q]).
Proof.
  intros Hq Hw. unfold inside, inside_with.
  change (js "(" ++ [q] ++ w ++ [q] ++ js ")" ++ tail)
    with ([ch "("] ++ q :: w ++ q :: ch ")" :: tail).
  replace (length ([ch "("] ++ q :: w ++ q :: ch ")" :: tail))
    with (S (length w + S (S (S (length tail)))))
    by (cbn [app length]; rewrite length_app; cbn [length]; lia).
  rewrite (inside_loop_quote _ [ch "("] (w ++ q :: ch ")" :: tail) [] 1
             (quoteType' := [q]) Hq) by auto.
  rewrite (shift_char [ch "("] q), (next_index [ch "("] q).
  rewrite inside_loop_quoted_run by assumption.
  rewrite (app_assoc _ w).
  rewrite (inside_loop_quote _ _ (ch ")" :: tail) _ 1 (quoteType' := []) Hq)
    by auto.
  rewrite (shift_char _ q), (next_index _ q).
  rewrite inside_loop_close.
  rewrite <- !app_assoc. reflexivity.
Qed.

(** The theorem at a quoted closing paren and a quoted backslash. *)
Lemma inside_keeps_quoted_text_witness :
  inside (jsq "(`a)\b`)") = Ok (jsq "`a)\b`").
Proof.
  assert (Hq : is_quote dquote = true) by reflexivity.
  assert (Hw : Forall (fun c => c <> dquote) (js "a)\b"))
    by (repeat constructor; discriminate).
  exact (inside_keeps_quoted_text [] Hq Hw).
Defined.

(* ===================================================================== *)
(** ** The matcher step by step *)
(* ===================================================================== *)

Section MatcherSteps.
Variable A : Type.

Lemma star_class_nil (p : N -> bool) pos caps (k : cont A) :
  rmatch (RStar (RClass p)) pos [] caps k = k pos [] caps.
Proof. reflexivity. Qed.

(** A star over a class takes a character of the class and goes on; it gives
    the character back when what follows fails. *)
Lemma star_class_cons (p : N -> bool) pos c rest caps (k : cont A) :
  rmatch (RStar (RClass p)) pos (c :: rest) caps k
  = if p c then
      match rmatch (RStar (RClass p)) (S pos) rest caps k with
      | Some a => Some a
      | None => k pos (c :: rest) caps
      end
    else k pos (c :: rest) caps.
Proof.
  cbn [rmatch length]. destruct (p c); [| reflexivity].
  replace (pos <? S pos) with true by (symmetry; apply Nat.ltb_lt; lia).
  reflexivity.
Qed.

(** The star stops where the class ends: when the continuation accepts
    there, that is the match. *)
Lemma star_class_greedy (p : N -> bool) (w : jstring) :
  forall pos tail caps (k : cont A) a,
    Forall (fun c => p c = true) w ->
    match tail with c :: _ => p c = false | [] => True end ->
    k (pos + length w) tail caps = Some a ->
    rmatch (RStar (RClass p)) pos (w ++ tail) caps k = Some a.
Proof.
  induction w as [| c w IH]; intros pos tail caps k a Hw Htail Hk.
  - cbn [app length] in *. rewrite Nat.add_0_r in Hk.
    destruct tail as [| x tail]; [exact Hk |].
    rewrite star_class_cons, Htail. exact Hk.
  - inversion Hw as [| ? ? Hc Hw']; subst.
    cbn [app]. rewrite star_class_cons, Hc.
    rewrite (IH (S pos) tail caps k a); [reflexivity | assumption .. |].
    cbn [length] in Hk. rewrite <- Hk. f_equal. lia.
Qed.

(** The star finds a match when the continuation accepts after some
    characters of the class. *)
Lemma star_class_some (p : N -> bool) (w : jstring) :
  forall pos tail caps (k : cont A) a,
    Forall (fun c => p c = true) w ->
    k (pos + length w) tail caps = Some a ->
    exists a', rmatch (RStar (RClass p)) pos (w ++ tail) caps k = Some a'.
Proof.
  induction w as [| c w IH]; intros pos tail caps k a Hw Hk.
  - cbn [app length] in *. rewrite Nat.add_0_r in Hk.
    destruct tail as [| x tail]; [exists a; exact Hk |].
    rewrite star_class_cons.
    destruct (p x); [| exists a; exact Hk].
    destruct (rmatch (RStar (RClass p)) (S pos) tail caps k) as [a' |];
      [exists a'; reflexivity | exists a; exact Hk].
  - inversion Hw as [| ? ? Hc Hw']; subst.
    cbn [app]. rewrite star_class_cons, Hc.
    destruct (IH (S pos) tail caps k a Hw') as [a' ->]; [| exists a'; reflexivity].
    cbn [length] in Hk. rewrite <- Hk. f_equal. lia.
Qed.

(** The star fails when the continuation refuses after every run of
    characters of the class. *)
Lemma star_class_none (p : N -> bool) (rest : jstring) :
  forall pos caps (k : cont A),
    (forall a b, rest = a ++ b -> Forall (fun c => p c = true) a ->
                 k (pos + length a) b caps = None) ->
    rmatch (RStar (RClass p)) pos rest caps k = None.
Proof.
  induction rest as [| c rest IH]; intros pos caps k Hk.
  - rewrite star_class_nil.
    rewrite <- (Hk [] []) by (reflexivity || constructor).
    cbn [length]. rewrite Nat.add_0_r. reflexivity.
  - assert (Hhere : k pos (c :: rest) caps = None).
    { rewrite <- (Hk [] (c :: rest)) by (reflexivity || constructor).
      cbn [length]. rewrite Nat.add_0_r. reflexivity. }
    rewrite star_class_cons. destruct (p c) eqn:Hc; [| exact Hhere].
    rewrite IH; [exact Hhere |].
    intros a b -> Ha.
    rewrite <- (Hk (c :: a) b) by (reflexivity || (constructor; assumption)).
    cbn [length]. f_equal. lia.
Qed.
End MatcherSteps.

(** A search finds a match when the matcher does at some index. *)
Lemma search_finds (r : regex) (a : jstring) :
  forall pos b m,
    rmatch r (pos + length a) b [] (found (pos + length a)) = Some m ->
    exists m', search r pos (a ++ b) = Some m'.
Proof.
  induction a as [| x a IH]; intros pos b m Hm; rewrite search_unfold.
  - cbn [length app] in *. rewrite Nat.add_0_r in Hm. rewrite Hm.
    exists m. reflexivity.
  - destruct (rmatch r pos ((x :: a) ++ b) [] (found pos)) as [m' |];
      [exists m'; reflexivity |].
    cbn [app]. apply (IH (S pos) b m).
    cbn [length] in Hm. replace (S pos + length a) with (pos + S (length a)) by lia.
    exact Hm.
Qed.

Lemma test_true (r : regex) (s : jstring) :
  test r s = true <-> exists m, search r 0 s = Some m.
Proof.
  unfold test, exec. destruct (search r 0 s) as [m |]; split.
  - intros _. exists m. reflexivity.
  - reflexivity.
  - discriminate.
  - intros [m Hm]. discriminate Hm.
Qed.

(* ===================================================================== *)
(** ** [trim]: one pair of quotes *)
(* ===================================================================== *)

Lemma trimStart_spaces (pad : jstring) (s : jstring) :
  Forall (fun c => is_js_space c = true) pad ->
  trimStart (pad ++ s) = trimStart s.
Proof.
  induction 1 as [| c pad Hc _ IH]; [reflexivity |].
  cbn [app trimStart]. rewrite Hc. exact IH.
Qed.

(** [s.trim()] of a text between white space, when the text neither begins
    nor ends with white space. *)
Lemma String_trim_padded (pad1 pad2 : jstring) (c d : N) (s : jstring) :
  Forall (fun c => is_js_space c = true) pad1 ->
  Forall (fun c => is_js_space c = true) pad2 ->
  is_js_space c = false -> is_js_space d = false ->
  String_trim (pad1 ++ (c :: s ++ [d]) ++ pad2) = c :: s ++ [d].
Proof.
  intros H1 H2 Hc Hd. unfold String_trim.
  rewrite trimStart_spaces by assumption.
  cbn [app]. rewrite trimStart_keeps by assumption.
  change (c :: (s ++ [d]) ++ pad2) with ((c :: s ++ [d]) ++ pad2).
  rewrite rev_app_distr, trimStart_spaces by (apply Forall_rev; assumption).
  change (c :: s ++ [d]) with ((c :: s) ++ [d]).
  rewrite rev_app_distr. cbn [rev app].
  rewrite trimStart_keeps by assumption.
  change (d :: rev s ++ [c]) with ([d] ++ rev s ++ [c]).
  rewrite !rev_app_distr, rev_involutive. reflexivity.
Qed.

Lemma slice_inner (c d : N) (s : jstring) :
  slice (c :: s ++ [d]) 1 (-1) = s.
Proof.
  unfold slice, slice_index. cbn [length]. rewrite length_app. cbn [length].
  replace (1 <? 0)%Z with false by reflexivity.
  replace (-1 <? 0)%Z with true by reflexivity.
  replace (Nat.min (Z.to_nat 1) (S (length s + 1))) with 1 by lia.
  replace (Z.to_nat (Z.max (Z.of_nat (S (length s + 1)) + -1) 0))
    with (S (length s)) by lia.
  cbn [skipn]. replace (S (length s) - 1) with (length s) by lia.
  rewrite firstn_app, Nat.sub_diag, firstn_all, firstn_O, app_nil_r.
  reflexivity.
Qed.

Section MatcherEquations.
Variable A : Type.

Lemma rmatch_RSeq (r1 r2 : regex) pos rest caps (k : cont A) :
  rmatch (RSeq r1 r2) pos rest caps k
  = rmatch r1 pos rest caps
      (fun pos' rest' caps' => rmatch r2 pos' rest' caps' k).
Proof. reflexivity. Qed.

Lemma rmatch_RAlt (r1 r2 : regex) pos rest caps (k : cont A) :
  rmatch (RAlt r1 r2) pos rest caps k
  = match rmatch r1 pos rest caps k with
    | Some a => Some a
    | None => rmatch r2 pos rest caps k
    end.
Proof. reflexivity. Qed.

Lemma rmatch_RGroup (i : nat) (r0 : regex) pos rest caps (k : cont A) :
  rmatch (RGroup i r0) pos rest caps k
  = rmatch r0 pos rest caps
      (fun pos' rest' caps' =>
         k pos' rest' ((i, firstn (pos' - pos) rest) :: caps')).
Proof. reflexivity. Qed.

Lemma rmatch_RChar (c : N) pos rest caps (k : cont A) :
  rmatch (RChar c) pos (c :: rest) caps k = k (S pos) rest caps.
Proof. cbn [rmatch]. rewrite N.eqb_refl. reflexivity. Qed.

Lemma rmatch_RChar_other (c x : N) pos rest caps (k : cont A) :
  x <> c -> rmatch (RChar c) pos (x :: rest) caps k = None.
Proof.
  intros Hx. cbn [rmatch].
  destruct (N.eqb_spec x c); [contradiction | reflexivity].
Qed.

Lemma rmatch_RClass (p : N -> bool) (c : N) pos rest caps (k : cont A) :
  rmatch (RClass p) pos (c :: rest) caps k
  = if p c then k (S pos) rest caps else None.
Proof. reflexivity. Qed.

Lemma rmatch_REmpty pos rest caps (k : cont A) :
  rmatch REmpty pos rest caps k = k pos rest caps.
Proof. reflexivity. Qed.
End MatcherEquations.

(** An expression anchored at the beginning matches at index 0 only. *)
Lemma search_anchored (r : regex) (rest : jstring) :
  forall pos, 0 < pos -> search (RSeq RBol r) pos rest = None.
Proof.
  induction rest as [| c rest IH]; intros pos Hpos; rewrite search_unfold;
    cbn [rmatch]; destruct (Nat.eqb_spec pos 0); try lia; [reflexivity |].
  apply IH. lia.
Qed.

Lemma test_anchored (r : regex) (s : jstring) :
  test (RSeq RBol r) s
  = match rmatch r 0 s [] (found 0) with Some _ => true | None => false end.
Proof.
  unfold test, exec. rewrite search_unfold.
  change (rmatch (RSeq RBol r) 0 s [] (found 0)) with (rmatch r 0 s [] (found 0)).
  destruct (rmatch r 0 s [] (found 0)); [reflexivity |].
  destruct s as [| c s]; [reflexivity |].
  rewrite search_anchored by lia. reflexivity.
Qed.

(** [/^q.*q$/] on a text between two [q]: it matches when the text has no
    line terminator. *)
Lemma re_quoted_matches (q : N) (w : jstring) :
  Forall (fun c => is_line_terminator c = false) w ->
  test (re_quoted q) (q :: w ++ [q]) = true.
Proof.
  intros Hw. unfold re_quoted. rewrite test_anchored.
  rewrite rmatch_RSeq, rmatch_RChar, rmatch_RSeq.
  destruct (@star_class_some rmatched
              (fun c => negb (is_line_terminator c)) w 1 [q] []
              (fun pos' rest' caps' =>
                 rmatch (RSeq (RChar q) REol) pos' rest' caps' (found 0))
              {| m_index := 0; m_end := S (1 + length w); m_groups := [] |})
    as [m Hm].
  - eapply Forall_impl; [| exact Hw]. intros c Hc. cbv beta. rewrite Hc.
    reflexivity.
  - rewrite rmatch_RSeq, rmatch_RChar. reflexivity.
  - unfold RDot. rewrite Hm. reflexivity.
Qed.

(** It does not match when the text has a line terminator. *)
Lemma re_quoted_refuses (q : N) (w : jstring) :
  Exists (fun c => is_line_terminator c = true) w ->
  test (re_quoted q) (q :: w ++ [q]) = false.
Proof.
  intros Hw. unfold re_quoted. rewrite test_anchored.
  rewrite rmatch_RSeq, rmatch_RChar, rmatch_RSeq.
  unfold RDot. rewrite star_class_none; [reflexivity |].
  intros a b Hsplit Ha. rewrite rmatch_RSeq.
  destruct b as [| x [| y b]].
  - reflexivity.
  - destruct (N.eq_dec x q) as [-> | Hx];
      [| rewrite rmatch_RChar_other by assumption; reflexivity].
    apply app_inj_tail in Hsplit as [-> _]. exfalso.
    apply Exists_exists in Hw as (c & Hin & Hc).
    rewrite Forall_forall in Ha. specialize (Ha c Hin).
    rewrite Hc in Ha. discriminate Ha.
  - destruct (N.eq_dec x q) as [-> | Hx];
      [rewrite rmatch_RChar; reflexivity
      | rewrite rmatch_RChar_other by assumption; reflexivity].
Qed.

(** The expression of the other quote does not match. *)
Lemma re_quoted_other (q q' : N) (s : jstring) :
  q <> q' -> test (re_quoted q') (q :: s) = false.
Proof.
  intros Hq. unfold re_quoted. rewrite test_anchored.
  rewrite rmatch_RSeq, rmatch_RChar_other by assumption. reflexivity.
Qed.

Lemma forallb_false {X} (f : X -> bool) (l : list X) :
  forallb f l = false -> Exists (fun x => f x = false) l.
Proof.
  induction l as [| x l IH]; [discriminate |].
  cbn [forallb]. destruct (f x) eqn:Hx; [| intros _; left; exact Hx].
  intros H. right. apply IH. exact H.
Qed.

(** [trim] removes the white space around its argument and then, from a text
    that begins and ends with the same quote, the two quotes - unless a line
    terminator stands between them, which [.] does not match: the quotes
    stay then.  Quotes and white space further inside are kept. *)
Theorem trim_quoted (q : N) (pad1 w pad2 : jstring) :
  is_quote q = true ->
  Forall (fun c => is_js_space c = true) pad1 ->
  Forall (fun c => is_js_space c = true) pad2 ->
  trim (pad1 ++ (q :: w ++ [q]) ++ pad2)
  = if forallb (fun c => negb (is_line_terminator c)) w then w
    else q :: w ++ [q].
Proof.
  intros Hq H1 H2. unfold trim.
  assert (Hspace : is_js_space q = false).
  { unfold is_quote in Hq. apply orb_true_iff in Hq as [Hq | Hq];
      apply N.eqb_eq in Hq; subst q; reflexivity. }
  rewrite String_trim_padded by assumption.
  rewrite slice_inner.
  destruct (forallb (fun c => negb (is_line_terminator c)) w) eqn:Hw.
  - assert (Hw' : Forall (fun c => is_line_terminator c = false) w).
    { apply Forall_forall. intros c Hc.
      rewrite forallb_forall in Hw. specialize (Hw c Hc).
      destruct (is_line_terminator c); [discriminate Hw | reflexivity]. }
    pose proof (re_quoted_matches q Hw') as Hm.
    unfold is_quote in Hq. apply orb_true_iff in Hq as [Hq | Hq];
      apply N.eqb_eq in Hq; subst q; rewrite Hm;
      rewrite ?orb_true_r; reflexivity.
  - assert (Hw' : Exists (fun c => is_line_terminator c = true) w).
    { apply forallb_false in Hw. eapply Exists_impl; [| exact Hw].
      intros c Hc. cbv beta in Hc.
      destruct (is_line_terminator c); [reflexivity | discriminate Hc]. }
    pose proof (re_quoted_refuses q Hw') as Hm.
    unfold is_quote in Hq. apply orb_true_iff in Hq as [Hq | Hq];
      apply N.eqb_eq in Hq; subst q; rewrite Hm;
      rewrite re_quoted_other by discriminate; reflexivity.
Qed.

(** The theorem at a text with a quote inside and white space around. *)
Lemma trim_quoted_witness :
  trim (js "  'it's' ") = js "it's".
Proof.
  assert (Hq : is_quote (ch "'") = true) by reflexivity.
  assert (H1 : Forall (fun c => is_js_space c = true) (js "  "))
    by (repeat constructor).
  assert (H2 : Forall (fun c => is_js_space c = true) (js " "))
    by (repeat constructor).
  exact (@trim_quoted (ch "'") (js "  ") (js "it's") (js " ") Hq H1 H2).
Defined.

(* ===================================================================== *)
(** ** [isRQLQuery]: a word character before an opening paren *)
(* ===================================================================== *)

(** [isRQLQuery] holds of the strings in which an opening paren follows a
    word character, wherever that is, and of no other. *)
Theorem isRQLQuery_iff (s : jstring) :
  isRQLQuery s = true
  <-> exists a c b, s = a ++ c :: ch "(" :: b /\ is_word c = true.
Proof.
  unfold isRQLQuery. rewrite test_true. split.
  - intros [m Hm].
    apply search_sound in Hm as (skipped & text & rest' & -> & Hl & _).
    unfold re_call, RPlus in Hl. cbn [lang] in Hl.
    destruct Hl as (t1 & t2 & -> & (t3 & t4 & -> & (c & -> & Hc) & Hstar) & ->).
    apply star_of_class in Hstar.
    destruct (@exists_last _ (c :: t4)) as (l & x & Hlast); [discriminate |].
    assert (Hword : Forall (fun c => is_word c = true) (l ++ [x])).
    { rewrite <- Hlast. constructor; assumption. }
    apply Forall_app in Hword as [_ Hx]. inversion Hx as [| ? ? Hx' _]; subst.
    exists (skipped ++ l), x, rest'. split; [| exact Hx'].
    change ([c] ++ t4) with (c :: t4). rewrite Hlast, <- !app_assoc.
    reflexivity.
  - intros (a & c & b & -> & Hc).
    apply (@search_finds re_call a 0 (c :: ch "(" :: b)
             {| m_index := length a; m_end := S (S (length a));
                m_groups := [] |}).
    unfold re_call, RPlus.
    rewrite !rmatch_RSeq, rmatch_RClass, Hc, star_class_cons.
    replace (is_word (ch "(")) with false by reflexivity.
    rewrite rmatch_RChar. reflexivity.
Qed.

(* ===================================================================== *)
(** ** [stringToValue]: a tag of two characters or more *)
(* ===================================================================== *)

Lemma indexOf_from_char (p : N) (a b : jstring) :
  forall i,
    Forall (fun c => c <> p) a ->
    indexOf_from [p] (a ++ p :: b) i = Some (i + length a).
Proof.
  induction a as [| c a IH]; intros i Ha; cbn [app length].
  - rewrite Nat.add_0_r. cbn [indexOf_from starts_with].
    rewrite N.eqb_refl. reflexivity.
  - inversion Ha as [| ? ? Hc Ha']; subst.
    cbn [indexOf_from starts_with].
    destruct (N.eqb_spec p c) as [-> | _]; [contradiction |].
    cbn [andb]. rewrite IH by assumption. f_equal. lia.
Qed.

Lemma indexOf_from_absent (p : N) (s : jstring) :
  forall i, ~ In p s -> indexOf_from [p] s i = None.
Proof.
  induction s as [| c s IH]; intros i Hs; [reflexivity |].
  cbn [indexOf_from starts_with].
  destruct (N.eqb_spec p c) as [-> | _]; [destruct Hs; left; reflexivity |].
  cbn [andb]. apply IH. intros H. apply Hs. right. exact H.
Qed.

Lemma substring_prefix (a b : jstring) :
  substring (a ++ b) 0 (Z.of_nat (length a)) = a.
Proof.
  unfold substring, clamp. rewrite length_app.
  replace (Z.to_nat (Z.min (Z.max 0 0) (Z.of_nat (length a + length b))))
    with 0 by lia.
  replace (Z.to_nat (Z.min (Z.max (Z.of_nat (length a)) 0)
                           (Z.of_nat (length a + length b))))
    with (length a) by lia.
  rewrite Nat.min_l, Nat.max_r by lia. cbn [skipn].
  rewrite Nat.sub_0_r, firstn_app, Nat.sub_diag, firstn_all, firstn_O, app_nil_r.
  reflexivity.
Qed.

Lemma substring_from_suffix (a b : jstring) :
  substring_from (a ++ b) (Z.of_nat (length a)) = b.
Proof.
  unfold substring_from, substring, clamp. rewrite length_app.
  replace (Z.to_nat (Z.min (Z.max (Z.of_nat (length a)) 0)
                           (Z.of_nat (length a + length b))))
    with (length a) by lia.
  replace (Z.to_nat (Z.min (Z.max (Z.of_nat (length a + length b)) 0)
                           (Z.of_nat (length a + length b))))
    with (length a + length b) by lia.
  rewrite Nat.min_l, Nat.max_r by lia.
  rewrite skipn_app, skipn_all, Nat.sub_diag. cbn [skipn app].
  replace (length a + length b - length a) with (length b) by lia.
  apply firstn_all.
Qed.

Lemma word_not_colon (w : jstring) :
  Forall (fun c => is_word c = true) w -> Forall (fun c => c <> ch ":") w.
Proof.
  intros Hw. eapply Forall_impl; [| exact Hw].
  intros c Hc ->. discriminate Hc.
Qed.

(** A word of two characters or more before a colon passes
    [/^\w+[^\\]:/]. *)
Lemma re_converter_matches (w v : jstring) :
  2 <= length w ->
  Forall (fun c => is_word c = true) w ->
  test re_converter (w ++ ch ":" :: v) = true.
Proof.
  intros Hlen Hw. unfold re_converter. rewrite test_anchored.
  destruct w as [| c w]; [cbn [length] in Hlen; lia |].
  destruct (@exists_last _ w) as (l & x & ->);
    [intros ->; cbn [length] in Hlen; lia |].
  inversion Hw as [| ? ? Hc Hw']; subst.
  apply Forall_app in Hw' as [Hl Hx]. inversion Hx as [| ? ? Hx' _]; subst.
  unfold RPlus. cbn [app]. rewrite !rmatch_RSeq, rmatch_RClass, Hc.
  rewrite <- app_assoc. cbn [app].
  destruct (@star_class_some rmatched is_word l 1 (x :: ch ":" :: v) []
              (fun pos' rest' caps' =>
                 rmatch (RSeq (RClass (fun c => negb (N.eqb c (ch "\"))))
                              (RChar (ch ":"))) pos' rest' caps' (found 0))
              {| m_index := 0; m_end := S (S (1 + length l));
                 m_groups := [] |} Hl)
    as [m Hm].
  - rewrite rmatch_RSeq, rmatch_RClass.
    destruct (N.eqb_spec x (ch "\")) as [-> | _]; [discriminate Hx' |].
    cbn [negb]. rewrite rmatch_RChar. reflexivity.
  - rewrite Hm. reflexivity.
Qed.

Lemma stringToValue_tag (B : Builtins) (w v : jstring) :
  2 <= length w ->
  Forall (fun c => is_word c = true) w ->
  stringToValue B (w ++ js ":" ++ v)
  = match converters_get (toLowerCase B w) with
    | Some converter => convert B converter (replace_first v (js "\:") (js ":"))
    | None => Err (RQLParseError (jsq "Unknown converter: `" ++ toLowerCase B w))
    end.
Proof.
  intros Hlen Hw. unfold stringToValue.
  change (w ++ js ":" ++ v) with (w ++ ch ":" :: v).
  rewrite re_converter_matches by assumption.
  unfold indexOf.
  change (js ":") with [ch ":"].
  rewrite indexOf_from_char by (apply word_not_colon; assumption).
  cbn [Nat.add]. rewrite substring_prefix.
  replace (Z.of_nat (length w) + 1)%Z with (Z.of_nat (length (w ++ [ch ":"])))
    by (rewrite length_app; cbn [length]; lia).
  change (w ++ ch ":" :: v) with (w ++ [ch ":"] ++ v).
  rewrite app_assoc, substring_from_suffix.
  destruct (converters_get (toLowerCase B w)); reflexivity.
Qed.

(** A word of two characters or more before the first colon is the tag of a
    converter, looked up in lower case; what follows the colon is
    converted, after the first escaped colon of it has lost its backslash.
    A tag that names no converter is a parse error. *)
Theorem stringToValue_tagged (B : Builtins) (w v : jstring) :
  2 <= length w ->
  Forall (fun c => is_word c = true) w ->
  stringToValue B (w ++ js ":" ++ v)
  = match converters_get (toLowerCase B w) with
    | Some converter => convert B converter (replace_first v (js "\:") (js ":"))
    | None => Err (RQLParseError (jsq "Unknown converter: `" ++ toLowerCase B w))
    end.
Proof. apply stringToValue_tag. Qed.

(** The theorem at the tags [string], in capitals, and [nope]. *)
Lemma stringToValue_tagged_witness :
  stringToValue no_runtime (js "STRING:3%20") = Ok (VStr (js "3 "))
  /\ stringToValue no_runtime (js "nope:3")
     = Err (RQLParseError (jsq "Unknown converter: `nope")).
Proof.
  assert (H1 : 2 <= length (js "STRING")) by (vm_compute; lia).
  assert (H2 : Forall (fun c => is_word c = true) (js "STRING"))
    by (repeat constructor).
  assert (H3 : 2 <= length (js "nope")) by (vm_compute; lia).
  assert (H4 : Forall (fun c => is_word c = true) (js "nope"))
    by (repeat constructor).
  split.
  - exact (stringToValue_tagged no_runtime (js "3%20") H1 H2).
  - exact (stringToValue_tagged no_runtime (js "3") H3 H4).
Defined.

(* ===================================================================== *)
(** ** [normalizeSyntax] on a query in prefix form *)
(* ===================================================================== *)

Lemma lang_RLit (pat : jstring) :
  forall text, lang (RLit pat) text -> text = pat.
Proof.
  induction pat as [| c pat IH]; intros text H; [exact H |].
  destruct pat as [| d pat']; [exact H |].
  change (exists t1 t2, text = t1 ++ t2 /\ t1 = [c]
                        /\ lang (RLit (d :: pat')) t2) in H.
  destruct H as (t1 & t2 & -> & -> & H2). apply IH in H2. subst t2.
  reflexivity.
Qed.

(** A search finds nothing in a string that holds no text of the
    language. *)
Lemma search_none (r : regex) (s : jstring) (pos : nat) :
  (forall skipped text rest', s = skipped ++ text ++ rest' -> ~ lang r text) ->
  search r pos s = None.
Proof.
  intros Hnone. destruct (search r pos s) as [m |] eqn:Hs; [| reflexivity].
  apply search_sound in Hs as (skipped & text & rest' & Hsplit & Hl & _).
  destruct (Hnone _ _ _ Hsplit Hl).
Qed.

Lemma replace_all_unmatched (r : regex)
      (f : jstring -> captures -> result jstring) (s : jstring) :
  search r 0 s = None -> replace_all r f s = Ok s.
Proof. intros Hs. unfold replace_all. cbn [replace_loop]. rewrite Hs. reflexivity. Qed.

Lemma starts_with_app (pat b : jstring) : starts_with pat (pat ++ b) = true.
Proof.
  induction pat as [| c pat IH]; [reflexivity |].
  cbn [app starts_with]. rewrite N.eqb_refl. exact IH.
Qed.

Lemma indexOf_from_found (pat a b : jstring) :
  forall i, indexOf_from pat (a ++ pat ++ b) i <> None.
Proof.
  induction a as [| c a IH]; intros i.
  - cbn [app]. destruct (pat ++ b) as [| x l] eqn:E;
      cbn [indexOf_from]; rewrite <- E, starts_with_app; discriminate.
  - cbn [app indexOf_from].
    destruct (starts_with pat (c :: a ++ pat ++ b)); [discriminate | apply IH].
Qed.

Lemma indexOf_occurrence (pat a b : jstring) :
  indexOf (a ++ pat ++ b) pat <> (-1)%Z.
Proof.
  unfold indexOf. pose proof (indexOf_from_found pat a b 0) as H.
  destruct (indexOf_from pat (a ++ pat ++ b) 0); [lia | contradiction].
Qed.

(** Every text that the infix expression matches holds a comparison
    character. *)
Lemma infix_has_comparison (text : jstring) :
  lang re_infix text -> exists c, In c text /\ one_of "=<>" c = true.
Proof.
  unfold re_infix. cbn [lang re_operand].
  intros (t1 & t23 & -> & _ & t2 & t3 & -> & Hop & _).
  assert (Hc : exists c, In c t2 /\ one_of "=<>" c = true).
  { unfold re_operator, ROpt in Hop. cbn [lang] in Hop.
    destruct Hop as [(a & b & -> & _ & c & d & -> & -> & _) | [-> | ->]].
    - exists (ch "="). split; [| reflexivity].
      apply in_or_app. right. left. reflexivity.
    - exists (ch ">"). split; [left |]; reflexivity.
    - exists (ch "<"). split; [left |]; reflexivity. }
  destruct Hc as (c & Hin & Hc). exists c. split; [| exact Hc].
  apply in_or_app. right. apply in_or_app. left. exact Hin.
Qed.

Lemma normalizeSyntax_unchanged (query : jstring) :
  Forall (fun c => one_of "=<>" c = false) query ->
  indexOf query (js "%3C") = (-1)%Z ->
  indexOf query (js "%3E") = (-1)%Z ->
  normalizeSyntax query = Ok query.
Proof.
  intros Hq Hlt Hgt.
  assert (Hno : forall c a b, one_of "=<>" c = true -> query <> a ++ c :: b).
  { intros c a b Hc ->. apply Forall_app in Hq as [_ Hq].
    inversion Hq as [| ? ? Hc' _]; subst. congruence. }
  unfold normalizeSyntax, replace_literal.
  rewrite replace_all_unmatched; cbn [bind].
  2:{ apply search_none. intros skipped text rest' -> Hl.
      apply lang_RLit in Hl. subst text.
      apply (Hno (ch "=") (skipped ++ js "%3C") rest'); [reflexivity |].
      rewrite <- app_assoc. reflexivity. }
  rewrite replace_all_unmatched; cbn [bind].
  2:{ apply search_none. intros skipped text rest' -> Hl.
      apply lang_RLit in Hl. subst text.
      apply (Hno (ch "=") (skipped ++ js "%3E") rest'); [reflexivity |].
      rewrite <- app_assoc. reflexivity. }
  rewrite replace_all_unmatched; cbn [bind].
  2:{ apply search_none. intros skipped text rest' -> Hl.
      apply lang_RLit in Hl. subst text.
      exact (indexOf_occurrence _ _ _ Hlt). }
  rewrite replace_all_unmatched; cbn [bind].
  2:{ apply search_none. intros skipped text rest' -> Hl.
      apply lang_RLit in Hl. subst text.
      exact (indexOf_occurrence _ _ _ Hgt). }
  apply replace_all_unmatched.
  apply search_none. intros skipped text rest' -> Hl.
  apply infix_has_comparison in Hl as (c & Hin & Hc).
  apply in_split in Hin as (a & b & ->).
  apply (Hno c (skipped ++ a) (b ++ rest') Hc).
  rewrite <- !app_assoc. reflexivity.
Qed.

(** [normalizeSyntax] has nothing to rewrite in a query in prefix form: a
    query without [=], [<] and [>], and without the escapes [%3C] and [%3E]
    of the last two, comes back as it is. *)
Theorem normalizeSyntax_prefix_form (query : jstring) :
  Forall (fun c => one_of "=<>" c = false) query ->
  indexOf query (js "%3C") = (-1)%Z ->
  indexOf query (js "%3E") = (-1)%Z ->
  normalizeSyntax query = Ok query.
Proof. apply normalizeSyntax_unchanged. Qed.

(** The theorem at a query with a percent escape. *)
Lemma normalizeSyntax_prefix_form_witness :
  normalizeSyntax (js "and(eq(a,b%20c),lt(d,3))")
  = Ok (js "and(eq(a,b%20c),lt(d,3))").
Proof.
  assert (Hq : Forall (fun c => one_of "=<>" c = false)
                 (js "and(eq(a,b%20c),lt(d,3))"))
    by (repeat constructor).
  assert (Hlt : indexOf (js "and(eq(a,b%20c),lt(d,3))") (js "%3C") = (-1)%Z)
    by reflexivity.
  assert (Hgt : indexOf (js "and(eq(a,b%20c),lt(d,3))") (js "%3E") = (-1)%Z)
    by reflexivity.
  exact (normalizeSyntax_prefix_form Hq Hlt Hgt).
Defined.

(** [parse] of a query in prefix form is [walkQuery] of the query itself,
    when the query is not empty and does not begin with [?]. *)
Theorem parse_prefix_form (B : Builtins) (c : N) (rest : jstring) :
  c <> ch "?" ->
  Forall (fun c => one_of "=<>" c = false) (c :: rest) ->
  indexOf (c :: rest) (js "%3C") = (-1)%Z ->
  indexOf (c :: rest) (js "%3E") = (-1)%Z ->
  parse B (c :: rest) = walkQuery B (c :: rest).
Proof.
  intros Hc Hq Hlt Hgt. unfold parse.
  rewrite normalizeSyntax_unchanged by assumption.
  cbn [is_empty charAt nth_error Z.to_nat Z.ltb Z.compare str_eqb js
       list_ascii_of_string map bind].
  destruct (N.eqb_spec c (N_of_ascii "?")) as [-> | _]; [| reflexivity].
  destruct Hc. reflexivity.
Qed.

(** The theorem at a query of one operator. *)
Lemma parse_prefix_form_witness :
  parse no_runtime (js "eq(a,b%20c)") = walkQuery no_runtime (js "eq(a,b%20c)").
Proof.
  assert (Hc : ch "e" <> ch "?") by discriminate.
  assert (Hq : Forall (fun c => one_of "=<>" c = false) (js "eq(a,b%20c)"))
    by (repeat constructor).
  assert (Hlt : indexOf (js "eq(a,b%20c)") (js "%3C") = (-1)%Z) by reflexivity.
  assert (Hgt : indexOf (js "eq(a,b%20c)") (js "%3E") = (-1)%Z) by reflexivity.
  exact (@parse_prefix_form no_runtime (ch "e") (js "q(a,b%20c)") Hc Hq Hlt Hgt).
Defined.

(* ===================================================================== *)
(** ** [normalizeSyntax] on a comparison in infix form *)
(* ===================================================================== *)

Section MatcherCases.
Variable A : Type.
Lemma rmatch_RClass_in (p : N -> bool) (c : N) pos rest caps (k : cont A) :
  p c = true -> rmatch (RClass p) pos (c :: rest) caps k = k (S pos) rest caps.
Proof. intros H. cbn [rmatch]. rewrite H. reflexivity. Qed.

Lemma rmatch_RClass_out (p : N -> bool) (c : N) pos rest caps (k : cont A) :
  p c = false -> rmatch (RClass p) pos (c :: rest) caps k = None.
Proof. intros H. cbn [rmatch]. rewrite H. reflexivity. Qed.

Lemma rmatch_nil_char (c : N) pos caps (k : cont A) :
  rmatch (RChar c) pos [] caps k = None.
Proof. reflexivity. Qed.

Lemma star_class_stop (p : N -> bool) pos c rest caps (k : cont A) :
  p c = false ->
  rmatch (RStar (RClass p)) pos (c :: rest) caps k = k pos (c :: rest) caps.
Proof. intros H. rewrite star_class_cons, H. reflexivity. Qed.
End MatcherCases.

(** The matcher on an expression and a text that begins with known
    characters. *)
Ltac rx :=
  repeat first
    [ rewrite rmatch_RSeq | rewrite rmatch_RAlt | rewrite rmatch_RGroup
    | rewrite rmatch_REmpty | rewrite rmatch_RChar
    | rewrite rmatch_RChar_other by discriminate
    | rewrite rmatch_RClass_in by reflexivity
    | rewrite rmatch_RClass_out by reflexivity
    | rewrite rmatch_nil_char
    | rewrite star_class_stop by reflexivity
    | progress cbv beta ].


Lemma rchar_word_none (c : N) (v : jstring) pos caps (k : cont rmatched) :
  is_word c = false ->
  Forall (fun x => is_word x = true) v ->
  rmatch (RChar c) pos v caps k = None.
Proof.
  intros Hc Hv. destruct v as [| x v]; [reflexivity |].
  inversion Hv as [| ? ? Hx _]; subst.
  apply rmatch_RChar_other. intros ->. congruence.
Qed.

(** A run of word characters, then a character that is not of a word: no
    match in a text of word characters. *)
Lemma word_star_char_none (c : N) (v : jstring) pos caps (k : cont rmatched) :
  is_word c = false ->
  Forall (fun x => is_word x = true) v ->
  rmatch (RStar (RClass is_word)) pos v caps
    (fun pos' rest' caps' => rmatch (RChar c) pos' rest' caps' k) = None.
Proof.
  intros Hc Hv. apply star_class_none. intros a b -> _.
  apply Forall_app in Hv as [_ Hb].
  apply rchar_word_none; assumption.
Qed.

Lemma firstn_here (pos : nat) (w tail : jstring) :
  firstn (pos + length w - pos) (w ++ tail) = w.
Proof.
  replace (pos + length w - pos) with (length w) by lia.
  rewrite firstn_app, Nat.sub_diag, firstn_all, firstn_O, app_nil_r.
  reflexivity.
Qed.

Lemma word_class_bare (w : jstring) :
  Forall (fun c => is_word c = true) w ->
  Forall (fun c => class_bare c = true) w.
Proof.
  intros Hw. eapply Forall_impl; [| exact Hw].
  intros c Hc. unfold class_bare. rewrite Hc. apply orb_true_r.
Qed.

(** An operand of word characters is taken whole by the bare alternative
    of the operand group. *)
Lemma operand_matches (i : nat) (w tail : jstring) pos caps
      (k : cont rmatched) a :
  Forall (fun c => is_word c = true) w ->
  match tail with
  | c :: _ => class_bare c = false /\ c <> ch "("
  | [] => True
  end ->
  k (pos + length w) tail ((i, w) :: caps) = Some a ->
  rmatch (re_operand i) pos (w ++ tail) caps k = Some a.
Proof.
  intros Hw Htail Hk. unfold re_operand.
  rewrite rmatch_RGroup, rmatch_RAlt, rmatch_RSeq.
  assert (Hparen : forall k' : cont rmatched,
             rmatch (RChar (ch "(")) pos (w ++ tail) caps k' = None).
  { intros k'. destruct w as [| c w].
    - destruct tail as [| c tail]; [reflexivity |].
      apply rmatch_RChar_other. apply Htail.
    - inversion Hw as [| ? ? Hc _]; subst.
      apply rmatch_RChar_other. intros ->. discriminate Hc. }
  rewrite Hparen, rmatch_RAlt.
  rewrite (@star_class_greedy rmatched class_bare w pos tail caps _ a).
  - reflexivity.
  - apply word_class_bare. exact Hw.
  - destruct tail; [exact I | apply Htail].
  - cbv beta. rewrite firstn_here. exact Hk.
Qed.

Lemma operatorMap_cases (op name : jstring) :
  operatorMap op = Some name ->
  op = js "!=" \/ op = js "<" \/ op = js "<=" \/ op = js "="
  \/ op = js "==" \/ op = js ">" \/ op = js ">=".
Proof.
  unfold operatorMap.
  repeat match goal with
         | |- context [str_eqb op ?x] =>
             destruct (str_eqb op x) eqn:?E;
             [apply str_eqb_eq in E; subst op; tauto | clear E]
         end.
  discriminate.
Qed.

(** Each operator of the table, before a text of word characters, is the
    text that the operator group takes. *)
Lemma operator_matches (op name v : jstring) pos caps (k : cont rmatched) a :
  operatorMap op = Some name ->
  Forall (fun c => is_word c = true) v ->
  k (pos + length op) v ((2, op) :: caps) = Some a ->
  rmatch re_operator pos (op ++ v) caps k = Some a.
Proof.
  intros Hop Hv Hk. unfold re_operator, ROpt.
  apply operatorMap_cases in Hop.
  assert (Hnone := fun c pos caps k (Hc : is_word c = false) =>
                     @rchar_word_none c v pos caps k Hc Hv).
  assert (Hstar := fun c pos caps k (Hc : is_word c = false) =>
                     @word_star_char_none c v pos caps k Hc Hv).
  destruct Hop as [-> | [-> | [-> | [-> | [-> | [-> | ->]]]]]];
    cbn [js list_ascii_of_string map app length] in *;
    rx; rewrite ?Hstar by reflexivity; rewrite ?Hnone by reflexivity; rx;
    replace (S (S pos) - pos) with 2 by lia;
    replace (S pos - pos) with 1 by lia;
    cbn [firstn]; rewrite Nat.add_comm in Hk; cbn [Nat.add] in Hk;
    match goal with
    | |- context [k ?p ?r ?c] =>
        replace (k p r c) with (Some a) by (symmetry; exact Hk)
    end; reflexivity.
Qed.

(** An operator written between two [=], before a text of word
    characters. *)
Lemma named_operator_matches (w v : jstring) pos caps (k : cont rmatched) a :
  Forall (fun c => is_word c = true) w ->
  k (pos + length (js "=" ++ w ++ js "=")) v
    ((2, js "=" ++ w ++ js "=") :: caps) = Some a ->
  rmatch re_operator pos ((js "=" ++ w ++ js "=") ++ v) caps k = Some a.
Proof.
  intros Hw Hk. unfold re_operator, ROpt.
  change ((js "=" ++ w ++ js "=") ++ v) with (ch "=" :: (w ++ js "=") ++ v).
  rewrite <- app_assoc.
  rx.
  rewrite (@star_class_greedy rmatched is_word w (S pos) (js "=" ++ v) caps _ a);
    [reflexivity | exact Hw | reflexivity |].
  change (js "=" ++ v) with (ch "=" :: v). rx.
  rewrite <- Hk. f_equal.
  - rewrite !length_app. cbn [js list_ascii_of_string map length]. lia.
  - f_equal. f_equal.
    replace (S (S pos + length w) - pos) with (length (js "=" ++ w ++ js "="))
      by (rewrite !length_app; cbn [js list_ascii_of_string map length]; lia).
    replace (ch "=" :: w ++ ch "=" :: v) with ((js "=" ++ w ++ js "=") ++ v)
      by (change (js "=") with [ch "="]; cbn [app]; rewrite <- app_assoc;
          reflexivity).
    rewrite firstn_app, Nat.sub_diag, firstn_all, firstn_O, app_nil_r.
    reflexivity.
Qed.

Lemma operand_matches_end (i : nat) (w : jstring) pos caps
      (k : cont rmatched) a :
  Forall (fun c => is_word c = true) w ->
  k (pos + length w) [] ((i, w) :: caps) = Some a ->
  rmatch (re_operand i) pos w caps k = Some a.
Proof.
  intros Hw Hk.
  pose proof (@operand_matches i w [] pos caps k a Hw I Hk) as H.
  rewrite app_nil_r in H. exact H.
Qed.

(** The infix expression takes [property operator value] whole, when the
    operator group takes the operator. *)
Lemma infix_matches (p op v : jstring) :
  Forall (fun c => is_word c = true) p ->
  Forall (fun c => is_word c = true) v ->
  match op with
  | c :: _ => class_bare c = false /\ c <> ch "("
  | [] => False
  end ->
  (forall pos caps (k : cont rmatched) a,
      k (pos + length op) v ((2, op) :: caps) = Some a ->
      rmatch re_operator pos (op ++ v) caps k = Some a) ->
  rmatch re_infix 0 (p ++ op ++ v) [] (found 0)
  = Some {| m_index := 0; m_end := length (p ++ op ++ v);
            m_groups := [(3, v); (2, op); (1, p)] |}.
Proof.
  intros Hp Hv Hop Htakes. unfold re_infix. rewrite rmatch_RSeq.
  apply operand_matches; [exact Hp | |].
  { destruct op as [| c op]; [destruct Hop | exact Hop]. }
  rewrite rmatch_RSeq. apply Htakes.
  apply operand_matches_end; [exact Hv |].
  unfold found. rewrite !length_app. do 2 f_equal. lia.
Qed.

(** A match of the whole string is replaced by what the callback
    returns. *)
Lemma replace_whole (s rep : jstring) (groups : captures) :
  s <> [] ->
  rmatch re_infix 0 s [] (found 0)
  = Some {| m_index := 0; m_end := length s; m_groups := groups |} ->
  infix_to_prefix s groups = Ok rep ->
  replace_all re_infix infix_to_prefix s = Ok rep.
Proof.
  intros Hs Hm Hrep. unfold replace_all. cbn [replace_loop].
  rewrite search_unfold, Hm. cbn [m_index m_end m_groups].
  rewrite !Nat.sub_0_r. cbn [skipn firstn app]. rewrite firstn_all, Hrep.
  cbn [bind]. rewrite skipn_all.
  destruct s as [| c s]; [contradiction |].
  cbn [length Nat.ltb Nat.leb replace_loop].
  replace (search re_infix (S (length s)) []) with (@None rmatched)
    by reflexivity.
  cbn [bind]. rewrite app_nil_r. reflexivity.
Qed.

Lemma replace_literal_absent (pat rep : string) (c : N) (s : jstring) :
  In c (js pat) -> ~ In c s -> replace_literal pat rep s = Ok s.
Proof.
  intros Hc Hs. unfold replace_literal. apply replace_all_unmatched.
  apply search_none. intros skipped text rest' -> Hl.
  apply lang_RLit in Hl. subst text. apply Hs.
  apply in_or_app. right. apply in_or_app. left. exact Hc.
Qed.

(** Without a percent sign the four replacements of escapes change
    nothing. *)
Lemma escapes_absent (s : jstring) (k : jstring -> result jstring) :
  ~ In (ch "%") s ->
  (q1 <- replace_literal "%3C=" "=le=" s ;;
   q2 <- replace_literal "%3E=" "=ge=" q1 ;;
   q3 <- replace_literal "%3C" "=lt=" q2 ;;
   q4 <- replace_literal "%3E" "=gt=" q3 ;;
   k q4) = k s.
Proof.
  intros Hs.
  rewrite (@replace_literal_absent "%3C=" "=le=" (ch "%") s)
    by (assumption || (left; reflexivity)).
  cbn [bind].
  rewrite (@replace_literal_absent "%3E=" "=ge=" (ch "%") s)
    by (assumption || (left; reflexivity)).
  cbn [bind].
  rewrite (@replace_literal_absent "%3C" "=lt=" (ch "%") s)
    by (assumption || (left; reflexivity)).
  cbn [bind].
  rewrite (@replace_literal_absent "%3E" "=gt=" (ch "%") s)
    by (assumption || (left; reflexivity)).
  reflexivity.
Qed.

Lemma word_no_percent (w : jstring) :
  Forall (fun c => is_word c = true) w -> ~ In (ch "%") w.
Proof.
  intros Hw Hin. rewrite Forall_forall in Hw. specialize (Hw _ Hin).
  discriminate Hw.
Qed.

Lemma normalizeSyntax_infix (p op v rep : jstring) :
  Forall (fun c => is_word c = true) p ->
  Forall (fun c => is_word c = true) v ->
  ~ In (ch "%") op ->
  match op with
  | c :: _ => class_bare c = false /\ c <> ch "("
  | [] => False
  end ->
  (forall pos caps (k : cont rmatched) a,
      k (pos + length op) v ((2, op) :: caps) = Some a ->
      rmatch re_operator pos (op ++ v) caps k = Some a) ->
  infix_to_prefix (p ++ op ++ v) [(3, v); (2, op); (1, p)] = Ok rep ->
  normalizeSyntax (p ++ op ++ v) = Ok rep.
Proof.
  intros Hp Hv Hpercent Hop Htakes Hrep. unfold normalizeSyntax.
  rewrite escapes_absent.
  - apply replace_whole with (groups := [(3, v); (2, op); (1, p)]).
    + destruct op as [| c op]; [destruct Hop |].
      destruct p; discriminate.
    + apply infix_matches; assumption.
    + exact Hrep.
  - intros Hin. apply in_app_or in Hin as [Hin | Hin];
      [exact (word_no_percent Hp Hin) |].
    apply in_app_or in Hin as [Hin | Hin];
      [exact (Hpercent Hin) | exact (word_no_percent Hv Hin)].
Qed.

(** [normalizeSyntax] turns a comparison written between a property and a
    value of word characters into the call of the operator that the table
    names: [p op v] becomes [name(p,v)], for each of the seven operators of
    the table. *)
Theorem normalizeSyntax_comparison (p op name v : jstring) :
  Forall (fun c => is_word c = true) p ->
  Forall (fun c => is_word c = true) v ->
  operatorMap op = Some name ->
  normalizeSyntax (p ++ op ++ v)
  = Ok (name ++ js "(" ++ p ++ js "," ++ v ++ js ")").
Proof.
  intros Hp Hv Hop.
  apply normalizeSyntax_infix; try assumption.
  - destruct (operatorMap_cases _ Hop)
      as [-> | [-> | [-> | [-> | [-> | [-> | ->]]]]]];
      cbn; intuition discriminate.
  - destruct (operatorMap_cases _ Hop)
      as [-> | [-> | [-> | [-> | [-> | [-> | ->]]]]]];
      split; (reflexivity || discriminate).
  - intros pos caps k a. apply operator_matches with (name := name); assumption.
  - destruct (operatorMap_cases _ Hop)
      as [-> | [-> | [-> | [-> | [-> | [-> | ->]]]]]];
      vm_compute in Hop; injection Hop as <-; reflexivity.
Qed.

(** The theorem at [a>=3]. *)
Lemma normalizeSyntax_comparison_witness :
  normalizeSyntax (js "a>=3") = Ok (js "ge(a,3)").
Proof.
  assert (Hp : Forall (fun c => is_word c = true) (js "a"))
    by (repeat constructor).
  assert (Hv : Forall (fun c => is_word c = true) (js "3"))
    by (repeat constructor).
  assert (Hop : operatorMap (js ">=") = Some (js "ge")) by reflexivity.
  exact (@normalizeSyntax_comparison (js "a") (js ">=") (js "ge") (js "3")
           Hp Hv Hop).
Defined.

Lemma substring_inner (c d : N) (w : jstring) :
  substring (c :: w ++ [d]) 1 (Z.of_nat (length (c :: w ++ [d])) - 1) = w.
Proof.
  unfold substring, clamp. cbn [length]. rewrite length_app. cbn [length].
  replace (Z.to_nat (Z.min (Z.max 1 0) (Z.of_nat (S (length w + 1)))))
    with 1 by lia.
  replace (Z.to_nat (Z.min (Z.max (Z.of_nat (S (length w + 1)) - 1)%Z 0)
                           (Z.of_nat (S (length w + 1)))))
    with (S (length w)) by lia.
  rewrite Nat.min_l, Nat.max_r by lia. cbn [skipn].
  replace (S (length w) - 1) with (length w) by lia.
  rewrite firstn_app, Nat.sub_diag, firstn_all, firstn_O, app_nil_r.
  reflexivity.
Qed.

(** An operator of word characters written between two [=] is taken as it
    is, whether the table knows it or not: [p=name=v] becomes
    [name(p,v)]. *)
Theorem normalizeSyntax_named_operator (p name v : jstring) :
  Forall (fun c => is_word c = true) p ->
  Forall (fun c => is_word c = true) v ->
  Forall (fun c => is_word c = true) name ->
  name <> [] ->
  normalizeSyntax (p ++ (js "=" ++ name ++ js "=") ++ v)
  = Ok (name ++ js "(" ++ p ++ js "," ++ v ++ js ")").
Proof.
  intros Hp Hv Hname Hne.
  apply normalizeSyntax_infix; try assumption.
  - change (js "=") with [ch "="]. cbn [app In].
    intros [Hin | Hin]; [discriminate Hin |].
    apply in_app_or in Hin. cbn [In] in Hin.
    destruct Hin as [Hin | [Hin | []]];
      [exact (word_no_percent Hname Hin) | discriminate Hin].
  - split; (reflexivity || discriminate).
  - intros pos caps k a. apply named_operator_matches. exact Hname.
  - unfold infix_to_prefix. cbn [capture Nat.eqb].
    change (js "=" ++ name ++ js "=") with (ch "=" :: name ++ [ch "="]).
    rewrite substring_inner.
    destruct name as [| c name]; [contradiction |].
    cbn [length app]. rewrite length_app. cbn [length].
    replace (S (S (length name + 1)) <? 3) with false
      by (symmetry; apply Nat.ltb_ge; lia).
    reflexivity.
Qed.

(** The theorem at an operator that the table does not hold. *)
Lemma normalizeSyntax_named_operator_witness :
  normalizeSyntax (js "a=in=3") = Ok (js "in(a,3)").
Proof.
  assert (Hp : Forall (fun c => is_word c = true) (js "a"))
    by (repeat constructor).
  assert (Hv : Forall (fun c => is_word c = true) (js "3"))
    by (repeat constructor).
  assert (Hname : Forall (fun c => is_word c = true) (js "in"))
    by (repeat constructor).
  assert (Hne : js "in" <> []) by discriminate.
  exact (@normalizeSyntax_named_operator (js "a") (js "in") (js "3")
           Hp Hv Hname Hne).
Defined.

(* ===================================================================== *)
(** ** The walker: [and] before [or] *)
(* ===================================================================== *)

(** Under an [and], the first [|] closes the operator before it into the
    [and] and opens an [or] that takes the rest of the text. *)
Lemma walk_tokens_and_then_or (toks1 toks2 : list token) :
  forall cur t,
    (forall c, In (TJoin c) toks1 -> c = ch "&" \/ c = ch ",") ->
    (forall c, In (TJoin c) toks2 -> c = ch "|") ->
    str_eqb (name t) (js "and") = true ->
    walk_tokens (toks1 ++ TJoin (ch "|") :: toks2) cur (Some t)
    = {| name := name t;
         args := args t
                 ++ map VOperator (operators_from cur toks1)
                 ++ [VOp (js "or") (map VOperator (operators_of toks2))] |}.
Proof.
  induction toks1 as [| tok toks1 IH]; intros cur t H1 H2 Hname.
  - cbn [app walk_tokens operators_from map].
    change (N.eqb (ch "|") (ch "&") || N.eqb (ch "|") (ch ",")) with false.
    cbv iota. rewrite Hname.
    rewrite walk_tokens_flat_or by (assumption || reflexivity).
    unfold push, VOperator, operators_of. cbn [name args app].
    rewrite <- app_assoc. reflexivity.
  - assert (Hrest : forall c, In (TJoin c) toks1 -> c = ch "&" \/ c = ch ",")
      by (intros c Hc; apply H1; right; exact Hc).
    destruct tok as [c | parsed | c];
      cbn [app walk_tokens operators_from]; try (apply IH; assumption).
    assert (Hc : N.eqb c (ch "&") || N.eqb c (ch ",") = true).
    { destruct (H1 c (or_introl eq_refl)) as [-> | ->]; reflexivity. }
    assert (Hor : str_eqb (name t) (js "or") = false)
      by (apply str_eqb_eq in Hname; rewrite Hname; reflexivity).
    rewrite Hc, Hor.
    rewrite IH by (assumption || exact Hname).
    cbn [push name args map]. rewrite <- !app_assoc. reflexivity.
Qed.

Lemma walk_tokens_first_and_then_or (toks1 toks2 : list token) :
  forall cur,
    (exists c, In (TJoin c) toks1) ->
    (forall c, In (TJoin c) toks1 -> c = ch "&" \/ c = ch ",") ->
    (forall c, In (TJoin c) toks2 -> c = ch "|") ->
    walk_tokens (toks1 ++ TJoin (ch "|") :: toks2) cur None
    = {| name := js "and";
         args := map VOperator (operators_from cur toks1)
                 ++ [VOp (js "or") (map VOperator (operators_of toks2))] |}.
Proof.
  induction toks1 as [| tok toks1 IH]; intros cur Hsome H1 H2.
  - destruct Hsome as [c []].
  - assert (Hrest : forall c, In (TJoin c) toks1 -> c = ch "&" \/ c = ch ",")
      by (intros c Hc; apply H1; right; exact Hc).
    destruct tok as [c | parsed | c]; cbn [app walk_tokens operators_from].
    + assert (Hc : N.eqb c (ch "&") || N.eqb c (ch ",") = true).
      { destruct (H1 c (or_introl eq_refl)) as [-> | ->]; reflexivity. }
      rewrite Hc.
      rewrite walk_tokens_and_then_or by (assumption || reflexivity).
      reflexivity.
    + apply IH; [| exact Hrest | exact H2].
      destruct Hsome as [c0 [Hc0 | Hc0]]; [discriminate Hc0 | exists c0; exact Hc0].
    + apply IH; [| exact Hrest | exact H2].
      destruct Hsome as [c0 [Hc0 | Hc0]]; [discriminate Hc0 | exists c0; exact Hc0].
Qed.

(* ===================================================================== *)
(** ** The walk of the arguments *)
(* ===================================================================== *)

Lemma mapM_ext {X Y} (f g : X -> result Y) (l : list X) :
  Forall (fun x => f x = g x) l -> mapM f l = mapM g l.
Proof.
  induction 1 as [| x l Hx _ IH]; [reflexivity |].
  cbn [mapM]. rewrite Hx, IH. reflexivity.
Qed.

Section WalkStable.
Variable B : Builtins.

(** [parseArg] depends on the walk of the strings of its argument only. *)
Lemma parseArg_ext (rec rec' : jstring -> result value) (a : arg) :
  Forall (fun s => rec s = rec' s) (strings_of a) ->
  parseArg B rec a = parseArg B rec' a.
Proof.
  induction a as [s | elems IH] using arg_induction; intros Hrec.
  - cbn [parseArg]. destruct (isRQLQuery s); [| reflexivity].
    inversion Hrec; assumption.
  - cbn [parseArg]. f_equal.
    cbn [strings_of] in Hrec.
    induction IH as [| x l Hx Hl IHl]; [reflexivity |].
    cbn [flat_map] in Hrec. apply Forall_app in Hrec as [Hrx Hrl].
    rewrite (Hx Hrx), (IHl Hrl). reflexivity.
Qed.

Lemma parseArg_args_ext (rec rec' : jstring -> result value) (n : nat)
      (split : list arg) :
  (forall s, length s <= n -> rec s = rec' s) ->
  strings_within n split ->
  mapM (parseArg B rec) split = mapM (parseArg B rec') split.
Proof.
  intros Hrec Hstrings. apply mapM_ext.
  unfold strings_within in Hstrings. rewrite Forall_forall in *.
  intros a Ha. apply parseArg_ext. rewrite Forall_forall. intros s Hs.
  apply Hrec. apply Hstrings. apply in_flat_map. exists a. auto.
Qed.

(** The loop of [walkQuery] depends on the walk of the strings shorter
    than the query only. *)
Lemma walk_loop_ext (rec rec' : jstring -> result value) (query : jstring) :
  (forall s, length s + 1 < length query -> rec s = rec' s) ->
  forall fuel index cur top,
    walk_loop B rec fuel query index cur top
    = walk_loop B rec' fuel query index cur top.
Proof.
  intros Hrec.
  induction fuel as [| fuel IH]; intros index cur top; [reflexivity |].
  cbn [walk_loop]. destruct (index <? length query) eqn:Hlt; [| reflexivity].
  destruct (N.eqb _ (ch "&") || N.eqb _ (ch ",")).
  { destruct top as [top |]; [| apply IH].
    destruct (str_eqb (name top) (js "or")); [| apply IH].
    rewrite IH. reflexivity. }
  destruct (N.eqb _ (ch "|")).
  { destruct top as [top |]; [| apply IH].
    destruct (str_eqb (name top) (js "and")); [| apply IH].
    rewrite IH. reflexivity. }
  destruct (N.eqb _ (ch "(")); [| apply IH].
  destruct (inside (slice_from query index)) as [insides | e] eqn:Hinsides;
    [| reflexivity].
  cbn [bind].
  destruct (splitArguments insides) as [split | e] eqn:Hsplit; [| reflexivity].
  cbn [bind].
  pose proof (inside_length _ Hinsides) as Hlen.
  pose proof (skipn_length_le index query) as Hskip.
  unfold slice_from in Hlen.
  rewrite (@parseArg_args_ext rec rec' (length insides) split).
  - destruct (mapM (parseArg B rec') split); [| reflexivity].
    cbn [bind]. apply IH.
  - intros s Hs. apply Hrec. lia.
  - apply splitArguments_strings. exact Hsplit.
Qed.

(** The depth given to [walkQuery] does not matter once it exceeds the
    length of the query. *)
Lemma walkQuery_fuel_stable (depth : nat) :
  forall depth' query,
    length query < depth -> length query < depth' ->
    walkQuery_fuel B depth query = walkQuery_fuel B depth' query.
Proof.
  induction depth as [| depth IH]; intros depth' query Hd Hd'; [lia |].
  destruct depth' as [| depth']; [lia |].
  cbn [walkQuery_fuel]. unfold walkQuery_at.
  apply walk_loop_ext. intros s Hs.
  rewrite (IH depth' s) by lia. reflexivity.
Qed.

(** The arguments of an operator of [query] are resolved as [parseArg]
    resolves them. *)
Lemma parseArg_of_top (query : jstring) (split : list arg) (n : nat) :
  n < length query ->
  strings_within n split ->
  mapM (parseArg_of B query) split = mapM (parseArg_top B) split.
Proof.
  intros Hn Hstrings. unfold parseArg_of, parseArg_top.
  apply parseArg_args_ext with (n := n); [| exact Hstrings].
  intros s Hs. unfold walkQuery.
  rewrite (@walkQuery_fuel_stable (length query) (S (length s)) s) by lia.
  reflexivity.
Qed.

(** One turn of the loop on a character of a name. *)
Lemma walk_loop_name_char (rec : jstring -> result value) fuel pre c tail
      cur top :
  operator_char c = true ->
  walk_loop B rec (S fuel) (pre ++ c :: tail) (length pre) cur top
  = walk_loop B rec fuel (pre ++ c :: tail) (length pre + 1)
      (name_char cur c) top.
Proof.
  intros Hc. cbn [walk_loop]. rewrite index_in_range, char_at_index.
  unfold operator_char, is_joiner in Hc.
  destruct (N.eqb c (ch "&")); [discriminate Hc |].
  destruct (N.eqb c (ch ",")); [discriminate Hc |].
  destruct (N.eqb c (ch "|")); [discriminate Hc |].
  destruct (N.eqb c (ch "(")); [discriminate Hc |].
  reflexivity.
Qed.

Lemma walk_loop_name (rec : jstring -> result value) (w : jstring) :
  forall fuel pre tail cur top,
    Forall (fun c => operator_char c = true) w ->
    walk_loop B rec (length w + fuel) (pre ++ w ++ tail) (length pre) cur top
    = walk_loop B rec fuel (pre ++ w ++ tail) (length (pre ++ w))
        {| name := name cur ++ w; args := args cur |} top.
Proof.
  induction w as [| c w IH]; intros fuel pre tail cur top Hw.
  - rewrite !app_nil_r. destruct cur; reflexivity.
  - inversion Hw as [| ? ? Hc Hw']; subst.
    cbn [length Nat.add app].
    rewrite walk_loop_name_char by assumption.
    rewrite (shift_char pre), (next_index pre c).
    rewrite IH by assumption.
    unfold name_char. cbn [name args]. rewrite <- !app_assoc. reflexivity.
Qed.
End WalkStable.

Lemma slice_from_at (pre tail : jstring) :
  slice_from (pre ++ tail) (length pre) = tail.
Proof.
  unfold slice_from. rewrite skipn_app, skipn_all, Nat.sub_diag. reflexivity.
Qed.

(** One turn of the loop on the opening paren of a group. *)
Lemma walk_loop_group (B : Builtins) (rec : jstring -> result value) fuel pre
      rest insides cur top :
  inside (ch "(" :: rest) = Ok insides ->
  walk_loop B rec (S fuel) (pre ++ ch "(" :: rest) (length pre) cur top
  = (split <- splitArguments insides ;;
     parsed <- mapM (parseArg B rec) split ;;
     walk_loop B rec fuel (pre ++ ch "(" :: rest)
       (length pre + (length insides + 1) + 1)
       {| name := name cur; args := parsed |} top).
Proof.
  intros Hinside. cbn [walk_loop].
  rewrite index_in_range, char_at_index, slice_from_at, Hinside.
  reflexivity.
Qed.

(** The loop on the call of one operator. *)
Lemma walk_loop_call (B : Builtins) (rec : jstring -> result value)
      (opname inner : jstring) :
  Forall (fun c => operator_char c = true) opname ->
  Forall (fun c => unquoted c = true) inner ->
  well_nested 0 inner = true ->
  let query := opname ++ ch "(" :: inner ++ [ch ")"] in
  walk_loop B rec (length query) query 0 empty_operator None
  = (split <- splitArguments inner ;;
     parsed <- mapM (parseArg B rec) split ;;
     Ok {| name := opname; args := parsed |}).
Proof.
  intros Hname Hinner Hnest query.
  assert (Hlen : length query = length opname + S (S (length inner))).
  { unfold query. rewrite length_app. cbn [length]. rewrite length_app.
    cbn [length]. lia. }
  assert (Hinside : inside (ch "(" :: inner ++ [ch ")"]) = Ok inner).
  { unfold inside, inside_with.
    apply (@inside_loop_well_nested inner 0 _ [ch "("] [] []);
      [assumption .. |].
    cbn [length]. rewrite length_app. cbn [length]. lia. }
  rewrite Hlen. unfold query.
  pose proof (@walk_loop_name B rec opname (S (S (length inner))) []
                (ch "(" :: inner ++ [ch ")"]) empty_operator None Hname)
    as Hrun.
  cbn [app length] in Hrun. rewrite Hrun.
  rewrite (walk_loop_group _ _ _ _ _ _ _ Hinside).
  fold query.
  destruct (splitArguments inner) as [split | e]; [| reflexivity].
  cbn [bind].
  destruct (mapM (parseArg B rec) split) as [parsed |]; [| reflexivity].
  cbn [bind].
  destruct (S (length inner)) eqn:E; cbn [walk_loop];
    replace (length opname + (length inner + 1) + 1 <? length query)
      with false by (symmetry; apply Nat.ltb_ge; lia);
    reflexivity.
Qed.

(* ===================================================================== *)
(** ** [splitArguments]: its exception, and a list of plain arguments *)
(* ===================================================================== *)

(** The loop of [splitArguments] fails as [inside] fails, or as the call on
    the inside of an array does. *)
Lemma split_loop_error (rec : jstring -> result (list arg)) (str : jstring) :
  (forall arr e, rec arr = Err e -> e = OutOfFuel \/ e = no_closing_paren) ->
  forall fuel delimiter args cur delimited quoteType index e,
    split_loop rec fuel str delimiter args cur delimited quoteType index = Err e ->
    e = OutOfFuel \/ e = no_closing_paren.
Proof.
  intros Hrec.
  induction fuel as [| fuel IH]; intros d args cur del q index e He;
    cbn [split_loop] in He; destruct (index <? length str).
  - injection He as <-. auto.
  - destruct (0 <? length (String_trim cur)); discriminate He.
  - destruct del; [eapply IH; exact He |].
    destruct (is_empty q && str_eqb [nth index str 0%N] d);
      [eapply IH; exact He |].
    destruct (is_quote (nth index str 0%N)).
    { split_ifs_in He; eapply IH; exact He. }
    destruct (negb (is_empty q)); [eapply IH; exact He |].
    destruct (length cur =? 0).
    + destruct (N.eqb (nth index str 0%N) (ch "(")).
      * destruct (inside (slice_from str index)) as [arr | e'] eqn:Harr;
          cbn [bind] in He.
        -- destruct (rec arr) as [nested | e'] eqn:Hnested; cbn [bind] in He.
           ++ eapply IH; exact He.
           ++ injection He as <-. eapply Hrec; exact Hnested.
        -- injection He as <-. eapply inside_loop_error; exact Harr.
      * split_ifs_in He; eapply IH; exact He.
    + destruct (N.eqb (nth index str 0%N) (ch ",")); [eapply IH; exact He |].
      destruct (N.eqb (nth index str 0%N) (ch "(")); [| eapply IH; exact He].
      destruct (inside (slice_from str index)) as [arr | e'] eqn:Harr;
        cbn [bind] in He.
      * eapply IH; exact He.
      * injection He as <-. eapply inside_loop_error; exact Harr.
  - destruct (0 <? length (String_trim cur)); discriminate He.
Qed.

Lemma splitArguments_fuel_error (depth : nat) :
  forall str delimiter e,
    splitArguments_fuel depth str delimiter = Err e ->
    e = OutOfFuel \/ e = no_closing_paren.
Proof.
  induction depth as [| depth IH]; intros str d e He;
    cbn [splitArguments_fuel] in He.
  - injection He as <-. auto.
  - eapply split_loop_error; [| exact He].
    intros arr e' He'. eapply IH; exact He'.
Qed.

(** [splitArguments] returns arguments none of which, at any depth of
    nesting, is longer than the input, or throws the parse error of
    [inside] for a paren that is not closed: it has no other outcome. *)
Theorem splitArguments_outcomes (str : jstring) :
  (exists out, splitArguments str = Ok out /\ strings_within (length str) out)
  \/ splitArguments str = Err no_closing_paren.
Proof.
  destruct (splitArguments str) as [out | e] eqn:Hsplit.
  - left. exists out. split; [reflexivity |].
    apply splitArguments_strings. exact Hsplit.
  - right. pose proof (splitArguments_never_out_of_fuel str) as Hfuel.
    rewrite Hsplit in Hfuel.
    apply splitArguments_fuel_error in Hsplit as [-> | ->];
      [contradiction | reflexivity].
Qed.

Section SplitPlain.
Variable rec : jstring -> result (list arg).

Lemma plain_arg_char_cases (c : N) :
  plain_arg_char c = true ->
  is_quote c = false /\ c <> ch "\" /\ c <> ch "(" /\ c <> ch ","
  /\ is_js_space c = false.
Proof.
  unfold plain_arg_char. intros H. apply negb_true_iff in H.
  repeat (apply orb_false_iff in H as [H ?]).
  repeat split; try assumption; try (apply N.eqb_neq; assumption).
  unfold is_quote. rewrite H. assumption.
Qed.

(** One turn of the loop on a plain character. *)
Lemma split_loop_plain_char fuel pre c tail args cur :
  plain_arg_char c = true ->
  split_loop rec (S fuel) (pre ++ c :: tail) default_delimiter args cur
    false [] (length pre)
  = split_loop rec fuel (pre ++ c :: tail) default_delimiter args
      (cur ++ [c]) false [] (length pre + 1).
Proof.
  intros Hc. apply plain_arg_char_cases in Hc as (Hq & Hb & Hp & Hcomma & Hs).
  cbn [split_loop]. rewrite index_in_range, char_at_index.
  unfold default_delimiter. cbn [is_empty andb str_eqb negb].
  destruct (N.eqb_spec c (ch "\")) as [-> | _]; [contradiction |].
  cbn [andb]. rewrite Hq.
  destruct (N.eqb_spec c (ch "(")) as [-> | _]; [contradiction |].
  destruct (N.eqb_spec c (ch ",")) as [-> | _]; [contradiction |].
  destruct (N.eqb_spec c (ch " ")) as [-> | _]; [discriminate Hs |].
  destruct (length cur =? 0); reflexivity.
Qed.

Lemma split_loop_plain_run (w : jstring) :
  forall fuel pre tail args cur,
    Forall (fun c => plain_arg_char c = true) w ->
    split_loop rec (length w + fuel) (pre ++ w ++ tail) default_delimiter
      args cur false [] (length pre)
    = split_loop rec fuel (pre ++ w ++ tail) default_delimiter args
        (cur ++ w) false [] (length (pre ++ w)).
Proof.
  induction w as [| c w IH]; intros fuel pre tail args cur Hw.
  - rewrite !app_nil_r. reflexivity.
  - inversion Hw as [| ? ? Hc Hw']; subst.
    cbn [length Nat.add app].
    rewrite split_loop_plain_char by assumption.
    rewrite (shift_char pre), (next_index pre c).
    rewrite IH by assumption.
    rewrite <- !app_assoc. reflexivity.
Qed.

(** One turn of the loop on a comma after an argument. *)
Lemma split_loop_comma fuel pre tail args cur :
  cur <> [] ->
  split_loop rec (S fuel) (pre ++ ch "," :: tail) default_delimiter args cur
    false [] (length pre)
  = split_loop rec fuel (pre ++ ch "," :: tail) default_delimiter
      (args ++ [AStr (trim cur)]) [] false [] (length pre + 1).
Proof.
  intros Hcur. cbn [split_loop]. rewrite index_in_range, char_at_index.
  destruct cur as [| x cur]; [contradiction |]. reflexivity.
Qed.
End SplitPlain.

Lemma String_trim_plain (w : jstring) :
  Forall (fun c => plain_arg_char c = true) w -> String_trim w = w.
Proof.
  intros Hw. destruct w as [| c w]; [reflexivity |].
  destruct (@exists_last _ (c :: w)) as (l & x & E); [discriminate |].
  assert (Hc : is_js_space c = false).
  { inversion Hw as [| ? ? Hc _]; subst.
    apply plain_arg_char_cases in Hc. tauto. }
  assert (Hx : is_js_space x = false).
  { rewrite E in Hw. apply Forall_app in Hw as [_ Hx].
    inversion Hx as [| ? ? Hx' _]; subst.
    apply plain_arg_char_cases in Hx'. tauto. }
  unfold String_trim. rewrite trimStart_keeps by assumption.
  rewrite E, rev_app_distr. cbn [rev app].
  rewrite trimStart_keeps by assumption.
  change (x :: rev l) with ([x] ++ rev l).
  rewrite rev_app_distr, rev_involutive. reflexivity.
Qed.

(** [trim] leaves a text of plain characters as it is. *)
Lemma trim_plain (w : jstring) :
  Forall (fun c => plain_arg_char c = true) w -> trim w = w.
Proof.
  intros Hw. unfold trim. rewrite String_trim_plain by assumption.
  destruct w as [| c w]; [reflexivity |].
  inversion Hw as [| ? ? Hc _]; subst.
  apply plain_arg_char_cases in Hc as (Hq & _).
  unfold is_quote in Hq. apply orb_false_iff in Hq as [Hq1 Hq2].
  apply N.eqb_neq in Hq1, Hq2.
  rewrite !re_quoted_other by assumption. reflexivity.
Qed.

Lemma split_loop_plain_list (rec : jstring -> result (list arg))
      (items : list jstring) :
  forall fuel pre args,
    Forall (fun w => w <> [] /\ Forall (fun c => plain_arg_char c = true) w)
           items ->
    length (join (js ",") items) <= fuel ->
    split_loop rec fuel (pre ++ join (js ",") items) default_delimiter
      args [] false [] (length pre)
    = Ok (args ++ map AStr items).
Proof.
  induction items as [| w items IH]; intros fuel pre args Hitems Hfuel.
  - cbn [join map]. rewrite !app_nil_r.
    destruct fuel; cbn [split_loop]; rewrite index_at_end; reflexivity.
  - inversion Hitems as [| ? ? [Hne Hw] Hitems']; subst.
    assert (Hend : forall fuel' s,
               split_loop rec fuel' s default_delimiter args w false []
                 (length s)
               = Ok (args ++ [AStr w])).
    { intros fuel' s.
      assert (Hpos : (0 <? length (String_trim w)) = true).
      { rewrite String_trim_plain by assumption.
        destruct w; [contradiction | reflexivity]. }
      destruct fuel'; cbn [split_loop]; rewrite index_at_end, Hpos,
        (trim_plain Hw); reflexivity. }
    destruct items as [| w' items].
    + cbn [join map].
      replace fuel with (length w + (fuel - length w))
        by (cbn [join] in Hfuel; lia).
      pose proof (@split_loop_plain_run rec w (fuel - length w) pre [] args []
                    Hw) as Hrun.
      rewrite !app_nil_r in Hrun. cbn [app] in Hrun. rewrite Hrun.
      apply Hend.
    + change (join (js ",") (w :: w' :: items))
        with (w ++ js "," ++ join (js ",") (w' :: items)) in *.
      rewrite !length_app in Hfuel.
      change (length (js ",")) with 1 in Hfuel.
      replace fuel
        with (length w
              + S (fuel - length w - 1))
        by lia.
      rewrite (@split_loop_plain_run rec w _ pre _ args [] Hw).
      cbn [app].
      change (js "," ++ join (js ",") (w' :: items))
        with (ch "," :: join (js ",") (w' :: items)).
      rewrite (app_assoc pre w).
      rewrite split_loop_comma by assumption.
      rewrite (shift_char (pre ++ w)), (next_index (pre ++ w) (ch ",")).
      rewrite IH by (assumption || lia).
      rewrite (trim_plain Hw), <- app_assoc. reflexivity.
Qed.

(** [splitArguments] undoes [join(',')]: a list of non-empty arguments made
    of plain characters, joined by commas, is split into these arguments,
    each as it was. *)
Theorem splitArguments_comma_list (items : list jstring) :
  Forall (fun w => w <> [] /\ Forall (fun c => plain_arg_char c = true) w)
         items ->
  splitArguments (join (js ",") items) = Ok (map AStr items).
Proof.
  intros Hitems. unfold splitArguments, splitArguments_with.
  cbn [splitArguments_fuel].
  apply (@split_loop_plain_list _ items _ [] [] Hitems). lia.
Qed.

(** The theorem at three arguments, one of them with a closing paren and a
    colon. *)
Lemma splitArguments_comma_list_witness :
  splitArguments (js "foo,b:a)r,3") = Ok [AStr (js "foo"); AStr (js "b:a)r");
                                          AStr (js "3")].
Proof.
  assert (Hitems : Forall (fun w => w <> []
                           /\ Forall (fun c => plain_arg_char c = true) w)
                     [js "foo"; js "b:a)r"; js "3"]).
  { repeat constructor; discriminate. }
  exact (splitArguments_comma_list Hitems).
Defined.

(* ===================================================================== *)
(** ** [encodeString] and [converters.string] *)
(* ===================================================================== *)

(** Arithmetic with quotients and remainders by constants. *)
Ltac nlia := zify; Z.to_euclidean_division_equations; lia.

(** A property of the numbers below a bound, checked on each of them. *)
Lemma N_below (P : N -> bool) (n : nat) :
  forallb P (map N.of_nat (seq 0 n)) = true ->
  forall x, (x < N.of_nat n)%N -> P x = true.
Proof.
  intros Hall x Hx. rewrite forallb_forall in Hall. apply Hall.
  apply in_map_iff. exists (N.to_nat x). split; [apply N2Nat.id |].
  apply in_seq. lia.
Qed.

Lemma hex_value_hex_digit (d : N) :
  (d < 16)%N -> hex_value (hex_digit d) = Some d.
Proof.
  intros Hd.
  apply (@N_below (fun d => match hex_value (hex_digit d) with
                            | Some d' => N.eqb d' d
                            | None => false
                            end) 16) in Hd; [| vm_compute; reflexivity].
  cbv beta in Hd. destruct (hex_value (hex_digit d)); [| discriminate Hd].
  apply N.eqb_eq in Hd. subst. reflexivity.
Qed.

Lemma octet_digits (o : N) :
  (o < 256)%N -> (o / 16 < 16)%N /\ (o mod 16 < 16)%N
                 /\ (16 * (o / 16) + o mod 16 = o)%N.
Proof. intros Ho. split; [| split]; nlia. Qed.

(** [decodeURIComponent] at an escape, outside a sequence. *)
Lemma decode_octet_start (o : N) (X : jstring) :
  (o < 256)%N ->
  decode_from 0 0 0 (percent o ++ X)
  = if (o <? 128)%N then tail <- decode_from 0 0 0 X ;; Ok (o :: tail)
    else if (o <? 192)%N then Err URIError
    else if (o <? 224)%N then decode_from 1 (N.land o 31) 2 X
    else if (o <? 240)%N then decode_from 2 (N.land o 15) 3 X
    else if (o <? 248)%N then decode_from 3 (N.land o 7) 4 X
    else Err URIError.
Proof.
  intros Ho. destruct (octet_digits Ho) as (H1 & H2 & H3).
  unfold percent. cbn [app decode_from].
  rewrite N.eqb_refl, !hex_value_hex_digit by assumption.
  rewrite H3. reflexivity.
Qed.

(** [decodeURIComponent] at an escape, inside a sequence. *)
Lemma decode_octet_next (pending : nat) (cp : N) (size : nat) (o : N)
      (X : jstring) :
  (o < 256)%N ->
  decode_from (S pending) cp size (percent o ++ X)
  = if N.eqb (N.land o 192) 128 then
      match pending with
      | O =>
          if valid_code_point size (cp * 64 + N.land o 63) then
            tail <- decode_from 0 0 0 X ;;
            Ok (utf16 (cp * 64 + N.land o 63) ++ tail)
          else Err URIError
      | S _ => decode_from pending (cp * 64 + N.land o 63) size X
      end
    else Err URIError.
Proof.
  intros Ho. destruct (octet_digits Ho) as (H1 & H2 & H3).
  unfold percent. cbn [app decode_from].
  rewrite N.eqb_refl, !hex_value_hex_digit by assumption.
  rewrite H3. reflexivity.
Qed.

Lemma land_continuation (x : N) :
  (x < 64)%N ->
  N.land (128 + x) 192 = 128%N /\ N.land (128 + x) 63 = x.
Proof.
  intros Hx.
  apply (@N_below (fun x => N.eqb (N.land (128 + x) 192) 128
                            && N.eqb (N.land (128 + x) 63) x) 64) in Hx;
    [| vm_compute; reflexivity].
  apply andb_true_iff in Hx as [H1 H2].
  apply N.eqb_eq in H1, H2. auto.
Qed.

Lemma land_lead2 (x : N) : (x < 32)%N -> N.land (192 + x) 31 = x.
Proof.
  intros Hx.
  apply (@N_below (fun x => N.eqb (N.land (192 + x) 31) x) 32) in Hx;
    [| vm_compute; reflexivity].
  apply N.eqb_eq in Hx. exact Hx.
Qed.

Lemma land_lead3 (x : N) : (x < 16)%N -> N.land (224 + x) 15 = x.
Proof.
  intros Hx.
  apply (@N_below (fun x => N.eqb (N.land (224 + x) 15) x) 16) in Hx;
    [| vm_compute; reflexivity].
  apply N.eqb_eq in Hx. exact Hx.
Qed.

Lemma land_lead4 (x : N) : (x < 8)%N -> N.land (240 + x) 7 = x.
Proof.
  intros Hx.
  apply (@N_below (fun x => N.eqb (N.land (240 + x) 7) x) 8) in Hx;
    [| vm_compute; reflexivity].
  apply N.eqb_eq in Hx. exact Hx.
Qed.

(** A continuation octet adds its six bits. *)
Lemma decode_continuation (pending : nat) (cp : N) (size : nat) (x : N)
      (X : jstring) :
  (x < 64)%N ->
  decode_from (S pending) cp size (percent (128 + x) ++ X)
  = match pending with
    | O =>
        if valid_code_point size (cp * 64 + x) then
          tail <- decode_from 0 0 0 X ;; Ok (utf16 (cp * 64 + x) ++ tail)
        else Err URIError
    | S _ => decode_from pending (cp * 64 + x) size X
    end.
Proof.
  intros Hx. destruct (land_continuation Hx) as [H1 H2].
  rewrite decode_octet_next by lia. rewrite H1, H2. reflexivity.
Qed.

(** Decoding the escapes of the UTF-8 octets of a code point gives the
    code point back. *)
Lemma decode_utf8 (cp : N) (X : jstring) :
  (cp < 1114112)%N ->
  ~ (55296 <= cp <= 57343)%N ->
  decode_from 0 0 0 (flat_map percent (utf8 cp) ++ X)
  = (tail <- decode_from 0 0 0 X ;; Ok (utf16 cp ++ tail)).
Proof.
  intros Hmax Hsur. unfold utf8.
  destruct (N.ltb_spec cp 128) as [H1 | H1].
  { cbn [flat_map]. rewrite app_nil_r, decode_octet_start by lia.
    replace (cp <? 128)%N with true by (symmetry; apply N.ltb_lt; lia).
    unfold utf16. replace (cp <? 65536)%N with true
      by (symmetry; apply N.ltb_lt; lia).
    reflexivity. }
  destruct (N.ltb_spec cp 2048) as [H2 | H2].
  { cbn [flat_map]. rewrite app_nil_r, <- !app_assoc.
    assert (Hq : (cp / 64 < 32)%N) by nlia.
    assert (Hq' : (2 <= cp / 64)%N) by nlia.
    assert (Hr : (cp mod 64 < 64)%N) by nlia.
    assert (Hcp : (cp / 64 * 64 + cp mod 64 = cp)%N) by nlia.
    rewrite decode_octet_start by lia.
    replace (192 + cp / 64 <? 128)%N with false
      by (symmetry; apply N.ltb_ge; lia).
    replace (192 + cp / 64 <? 192)%N with false
      by (symmetry; apply N.ltb_ge; lia).
    replace (192 + cp / 64 <? 224)%N with true
      by (symmetry; apply N.ltb_lt; lia).
    rewrite land_lead2, decode_continuation by assumption.
    rewrite Hcp. cbn [valid_code_point].
    replace (128 <=? cp)%N with true by (symmetry; apply N.leb_le; lia).
    reflexivity. }
  destruct (N.ltb_spec cp 65536) as [H3 | H3].
  { cbn [flat_map]. rewrite app_nil_r, <- !app_assoc.
    assert (Hq : (cp / 4096 < 16)%N) by nlia.
    assert (Hm : ((cp / 64) mod 64 < 64)%N) by nlia.
    assert (Hr : (cp mod 64 < 64)%N) by nlia.
    assert (Hcp1 : (cp / 4096 * 64 + (cp / 64) mod 64 = cp / 64)%N) by nlia.
    assert (Hcp : (cp / 64 * 64 + cp mod 64 = cp)%N) by nlia.
    rewrite decode_octet_start by lia.
    replace (224 + cp / 4096 <? 128)%N with false
      by (symmetry; apply N.ltb_ge; lia).
    replace (224 + cp / 4096 <? 192)%N with false
      by (symmetry; apply N.ltb_ge; lia).
    replace (224 + cp / 4096 <? 224)%N with false
      by (symmetry; apply N.ltb_ge; lia).
    replace (224 + cp / 4096 <? 240)%N with true
      by (symmetry; apply N.ltb_lt; lia).
    rewrite land_lead3, !decode_continuation by assumption.
    rewrite Hcp1, Hcp. cbn [valid_code_point].
    replace (2048 <=? cp)%N with true by (symmetry; apply N.leb_le; lia).
    replace ((55296 <=? cp)%N && (cp <=? 57343)%N) with false.
    2:{ symmetry. apply andb_false_iff.
        destruct (N.leb_spec 55296 cp); [right; apply N.leb_gt; lia | auto]. }
    reflexivity. }
  cbn [flat_map]. rewrite app_nil_r, <- !app_assoc.
  assert (Hq : (cp / 262144 < 8)%N) by nlia.
  assert (Hm1 : ((cp / 4096) mod 64 < 64)%N) by nlia.
  assert (Hm : ((cp / 64) mod 64 < 64)%N) by nlia.
  assert (Hr : (cp mod 64 < 64)%N) by nlia.
  assert (Hcp2 : (cp / 262144 * 64 + (cp / 4096) mod 64 = cp / 4096)%N) by nlia.
  assert (Hcp1 : (cp / 4096 * 64 + (cp / 64) mod 64 = cp / 64)%N) by nlia.
  assert (Hcp : (cp / 64 * 64 + cp mod 64 = cp)%N) by nlia.
  rewrite decode_octet_start by lia.
  replace (240 + cp / 262144 <? 128)%N with false
    by (symmetry; apply N.ltb_ge; lia).
  replace (240 + cp / 262144 <? 192)%N with false
    by (symmetry; apply N.ltb_ge; lia).
  replace (240 + cp / 262144 <? 224)%N with false
    by (symmetry; apply N.ltb_ge; lia).
  replace (240 + cp / 262144 <? 240)%N with false
    by (symmetry; apply N.ltb_ge; lia).
  replace (240 + cp / 262144 <? 248)%N with true
    by (symmetry; apply N.ltb_lt; lia).
  rewrite land_lead4, !decode_continuation by assumption.
  rewrite Hcp2, Hcp1, Hcp. cbn [valid_code_point].
  replace (65536 <=? cp)%N with true by (symmetry; apply N.leb_le; lia).
  replace (cp <=? 1114111)%N with true by (symmetry; apply N.leb_le; lia).
  reflexivity.
Qed.

Lemma indexOf_from_shift (pat s : jstring) :
  forall i, indexOf_from pat s (S i) = option_map S (indexOf_from pat s i).
Proof.
  induction s as [| c s IH]; intros i; cbn [indexOf_from].
  - destruct (starts_with pat []); reflexivity.
  - destruct (starts_with pat (c :: s)); [reflexivity | apply IH].
Qed.

(** [s.replace(p, rep)] for a pattern of one character. *)
Lemma replace_first_cons (p c : N) (s rep : jstring) :
  replace_first (c :: s) [p] rep
  = if N.eqb p c then rep ++ s else c :: replace_first s [p] rep.
Proof.
  unfold replace_first. cbn [indexOf_from starts_with length].
  destruct (N.eqb p c); cbn [andb]; [reflexivity |].
  rewrite indexOf_from_shift.
  destruct (indexOf_from [p] s 0) as [i |]; reflexivity.
Qed.

Lemma replace_first_skip (p : N) (x s rep : jstring) :
  ~ In p x -> replace_first (x ++ s) [p] rep = x ++ replace_first s [p] rep.
Proof.
  induction x as [| c x IH]; intros Hx; [reflexivity |].
  cbn [app]. rewrite replace_first_cons.
  destruct (N.eqb_spec p c) as [-> | _]; [destruct Hx; left; reflexivity |].
  rewrite IH; [reflexivity |]. intros H. apply Hx. right. exact H.
Qed.

(** The octets of UTF-8. *)
Lemma utf8_octets (cp : N) :
  (cp < 1114112)%N -> Forall (fun o => (o < 256)%N) (utf8 cp).
Proof.
  intros Hcp. unfold utf8.
  destruct (N.ltb_spec cp 128); [repeat constructor; lia |].
  destruct (N.ltb_spec cp 2048); [repeat constructor; nlia |].
  destruct (N.ltb_spec cp 65536); repeat constructor; nlia.
Qed.

(** An escape is a percent sign and two digits, capital letters for the
    digits above nine. *)
Lemma percent_chars (o : N) :
  (o < 256)%N ->
  Forall (fun c => (is_digit c || is_upper c || N.eqb c (ch "%")) = true)
         (percent o).
Proof.
  intros Ho.
  apply (@N_below (fun o => forallb (fun c => is_digit c || is_upper c
                                              || N.eqb c (ch "%"))
                                    (percent o)) 256) in Ho;
    [| vm_compute; reflexivity].
  rewrite forallb_forall in Ho. apply Forall_forall. exact Ho.
Qed.

Lemma escapes_chars (cp : N) :
  (cp < 1114112)%N ->
  Forall (fun c => (is_digit c || is_upper c || N.eqb c (ch "%")) = true)
         (flat_map percent (utf8 cp)).
Proof.
  intros Hcp. pose proof (utf8_octets Hcp) as Ho.
  induction Ho as [| o l Ho _ IH]; [constructor |].
  cbn [flat_map]. apply Forall_app. split; [apply percent_chars; exact Ho | exact IH].
Qed.

Lemma escapes_no (p : N) (cp : N) :
  (cp < 1114112)%N ->
  (is_digit p || is_upper p || N.eqb p (ch "%")) = false ->
  ~ In p (flat_map percent (utf8 cp)).
Proof.
  intros Hcp Hp Hin. pose proof (escapes_chars Hcp) as H.
  rewrite Forall_forall in H. specialize (H _ Hin). congruence.
Qed.

Lemma surrogate_pair (c d : N) :
  is_lead_surrogate c = true -> is_trail_surrogate d = true ->
  let cp := ((c - 55296) * 1024 + (d - 56320) + 65536)%N in
  (cp < 1114112)%N /\ ~ (55296 <= cp <= 57343)%N /\ utf16 cp = [c; d].
Proof.
  unfold is_lead_surrogate, is_trail_surrogate. intros Hc Hd.
  apply andb_true_iff in Hc as [Hc1 Hc2]. apply andb_true_iff in Hd as [Hd1 Hd2].
  apply N.leb_le in Hc1, Hc2, Hd1, Hd2.
  cbv zeta. split; [lia |]. split; [lia |].
  unfold utf16.
  replace ((c - 55296) * 1024 + (d - 56320) + 65536 <? 65536)%N with false
    by (symmetry; apply N.ltb_ge; lia).
  f_equal; [nlia |]. f_equal. nlia.
Qed.

Lemma not_surrogate (c : N) :
  is_lead_surrogate c = false -> is_trail_surrogate c = false ->
  ~ (55296 <= c <= 57343)%N.
Proof.
  unfold is_lead_surrogate, is_trail_surrogate. intros Hl Ht [H1 H2].
  apply andb_false_iff in Hl, Ht.
  destruct Hl as [Hl | Hl]; apply N.leb_gt in Hl; [lia |].
  destruct Ht as [Ht | Ht]; apply N.leb_gt in Ht; lia.
Qed.

(** Decoding what [encodeString] makes of an encoded text, with or without
    the replacement of the first opening and of the first closing paren. *)
(** The text decoded so far is known. *)
Ltac use_decoded H :=
  match goal with
  | |- context [decode_from 0 0 0 ?x] =>
      match type of H with
      | _ = ?r => replace (decode_from 0 0 0 x) with r by (symmetry; exact H)
      end
  end.

Lemma decode_encoded (n : nat) :
  forall s e (a b : bool),
    length s <= n ->
    Forall (fun c => (c < 65536)%N) s ->
    encodeURIComponent s = Ok e ->
    decode_from 0 0 0
      (let e1 := if a then replace_first e (js "(") (js "%28") else e in
       if b then replace_first e1 (js ")") (js "%29") else e1)
    = Ok s.
Proof.
  induction n as [| n IH]; intros s e a b Hlen Hunits He.
  { destruct s; [| cbn [length] in Hlen; lia].
    injection He as <-. destruct a, b; reflexivity. }
  destruct s as [| c rest].
  { injection He as <-. destruct a, b; reflexivity. }
  inversion Hunits as [| ? ? Hc Hrest]; subst.
  cbn [length] in Hlen. cbn [encodeURIComponent] in He.
  assert (Hskip : forall T e',
             ~ In (ch "(") T -> ~ In (ch ")") T ->
             (let e1 := if a then replace_first (T ++ e') (js "(") (js "%28")
                        else T ++ e' in
              if b then replace_first e1 (js ")") (js "%29") else e1)
             = T ++ (let e1 := if a then replace_first e' (js "(") (js "%28")
                                else e' in
                     if b then replace_first e1 (js ")") (js "%29") else e1)).
  { intros T e' H1 H2. cbv zeta. change (js "(") with [ch "("].
    change (js ")") with [ch ")"].
    destruct a, b; rewrite ?(@replace_first_skip _ _ _ _ H1),
                     ?(@replace_first_skip _ _ _ _ H2); reflexivity. }
  destruct (uri_unreserved c) eqn:Hu.
  - bind_inv He. injection He as <-.
    destruct (N.eqb_spec c (ch "(")) as [-> | Hopen].
    + cbv zeta. change (js "(") with [ch "("]. change (js ")") with [ch ")"].
      assert (Hgoal : decode_from 0 0 0
                        (if b then replace_first a0 [ch ")"] (js "%29") else a0)
                      = Ok rest)
        by (apply (IH rest a0 false b); (assumption || lia)).
      destruct a.
      * rewrite replace_first_cons, N.eqb_refl.
        assert (Hesc : (if b then replace_first (js "%28" ++ a0) [ch ")"] (js "%29")
                        else js "%28" ++ a0)
                       = percent 40
                           ++ (if b then replace_first a0 [ch ")"] (js "%29")
                               else a0)).
        { destruct b; [| reflexivity].
          apply (@replace_first_skip (ch ")") (js "%28")).
          intros [H | [H | [H | []]]]; discriminate H. }
        rewrite Hesc, decode_octet_start by lia. cbv iota.
        change (40 <? 128)%N with true. cbv iota.
        use_decoded Hgoal. reflexivity.
      * assert (Hesc : (if b then replace_first (ch "(" :: a0) [ch ")"] (js "%29")
                        else ch "(" :: a0)
                       = ch "("
                           :: (if b then replace_first a0 [ch ")"] (js "%29")
                               else a0)).
        { destruct b; [| reflexivity]. rewrite replace_first_cons. reflexivity. }
        rewrite Hesc. cbn [decode_from].
        change (N.eqb (ch "(") (ch "%")) with false. cbv iota.
        use_decoded Hgoal. reflexivity.
    + destruct (N.eqb_spec c (ch ")")) as [-> | Hclose].
      * cbv zeta. change (js "(") with [ch "("]. change (js ")") with [ch ")"].
        assert (Hgoal : decode_from 0 0 0
                          (if a then replace_first a0 [ch "("] (js "%28") else a0)
                        = Ok rest)
          by (apply (IH rest a0 a false); (assumption || lia)).
        assert (Hinner : (if a then replace_first (ch ")" :: a0) [ch "("] (js "%28")
                          else ch ")" :: a0)
                         = ch ")" :: (if a then replace_first a0 [ch "("] (js "%28")
                                      else a0)).
        { destruct a; [| reflexivity]. rewrite replace_first_cons. reflexivity. }
        rewrite Hinner.
        destruct b.
        -- rewrite replace_first_cons, N.eqb_refl.
           change (js "%29") with (percent 41).
           rewrite decode_octet_start by lia.
           change (41 <? 128)%N with true. cbv iota.
           use_decoded Hgoal. reflexivity.
        -- cbn [decode_from].
           change (N.eqb (ch ")") (ch "%")) with false. cbv iota.
           use_decoded Hgoal. reflexivity.
      * change (c :: a0) with ([c] ++ a0). rewrite (Hskip [c] a0).
        2, 3: intros [H | []]; congruence.
        cbn [app decode_from].
        destruct (N.eqb_spec c (ch "%")) as [-> | _]; [discriminate Hu |].
        assert (Hgoal := IH rest a0 a b ltac:(lia) Hrest E).
        use_decoded Hgoal. reflexivity.
  - destruct (is_lead_surrogate c) eqn:Hlead.
    + destruct rest as [| d rest']; [discriminate He |].
      destruct (is_trail_surrogate d) eqn:Htrail; [| discriminate He].
      bind_inv He. injection He as <-.
      destruct (@surrogate_pair c d Hlead Htrail) as (Hmax & Hsur & Hpair).
      inversion Hrest as [| ? ? Hd Hrest']; subst.
      rewrite Hskip by (apply escapes_no; (assumption || reflexivity)).
      rewrite decode_utf8 by assumption.
      assert (Hgoal := IH rest' a0 a b ltac:(cbn [length] in Hlen; lia)
                          Hrest' E).
      use_decoded Hgoal.
      cbn [bind]. rewrite Hpair. reflexivity.
    + destruct (is_trail_surrogate c) eqn:Htrail; [discriminate He |].
      bind_inv He. injection He as <-.
      pose proof (not_surrogate Hlead Htrail) as Hsur.
      rewrite Hskip by (apply escapes_no; (lia || reflexivity)).
      rewrite decode_utf8 by (assumption || lia).
      assert (Hgoal := IH rest a0 a b ltac:(lia) Hrest E).
      use_decoded Hgoal.
      cbn [bind]. unfold utf16.
      replace (c <? 65536)%N with true by (symmetry; apply N.ltb_lt; lia).
      reflexivity.
Qed.

(** [converters.string] undoes [encodeString]: decoding the encoded text
    gives the string back, for every string of 16-bit code units that
    [encodeURIComponent] accepts. *)
Theorem string_of_encodeString (s e : jstring) :
  Forall (fun c => (c < 65536)%N) s ->
  encodeString s = Ok e ->
  string_ e = Ok s.
Proof.
  intros Hunits He. unfold encodeString in He. bind_inv He.
  unfold string_, decodeURIComponent.
  destruct (test re_paren a); injection He as <-.
  - exact (@decode_encoded (length s) s a true true (le_n _) Hunits E).
  - exact (@decode_encoded (length s) s a false false (le_n _) Hunits E).
Qed.

(** The theorem at a string with a space, parens, one of them left as it
    is, a letter outside ASCII and a character outside the basic plane. *)
Lemma string_of_encodeString_witness :
  string_ (js "a%20%28b%29)%C3%A9%F0%9F%98%80")
  = Ok (js "a (b))" ++ [233; 55357; 56832]%N).
Proof.
  assert (Hunits : Forall (fun c => (c < 65536)%N)
                     (js "a (b))" ++ [233; 55357; 56832]%N))
    by (repeat constructor).
  assert (He : encodeString (js "a (b))" ++ [233; 55357; 56832]%N)
               = Ok (js "a%20%28b%29)%C3%A9%F0%9F%98%80")) by reflexivity.
  exact (string_of_encodeString Hunits He).
Defined.

Lemma digit_or_upper_unreserved (c : N) :
  (is_digit c || is_upper c || N.eqb c (ch "%")) = true ->
  (uri_unreserved c || N.eqb c (ch "%")) = true.
Proof.
  unfold uri_unreserved. intros H.
  destruct (is_digit c); [reflexivity |].
  destruct (is_upper c); [reflexivity |].
  cbn [orb] in *. rewrite H. apply orb_true_r.
Qed.

(** What [encodeURIComponent] writes: unreserved characters and escapes. *)
Lemma encodeURIComponent_chars (n : nat) :
  forall s e,
    length s <= n ->
    Forall (fun c => (c < 65536)%N) s ->
    encodeURIComponent s = Ok e ->
    Forall (fun c => (uri_unreserved c || N.eqb c (ch "%")) = true) e.
Proof.
  induction n as [| n IH]; intros s e Hlen Hunits He.
  { destruct s; [| cbn [length] in Hlen; lia]. injection He as <-. constructor. }
  destruct s as [| c rest]; [injection He as <-; constructor |].
  inversion Hunits as [| ? ? Hc Hrest]; subst.
  cbn [length] in Hlen. cbn [encodeURIComponent] in He.
  assert (Hesc : forall cp, (cp < 1114112)%N ->
             Forall (fun c => (uri_unreserved c || N.eqb c (ch "%")) = true)
                    (flat_map percent (utf8 cp))).
  { intros cp Hcp. eapply Forall_impl; [| apply (escapes_chars Hcp)].
    intros x. apply digit_or_upper_unreserved. }
  destruct (uri_unreserved c) eqn:Hu.
  - bind_inv He. injection He as <-.
    constructor; [rewrite Hu; reflexivity |].
    apply (IH rest); (assumption || lia).
  - destruct (is_lead_surrogate c) eqn:Hlead.
    + destruct rest as [| d rest']; [discriminate He |].
      destruct (is_trail_surrogate d) eqn:Htrail; [| discriminate He].
      bind_inv He. injection He as <-.
      destruct (@surrogate_pair c d Hlead Htrail) as (Hmax & _).
      inversion Hrest as [| ? ? Hd Hrest']; subst.
      apply Forall_app. split; [apply Hesc; exact Hmax |].
      apply (IH rest'); [cbn [length] in Hlen; lia | assumption ..].
    + destruct (is_trail_surrogate c); [discriminate He |].
      bind_inv He. injection He as <-.
      apply Forall_app. split; [apply Hesc; lia |].
      apply (IH rest); (assumption || lia).
Qed.

Lemma replace_first_chars (P : N -> Prop) (s pat rep : jstring) :
  Forall P s -> Forall P rep -> Forall P (replace_first s pat rep).
Proof.
  intros Hs Hrep. unfold replace_first.
  destruct (indexOf_from pat s 0) as [i |]; [| exact Hs].
  rewrite Forall_forall in *. intros x Hx.
  apply in_app_or in Hx as [Hx | Hx].
  { apply Hs. rewrite <- (firstn_skipn i s). apply in_or_app. auto. }
  apply in_app_or in Hx as [Hx | Hx]; [apply Hrep; exact Hx |].
  apply Hs. rewrite <- (firstn_skipn (i + length pat) s).
  apply in_or_app. auto.
Qed.

Lemma encodeString_chars (s e : jstring) :
  Forall (fun c => (c < 65536)%N) s ->
  encodeString s = Ok e ->
  Forall (fun c => (uri_unreserved c || N.eqb c (ch "%")) = true) e.
Proof.
  intros Hunits He. unfold encodeString in He. bind_inv He.
  pose proof (@encodeURIComponent_chars (length s) s a (le_n _) Hunits E) as Ha.
  destruct (test re_paren a); injection He as <-; [| exact Ha].
  apply replace_first_chars; [| repeat constructor].
  apply replace_first_chars; [exact Ha | repeat constructor].
Qed.

(** The text that [encodeString] returns is made of the unreserved
    characters of a URI component - letters, digits and [-_.!~*'()] - and of
    percent escapes.  It holds no ampersand, bar, comma, colon, backslash,
    double quote, equals sign, angle bracket or white space. *)
Theorem encodeString_alphabet (s e : jstring) :
  Forall (fun c => (c < 65536)%N) s ->
  encodeString s = Ok e ->
  Forall (fun c => (uri_unreserved c || N.eqb c (ch "%")) = true) e
  /\ forall c, In c e ->
       one_of "&|,:\=<> " c = false /\ c <> dquote /\ is_js_space c = false.
Proof.
  intros Hunits He.
  pose proof (encodeString_chars Hunits He) as Hchars.
  split; [exact Hchars |].
  intros c Hc. rewrite Forall_forall in Hchars. specialize (Hchars c Hc).
  unfold uri_unreserved, is_digit, is_upper, is_lower, in_range, one_of in Hchars.
  cbn [js list_ascii_of_string map existsb] in Hchars.
  repeat rewrite ?orb_true_iff, ?andb_true_iff, ?N.leb_le, ?N.eqb_eq in Hchars.
  cbn in Hchars.
  assert (Hspace : is_js_space c = false).
  { unfold is_js_space. cbn [existsb].
    repeat rewrite ?orb_false_iff, ?andb_false_iff, ?N.leb_gt, ?N.eqb_neq.
    lia. }
  assert (Hfalse : false = true -> False) by discriminate.
  split; [| split; [unfold dquote; lia | exact Hspace]].
  unfold one_of. cbn [js list_ascii_of_string map existsb].
  repeat rewrite ?orb_false_iff, ?N.eqb_neq. cbn. lia.
Qed.

(* ===================================================================== *)
(** ** A percent sign in a string: no number, no key, and the serializer *)
(* ===================================================================== *)

Lemma trimStart_In (c : N) (s : jstring) :
  is_js_space c = false -> In c s -> In c (trimStart s).
Proof.
  intros Hc. induction s as [| x s IH]; intros Hin; [destruct Hin |].
  cbn [trimStart]. destruct (is_js_space x) eqn:Hx; [| exact Hin].
  destruct Hin as [-> | Hin]; [congruence | apply IH; exact Hin].
Qed.

Lemma String_trim_In (c : N) (s : jstring) :
  is_js_space c = false -> In c s -> In c (String_trim s).
Proof.
  intros Hc Hin. unfold String_trim.
  apply in_rev. rewrite rev_involutive.
  apply trimStart_In; [exact Hc |].
  apply in_rev. rewrite rev_involutive.
  apply trimStart_In; assumption.
Qed.

Lemma span_spec (p : N -> bool) (s : jstring) :
  forall a b, span p s = (a, b) -> s = a ++ b /\ Forall (fun c => p c = true) a.
Proof.
  induction s as [| c s IH]; intros a b H; cbn [span] in H.
  - injection H as <- <-. split; [reflexivity | constructor].
  - destruct (p c) eqn:Hc.
    + destruct (span p s) as [a' b'] eqn:E. injection H as <- <-.
      destruct (IH a' b' eq_refl) as [-> Ha]. split; [reflexivity |].
      constructor; assumption.
    + injection H as <- <-. split; [reflexivity | constructor].
Qed.

Lemma span_rest_In (p : N -> bool) (c : N) (s a b : jstring) :
  p c = false -> In c s -> span p s = (a, b) -> In c b.
Proof.
  intros Hc Hin H. apply span_spec in H as [-> Ha].
  apply in_app_or in Hin as [Hin | Hin]; [| exact Hin].
  rewrite Forall_forall in Ha. specialize (Ha _ Hin). congruence.
Qed.

Lemma forallb_In_false (p : N -> bool) (c : N) (s : jstring) :
  p c = false -> In c s -> forallb p s = false.
Proof.
  intros Hc Hin. destruct (forallb p s) eqn:H; [| reflexivity].
  rewrite forallb_forall in H. specialize (H _ Hin). congruence.
Qed.

Lemma exponent_part_percent (s : jstring) :
  In (ch "%") s -> exponent_part s = None.
Proof.
  intros Hin. destruct s as [| e s]; [destruct Hin |].
  cbn [exponent_part]. destruct (one_of "eE" e) eqn:He; [| reflexivity].
  destruct Hin as [-> | Hin]; [discriminate He |].
  assert (Hds : forall ds, In (ch "%") ds ->
                  (if negb (is_empty ds) && forallb is_digit ds
                   then Some (Z.of_N (digits_value 10 ds)) else None)
                  = @None Z).
  { intros ds Hds. rewrite (@forallb_In_false is_digit (ch "%") ds)
      by (assumption || reflexivity).
    rewrite andb_false_r. reflexivity. }
  destruct s as [| sign ds]; [destruct Hin |].
  destruct (N.eqb_spec sign (ch "-")) as [-> | _].
  { destruct Hin as [H | Hin]; [discriminate H |].
    rewrite (@forallb_In_false is_digit (ch "%") ds)
      by (assumption || reflexivity).
    rewrite andb_false_r. reflexivity. }
  destruct (N.eqb_spec sign (ch "+")) as [-> | _].
  { destruct Hin as [H | Hin]; [discriminate H |].
    rewrite (@forallb_In_false is_digit (ch "%") ds)
      by (assumption || reflexivity).
    rewrite andb_false_r. reflexivity. }
  rewrite (@forallb_In_false is_digit (ch "%") (sign :: ds))
    by (assumption || reflexivity).
  rewrite andb_false_r. reflexivity.
Qed.

Lemma unsigned_decimal_literal_percent (negative : bool) (s : jstring) :
  In (ch "%") s -> unsigned_decimal_literal negative s = NaN.
Proof.
  intros Hin. unfold unsigned_decimal_literal.
  destruct (str_eqb s (js "Infinity")) eqn:Hinf.
  { apply str_eqb_eq in Hinf. subst s. exfalso.
    repeat (destruct Hin as [Hin | Hin]; [discriminate Hin |]). destruct Hin. }
  destruct (span is_digit s) as [int_part r1] eqn:Hint.
  pose proof (@span_rest_In is_digit (ch "%") s int_part r1 eq_refl Hin Hint)
    as Hr1.
  assert (Hfrac : forall frac_part r2,
             In (ch "%") r2 ->
             (if is_empty int_part && is_empty frac_part then NaN
              else match exponent_part r2 with
                   | Some e =>
                       Dec negative (digits_value 10 (int_part ++ frac_part))
                         (e - Z.of_nat (length frac_part))
                   | None => NaN
                   end) = NaN).
  { intros frac_part r2 Hr2. rewrite (exponent_part_percent _ Hr2).
    destruct (is_empty int_part && is_empty frac_part); reflexivity. }
  destruct r1 as [| dot r]; [destruct Hr1 |].
  destruct (N.eqb_spec dot (ch ".")) as [-> | _].
  - destruct Hr1 as [H | Hr]; [discriminate H |].
    destruct (span is_digit r) as [frac_part r2] eqn:Hfr.
    apply Hfrac.
    exact (@span_rest_In is_digit (ch "%") r frac_part r2 eq_refl Hr Hfr).
  - apply Hfrac. exact Hr1.
Qed.

Lemma non_decimal_literal_percent (s : jstring) :
  In (ch "%") s -> non_decimal_literal s = None.
Proof.
  intros Hin. unfold non_decimal_literal.
  destruct s as [| z [| x ds]]; try reflexivity.
  destruct (N.eqb_spec z (ch "0")) as [-> | _]; [| reflexivity].
  destruct Hin as [H | Hin]; [discriminate H |].
  assert (Hds : forall b, In (ch "%") ds ->
                  negb (is_empty ds) && forallb (is_digit_in b) ds = false).
  { intros b Hds. rewrite (@forallb_In_false (is_digit_in b) (ch "%") ds)
      by (assumption || reflexivity).
    apply andb_false_r. }
  destruct (one_of "xX" x) eqn:H1.
  { destruct Hin as [-> | Hin]; [discriminate H1 |]. rewrite Hds by assumption.
    reflexivity. }
  destruct (one_of "oO" x) eqn:H2.
  { destruct Hin as [-> | Hin]; [discriminate H2 |]. rewrite Hds by assumption.
    reflexivity. }
  destruct (one_of "bB" x) eqn:H3; [| reflexivity].
  destruct Hin as [-> | Hin]; [discriminate H3 |]. rewrite Hds by assumption.
  reflexivity.
Qed.

(** No numeric literal holds a percent sign. *)
Lemma Number_percent (x : jstring) : In (ch "%") x -> Number x = NaN.
Proof.
  intros Hin. unfold Number.
  pose proof (@String_trim_In (ch "%") x eq_refl Hin) as Hs.
  destruct (String_trim x) as [| c s']; [destruct Hs |].
  rewrite non_decimal_literal_percent by assumption.
  destruct (N.eqb_spec c (ch "-")) as [-> | _].
  { destruct Hs as [H | Hs]; [discriminate H |].
    apply unsigned_decimal_literal_percent. exact Hs. }
  destruct (N.eqb_spec c (ch "+")) as [-> | _].
  { destruct Hs as [H | Hs]; [discriminate H |].
    apply unsigned_decimal_literal_percent. exact Hs. }
  apply unsigned_decimal_literal_percent. exact Hs.
Qed.

(** No key of [autoConverted] holds a percent sign. *)
Lemma autoConverted_percent (x : jstring) :
  In (ch "%") x -> autoConverted x = None.
Proof.
  intros Hin. unfold autoConverted.
  repeat match goal with
         | |- context [str_eqb x ?k] =>
             destruct (str_eqb x k) eqn:?E;
             [apply str_eqb_eq in E; subst x; exfalso;
              repeat (destruct Hin as [Hin | Hin]; [discriminate Hin |]);
              destruct Hin
             | clear E]
         end.
  reflexivity.
Qed.

Lemma indexOf_from_first_absent (c : N) (pat s : jstring) :
  forall i, ~ In c s -> indexOf_from (c :: pat) s i = None.
Proof.
  induction s as [| x s IH]; intros i Hs; [reflexivity |].
  cbn [indexOf_from starts_with].
  destruct (N.eqb_spec c x) as [-> | _]; [destruct Hs; left; reflexivity |].
  cbn [andb]. apply IH. intros H. apply Hs. right. exact H.
Qed.

Lemma replace_first_absent (c : N) (pat s rep : jstring) :
  ~ In c s -> replace_first s (c :: pat) rep = s.
Proof.
  intros Hs. unfold replace_first.
  rewrite indexOf_from_first_absent by assumption. reflexivity.
Qed.

Lemma encoded_string_reads_back (B : Builtins) (s e : jstring) :
  Forall (fun c => (c < 65536)%N) s ->
  encodeValue B (VStr s) = Ok (VStr e) ->
  stringToValue B e = Ok (VStr s).
Proof.
  intros Hunits He. unfold encodeValue, encodeValue_of in He.
  cbn [toString toString_leaf bind] in He.
  destruct (auto B s) as [conv | err] eqn:Hauto; [| discriminate He].
  cbn [bind] in He.
  destruct (encodeString s) as [enc | err] eqn:Henc;
    [| destruct (negb (strict_eqb (VStr s) conv)); discriminate He].
  assert (Hdec : decodeURIComponent enc = Ok s).
  { unfold encodeString in Henc. bind_inv Henc. unfold decodeURIComponent.
    destruct (test re_paren a); injection Henc as <-.
    - exact (@decode_encoded (length s) s a true true (le_n _) Hunits E).
    - exact (@decode_encoded (length s) s a false false (le_n _) Hunits E). }
  pose proof (encodeString_chars Hunits Henc) as Hchars.
  assert (Hno : forall c, (uri_unreserved c || N.eqb c (ch "%")) = false ->
                          ~ In c enc).
  { intros c Hc Hin. rewrite Forall_forall in Hchars.
    specialize (Hchars c Hin). congruence. }
  assert (Hcolon : forall rep, replace_first enc (js "\:") rep = enc)
    by (intros rep; apply replace_first_absent; apply Hno; reflexivity).
  destruct (strict_eqb (VStr s) conv) eqn:Heq; cbn [negb bind] in He;
    injection He as <-.
  - (* the string converts to itself: no tag *)
    destruct conv; try discriminate Heq. cbn [strict_eqb] in Heq.
    apply str_eqb_eq in Heq. subst s0.
    unfold stringToValue.
    destruct (test re_converter enc) eqn:Htest.
    { exfalso.
      apply re_converter_shape in Htest as (w & x & rest & -> & _).
      apply (Hno (ch ":")); [reflexivity |].
      apply in_or_app. right. right. left. reflexivity. }
    cbv beta iota delta [bind]. rewrite Hcolon. cbn [convert].
    destruct (in_dec N.eq_dec (ch "%") enc) as [Hin | Hin].
    + apply auto_returns_decoded_text;
        [apply autoConverted_percent | apply Number_percent | |];
        assumption.
    + unfold decodeURIComponent in Hdec.
      rewrite decode_from_plain in Hdec by assumption.
      injection Hdec as ->. exact Hauto.
  - (* the tag [string:] *)
    unfold stringToValue.
    change (115 :: 116 :: 114 :: 105 :: 110 :: 103 :: 58 :: enc)%N
      with (js "string" ++ ch ":" :: enc).
    rewrite re_converter_matches by (vm_compute; repeat constructor; lia).
    unfold indexOf. change (js ":") with [ch ":"].
    rewrite indexOf_from_char by (repeat constructor; discriminate).
    cbn [Nat.add]. rewrite substring_prefix.
    replace (Z.of_nat (length (js "string")) + 1)%Z
      with (Z.of_nat (length (js "string" ++ [ch ":"]))) by reflexivity.
    change (js "string" ++ ch ":" :: enc) with ((js "string" ++ [ch ":"]) ++ enc).
    rewrite substring_from_suffix.
    replace (converters_get (toLowerCase B (js "string")))
      with (Some conv_string) by reflexivity.
    cbv beta iota delta [bind]. rewrite Hcolon.
    cbn [convert]. unfold string_. rewrite Hdec. reflexivity.
Qed.

(** A string value survives the serializer and the parser: what
    [encodeValue] writes for a string, [stringToValue] reads as that
    string, whether [encodeValue] had to tag it with [string:] or not. *)
Theorem stringToValue_of_encodeValue (B : Builtins) (s e : jstring) :
  Forall (fun c => (c < 65536)%N) s ->
  encodeValue B (VStr s) = Ok (VStr e) ->
  stringToValue B e = Ok (VStr s).
Proof. apply encoded_string_reads_back. Qed.

(** The theorem at a string that needs a tag and at one that needs
    none. *)
Lemma stringToValue_of_encodeValue_witness :
  stringToValue no_runtime (js "string:7") = Ok (VStr (js "7"))
  /\ stringToValue no_runtime (js "a%20b") = Ok (VStr (js "a b")).
Proof.
  assert (H1 : Forall (fun c => (c < 65536)%N) (js "7"))
    by (repeat constructor).
  assert (H2 : encodeValue no_runtime (VStr (js "7"))
               = Ok (VStr (js "string:7"))) by reflexivity.
  assert (H3 : Forall (fun c => (c < 65536)%N) (js "a b"))
    by (repeat constructor).
  assert (H4 : encodeValue no_runtime (VStr (js "a b"))
               = Ok (VStr (js "a%20b"))) by reflexivity.
  split.
  - exact (stringToValue_of_encodeValue no_runtime H1 H2).
  - exact (stringToValue_of_encodeValue no_runtime H3 H4).
Defined.

Lemma decode_plain_prefix (a X : jstring) :
  ~ In (ch "%") a ->
  decode_from 0 0 0 (a ++ X)
  = (tail <- decode_from 0 0 0 X ;; Ok (a ++ tail)).
Proof.
  induction a as [| c a IH]; intros Ha.
  - cbn [app]. destruct (decode_from 0 0 0 X); reflexivity.
  - cbn [app decode_from].
    destruct (N.eqb_spec c (ch "%")) as [-> | _];
      [destruct Ha; left; reflexivity |].
    rewrite IH by (intros H; apply Ha; right; exact H).
    destruct (decode_from 0 0 0 X); reflexivity.
Qed.

(** [encodeValue] throws on a string with a percent sign that does not
    begin an escape: the string is first passed to the default converter,
    whose [decodeURIComponent] throws the URIError, and nothing catches
    it. *)
Theorem encodeValue_malformed_escape (B : Builtins) (a rest : jstring) :
  ~ In (ch "%") a ->
  match rest with
  | h1 :: h2 :: _ => hex_value h1 = None \/ hex_value h2 = None
  | _ => True
  end ->
  encodeValue B (VStr (a ++ js "%" ++ rest)) = Err URIError.
Proof.
  intros Ha Hrest.
  assert (Hin : In (ch "%") (a ++ js "%" ++ rest))
    by (apply in_or_app; right; left; reflexivity).
  assert (Hdec : decodeURIComponent (a ++ js "%" ++ rest) = Err URIError).
  { unfold decodeURIComponent. rewrite decode_plain_prefix by assumption.
    change (js "%" ++ rest) with (ch "%" :: rest).
    destruct rest as [| h1 [| h2 rest]]; try reflexivity.
    cbn [decode_from]. change (N.eqb (ch "%") (ch "%")) with true. cbv iota.
    destruct Hrest as [-> | ->]; [reflexivity |].
    destruct (hex_value h1); reflexivity. }
  unfold encodeValue, encodeValue_of. cbn [toString toString_leaf bind].
  unfold auto, number, string_.
  rewrite autoConverted_percent, Number_percent, Hdec by assumption.
  reflexivity.
Qed.

(** The theorem at [100%]. *)
Lemma encodeValue_malformed_escape_witness :
  encodeValue no_runtime (VStr (js "100%")) = Err URIError.
Proof.
  assert (Ha : ~ In (ch "%") (js "100")).
  { intros H. repeat (destruct H as [H | H]; [discriminate H |]). destruct H. }
  exact (@encodeValue_malformed_escape no_runtime (js "100") [] Ha I).
Defined.

(* ===================================================================== *)
(** ** A query of one operator, serialized and parsed *)
(* ===================================================================== *)

Lemma isRQLQuery_paren (s : jstring) :
  isRQLQuery s = true -> In (ch "(") s.
Proof.
  unfold isRQLQuery. rewrite test_true. intros [m Hm].
  apply search_sound in Hm as (skipped & text & rest' & -> & Hl & _).
  unfold re_call in Hl. cbn [lang] in Hl.
  destruct Hl as (t1 & t2 & -> & _ & ->).
  apply in_or_app. right. apply in_or_app. left.
  apply in_or_app. right. left. reflexivity.
Qed.

Lemma well_nested_no_paren (s : jstring) :
  Forall (fun c => one_of "'()" c = false) s -> well_nested 0 s = true.
Proof.
  induction 1 as [| c s Hc _ IH]; [reflexivity |].
  cbn [well_nested].
  destruct (N.eqb_spec c (ch "(")) as [-> | _]; [discriminate Hc |].
  destruct (N.eqb_spec c (ch ")")) as [-> | _]; [discriminate Hc |].
  exact IH.
Qed.

(** The local [serialize] of [queryToString] on string arguments. *)
Lemma serialize_strings (B : Builtins) (items encoded : list jstring) :
  Forall2 (fun w e => encodeValue B (VStr w) = Ok (VStr e)) items encoded ->
  (fix serialize (l : list value) : result (list jstring) :=
     match l with
     | [] => Ok []
     | x :: l' =>
         v <- queryToString B x ;;
         s <- join_element B v ;; ss <- serialize l' ;; Ok (s :: ss)
     end) (map VStr items)
  = Ok encoded.
Proof.
  induction 1 as [| w e items encoded Hw _ IH]; [reflexivity |].
  cbn [map].
  change (queryToString B (VStr w)) with (encodeValue B (VStr w)).
  rewrite Hw. cbn [bind join_element toString_leaf]. rewrite IH. reflexivity.
Qed.

Lemma toString_call (B : Builtins) (opname : jstring)
      (items encoded : list jstring) :
  Forall2 (fun w e => encodeValue B (VStr w) = Ok (VStr e)) items encoded ->
  toString B (VQuery opname (map VStr items))
  = Ok (call_text opname encoded).
Proof.
  intros H. cbn [toString queryToString].
  rewrite (@serialize_strings B items encoded H). reflexivity.
Qed.

(** What [encodeValue] writes for a string: the text of [encodeString],
    after the tag [string:] or not. *)
Lemma encodeValue_string_chars (B : Builtins) (w e : jstring) :
  Forall (fun c => (c < 65536)%N) w ->
  encodeValue B (VStr w) = Ok (VStr e) ->
  Forall (fun c => (uri_unreserved c || one_of "%:" c) = true) e.
Proof.
  intros Hunits He. unfold encodeValue, encodeValue_of in He.
  cbn [toString toString_leaf bind] in He.
  destruct (auto B w) as [conv | err]; [| discriminate He].
  cbn [bind] in He.
  destruct (encodeString w) as [enc | err] eqn:Henc;
    [| destruct (negb (strict_eqb (VStr w) conv)); discriminate He].
  assert (Hchars : Forall (fun c => (uri_unreserved c || one_of "%:" c) = true)
                          enc).
  { eapply Forall_impl; [| apply (encodeString_chars Hunits Henc)].
    intros c Hc. cbv beta in Hc. apply orb_true_iff in Hc as [Hc | Hc].
    - rewrite Hc. reflexivity.
    - apply N.eqb_eq in Hc. subst c. reflexivity. }
  destruct (negb (strict_eqb (VStr w) conv)); cbn [bind] in He;
    injection He as <-; [| exact Hchars].
  repeat (constructor; [reflexivity |]). exact Hchars.
Qed.

(** An encoded argument without quote and paren is a plain argument. *)
Lemma encoded_plain (e : jstring) :
  Forall (fun c => (uri_unreserved c || one_of "%:" c) = true) e ->
  Forall (fun c => one_of "'()" c = false) e ->
  Forall (fun c => plain_arg_char c = true) e
  /\ Forall (fun c => one_of "=<>" c = false) e.
Proof.
  intros Hchars Hfree.
  assert (H : forall c, (uri_unreserved c || one_of "%:" c) = true ->
                        one_of "'()" c = false ->
                        plain_arg_char c = true /\ one_of "=<>" c = false).
  { intros c Hc Hf.
    assert (Hsmall : (c < 128)%N).
    { unfold uri_unreserved, is_digit, is_upper, is_lower, in_range, one_of
        in Hc.
      cbn [js list_ascii_of_string map existsb] in Hc.
      repeat rewrite ?orb_true_iff, ?andb_true_iff, ?N.leb_le, ?N.eqb_eq in Hc.
      cbn in Hc. assert (Hfalse : false = true -> False) by discriminate.
      lia. }
    apply (@N_below
             (fun c => negb (uri_unreserved c || one_of "%:" c)
                       || one_of "'()" c
                       || (plain_arg_char c && negb (one_of "=<>" c))) 128)
      in Hsmall; [| vm_compute; reflexivity].
    rewrite Hc, Hf in Hsmall. cbn [negb orb] in Hsmall.
    apply andb_true_iff in Hsmall as [H1 H2].
    apply negb_true_iff in H2. auto. }
  rewrite !Forall_forall in *.
  split; intros c Hc; apply (H c); auto.
Qed.

Lemma Forall_join (P : N -> Prop) (sep : jstring) (l : list jstring) :
  Forall P sep -> Forall (Forall P) l -> Forall P (join sep l).
Proof.
  intros Hsep. induction 1 as [| s l Hs Hl IH]; [constructor |].
  destruct l as [| s' l]; [exact Hs |].
  change (join sep (s :: s' :: l)) with (s ++ sep ++ join sep (s' :: l)).
  apply Forall_app. split; [exact Hs |].
  apply Forall_app. split; [exact Hsep | exact IH].
Qed.

Lemma plain_unquoted (c : N) : plain_arg_char c = true -> unquoted c = true.
Proof.
  intros Hc. apply plain_arg_char_cases in Hc as (Hq & Hb & _).
  unfold unquoted. rewrite Hq. cbn [orb].
  destruct (N.eqb_spec c (ch "\")); [contradiction | reflexivity].
Qed.

Lemma word_operator_char (c : N) : is_word c = true -> operator_char c = true.
Proof.
  intros Hc. unfold operator_char, is_joiner.
  destruct (N.eqb_spec c (ch "&")) as [-> | _]; [discriminate Hc |].
  destruct (N.eqb_spec c (ch ",")) as [-> | _]; [discriminate Hc |].
  destruct (N.eqb_spec c (ch "|")) as [-> | _]; [discriminate Hc |].
  destruct (N.eqb_spec c (ch "(")) as [-> | _]; [discriminate Hc |].
  reflexivity.
Qed.

Lemma word_no_comparison (c : N) : is_word c = true -> one_of "=<>" c = false.
Proof.
  intros Hc. unfold one_of. cbn [js list_ascii_of_string map existsb].
  destruct (N.eqb_spec c (N_of_ascii "=")) as [-> | _]; [discriminate Hc |].
  destruct (N.eqb_spec c (N_of_ascii "<")) as [-> | _]; [discriminate Hc |].
  destruct (N.eqb_spec c (N_of_ascii ">")) as [-> | _]; [discriminate Hc |].
  reflexivity.
Qed.

(** [parseArg] reads the encoded string arguments back. *)
Lemma parseArg_encoded (B : Builtins) (rec : jstring -> result value)
      (items encoded : list jstring) :
  Forall2 (fun w e => Forall (fun c => (c < 65536)%N) w
                      /\ encodeValue B (VStr w) = Ok (VStr e)
                      /\ e <> []
                      /\ Forall (fun c => one_of "'()" c = false) e)
          items encoded ->
  mapM (parseArg B rec) (map AStr encoded) = Ok (map VStr items).
Proof.
  induction 1 as [| w e items encoded (Hunits & He & Hnil & Hfree) _ IH];
    [reflexivity |].
  cbn [map mapM parseArg].
  destruct (isRQLQuery e) eqn:Hquery.
  - exfalso. apply isRQLQuery_paren in Hquery.
    rewrite Forall_forall in Hfree. specialize (Hfree _ Hquery).
    discriminate Hfree.
  - rewrite (encoded_string_reads_back _ Hunits He). cbn [bind].
    rewrite IH. reflexivity.
Qed.

(** A query of one operator with string arguments survives the serializer
    and the parser. *)
Theorem parse_of_toString (B : Builtins) (opname : jstring)
        (items encoded : list jstring) :
  opname <> [] ->
  Forall (fun c => is_word c = true) opname ->
  Forall2 (fun w e => Forall (fun c => (c < 65536)%N) w
                      /\ encodeValue B (VStr w) = Ok (VStr e)
                      /\ e <> []
                      /\ Forall (fun c => one_of "'()" c = false) e)
          items encoded ->
  indexOf (call_text opname encoded) (js "%3C") = (-1)%Z ->
  indexOf (call_text opname encoded) (js "%3E") = (-1)%Z ->
  toString B (VQuery opname (map VStr items)) = Ok (call_text opname encoded)
  /\ parse B (call_text opname encoded)
     = Ok {| name := opname; args := map VStr items |}.
Proof.
  intros Hne Hname Hitems Hlt Hgt.
  assert (Henc : Forall2 (fun w e => encodeValue B (VStr w) = Ok (VStr e))
                         items encoded).
  { eapply Forall2_impl; [| exact Hitems]. cbv beta. tauto. }
  split; [apply toString_call; exact Henc |].
  assert (Hplain : Forall (fun e => e <> []
                                    /\ Forall (fun c => plain_arg_char c = true) e)
                          encoded
                   /\ Forall (Forall (fun c => one_of "=<>" c = false)) encoded
                   /\ Forall (Forall (fun c => one_of "'()" c = false)) encoded).
  { clear Hlt Hgt Henc.
    induction Hitems as [| w e items encoded (Hunits & He & Hnil & Hfree) _ IH];
      [repeat split; constructor |].
    destruct IH as (IH1 & IH2 & IH3).
    destruct (encoded_plain (encodeValue_string_chars _ Hunits He) Hfree)
      as [Hp Hc].
    repeat split; constructor; auto. }
  destruct Hplain as (Hplain & Hcmp & Hfree).
  set (inner := join (js ",") encoded).
  assert (Hinner_plain : Forall (fun c => plain_arg_char c = true
                                          \/ c = ch ",") inner).
  { apply Forall_join; [constructor; [right; reflexivity | constructor] |].
    eapply Forall_impl; [| exact Hplain].
    intros e [_ He]. eapply Forall_impl; [| exact He]. cbv beta. auto. }
  assert (Hunq : Forall (fun c => unquoted c = true) inner).
  { eapply Forall_impl; [| exact Hinner_plain].
    intros c [Hc | ->]; [apply plain_unquoted; exact Hc | reflexivity]. }
  assert (Hnest : well_nested 0 inner = true).
  { apply well_nested_no_paren. apply Forall_join; [repeat constructor | exact Hfree]. }
  assert (Hq : Forall (fun c => one_of "=<>" c = false)
                      (call_text opname encoded)).
  { unfold call_text. apply Forall_app. split.
    - eapply Forall_impl; [| exact Hname]. apply word_no_comparison.
    - apply Forall_app. split; [repeat constructor |].
      apply Forall_app. split; [| repeat constructor].
      apply Forall_join; [repeat constructor | exact Hcmp]. }
  destruct opname as [| c opname']; [contradiction |].
  unfold parse.
  change (is_empty (call_text (c :: opname') encoded)) with false. cbv iota.
  assert (Hc : str_eqb (charAt (call_text (c :: opname') encoded) 0) (js "?")
               = false).
  { inversion Hname as [| ? ? Hc _]; subst.
    change (charAt (call_text (c :: opname') encoded) 0) with [c].
    cbn [str_eqb js list_ascii_of_string map].
    destruct (N.eqb_spec c (N_of_ascii "?")) as [-> | _];
      [discriminate Hc | reflexivity]. }
  rewrite Hc, normalizeSyntax_unchanged by assumption.
  cbn [bind]. unfold walkQuery. cbn [walkQuery_fuel]. unfold walkQuery_at.
  change (call_text (c :: opname') encoded)
    with ((c :: opname') ++ ch "(" :: inner ++ [ch ")"]).
  rewrite walk_loop_call;
    [| eapply Forall_impl; [| exact Hname]; apply word_operator_char
     | exact Hunq | exact Hnest].
  assert (Hsplit : splitArguments inner = Ok (map AStr encoded)).
  { unfold splitArguments, splitArguments_with. cbn [splitArguments_fuel].
    apply (@split_loop_plain_list _ encoded _ [] [] Hplain). apply le_n. }
  rewrite Hsplit. cbn [bind].
  rewrite (@parseArg_encoded B _ items encoded Hitems). reflexivity.
Qed.

(** The theorem at a call with a tagged argument and an escaped one. *)
Lemma parse_of_toString_witness :
  toString no_runtime (VQuery (js "eq") [VStr (js "7"); VStr (js "a b")])
  = Ok (js "eq(string:7,a%20b)")
  /\ parse no_runtime (js "eq(string:7,a%20b)")
     = Ok {| name := js "eq"; args := [VStr (js "7"); VStr (js "a b")] |}.
Proof.
  assert (Hne : js "eq" <> []) by discriminate.
  assert (Hname : Forall (fun c => is_word c = true) (js "eq"))
    by (repeat constructor).
  assert (Hitems :
            Forall2 (fun w e => Forall (fun c => (c < 65536)%N) w
                                /\ encodeValue no_runtime (VStr w) = Ok (VStr e)
                                /\ e <> []
                                /\ Forall (fun c => one_of "'()" c = false) e)
                    [js "7"; js "a b"] [js "string:7"; js "a%20b"]).
  { repeat constructor; discriminate. }
  assert (Hlt : indexOf (call_text (js "eq") [js "string:7"; js "a%20b"])
                        (js "%3C") = (-1)%Z) by reflexivity.
  assert (Hgt : indexOf (call_text (js "eq") [js "string:7"; js "a%20b"])
                        (js "%3E") = (-1)%Z) by reflexivity.
  exact (parse_of_toString no_runtime Hne Hname Hitems Hlt Hgt).
Defined.

(* ===================================================================== *)
(** ** The converter [auto] on white space *)
(* ===================================================================== *)

Lemma trimStart_blank (s : jstring) :
  Forall (fun c => is_js_space c = true) s -> trimStart s = [].
Proof.
  induction 1 as [| c s Hc _ IH]; [reflexivity |].
  cbn [trimStart]. rewrite Hc. exact IH.
Qed.

(** [auto] makes the number 0 of the empty string and of every string of
    white space: [Number] of such a string is 0, not [NaN]. *)
Theorem auto_blank (B : Builtins) (s : jstring) :
  Forall (fun c => is_js_space c = true) s ->
  auto B s = Ok (VNum (Dec false 0 0)).
Proof.
  intros Hs.
  assert (Hkey : autoConverted s = None).
  { destruct s as [| c s']; [reflexivity |].
    inversion Hs as [| ? ? Hc _]; subst.
    unfold autoConverted. cbn [str_eqb js list_ascii_of_string map].
    repeat match goal with
           | |- context [N.eqb c ?k] =>
               destruct (N.eqb_spec c k) as [-> | _];
               [discriminate Hc | cbn [andb]]
           end.
    reflexivity. }
  assert (Hnum : Number s = Dec false 0 0).
  { unfold Number, String_trim. rewrite (trimStart_blank Hs). reflexivity. }
  unfold auto, number. rewrite Hkey, Hnum. reflexivity.
Qed.

(** The theorem at a string of two spaces. *)
Lemma auto_blank_witness :
  auto no_runtime (js "  ") = Ok (VNum (Dec false 0 0)).
Proof.
  assert (Hs : Forall (fun c => is_js_space c = true) (js "  "))
    by (repeat constructor).
  exact (auto_blank no_runtime Hs).
Defined.

(* ===================================================================== *)
(** ** [splitArguments]: an empty argument, and an escape in a call *)
(* ===================================================================== *)

(** [trim] of a text without white space that does not begin with a
    quote. *)
Lemma trim_kept (c : N) (s : jstring) :
  is_quote c = false ->
  Forall (fun y => is_js_space y = false) (c :: s) ->
  trim (c :: s) = c :: s.
Proof.
  intros Hq Hs.
  assert (Htrim : String_trim (c :: s) = c :: s).
  { destruct (@exists_last _ (c :: s)) as (l & x & E); [discriminate |].
    assert (Hc : is_js_space c = false) by (inversion Hs; assumption).
    assert (Hx : is_js_space x = false).
    { rewrite E in Hs. apply Forall_app in Hs as [_ Hx].
      inversion Hx; assumption. }
    unfold String_trim. rewrite trimStart_keeps by assumption.
    rewrite E, rev_app_distr. cbn [rev app].
    rewrite trimStart_keeps by assumption.
    change (x :: rev l) with ([x] ++ rev l).
    rewrite rev_app_distr, rev_involutive. reflexivity. }
  unfold trim. rewrite Htrim.
  unfold is_quote in Hq. apply orb_false_iff in Hq as [Hq1 Hq2].
  apply N.eqb_neq in Hq1, Hq2.
  rewrite !re_quoted_other by assumption. reflexivity.
Qed.

Lemma plain_no_space (w : jstring) :
  Forall (fun c => plain_arg_char c = true) w ->
  Forall (fun c => is_js_space c = false) w.
Proof.
  intros Hw. eapply Forall_impl; [| exact Hw].
  intros c Hc. apply plain_arg_char_cases in Hc. tauto.
Qed.

Section SplitSteps.
Variable rec : jstring -> result (list arg).

(** One turn of the loop on a comma where an argument begins: the comma is
    the first character of the argument. *)
Lemma split_loop_leading_comma fuel pre tail args :
  split_loop rec (S fuel) (pre ++ ch "," :: tail) default_delimiter args []
    false [] (length pre)
  = split_loop rec fuel (pre ++ ch "," :: tail) default_delimiter args
      [ch ","] false [] (length pre + 1).
Proof.
  cbn [split_loop]. rewrite index_in_range, char_at_index. reflexivity.
Qed.

(** The end of the loop. *)
Lemma split_loop_last fuel (s : jstring) args cur :
  trim cur = cur -> cur <> [] ->
  split_loop rec fuel s default_delimiter args cur false [] (length s)
  = Ok (args ++ [AStr cur]).
Proof.
  intros Htrim Hne.
  assert (Hpos : (0 <? length (String_trim cur)) = true).
  { apply Nat.ltb_lt. unfold trim in Htrim.
    destruct (String_trim cur) as [| y t] eqn:E; [| cbn [length]; lia].
    cbn in Htrim. congruence. }
  destruct fuel; cbn [split_loop]; rewrite index_at_end, Hpos, Htrim;
    reflexivity.
Qed.

(** One turn of the loop on the opening paren of a call, after the name. *)
Lemma split_loop_call fuel pre rest insides args cur :
  cur <> [] ->
  inside (ch "(" :: rest) = Ok insides ->
  split_loop rec (S fuel) (pre ++ ch "(" :: rest) default_delimiter args cur
    false [] (length pre)
  = split_loop rec fuel (pre ++ ch "(" :: rest) default_delimiter args
      (cur ++ [ch "("] ++ insides) false []
      (length pre + length insides + 1).
Proof.
  intros Hcur Hinside. cbn [split_loop].
  rewrite index_in_range, char_at_index, slice_from_at, Hinside.
  destruct cur as [| y cur]; [contradiction |]. reflexivity.
Qed.
End SplitSteps.

(** After the comma that ends an argument, a second comma ends no empty
    argument: it is the first character of the next argument. *)
Theorem splitArguments_empty_argument (u w : jstring) :
  u <> [] ->
  Forall (fun c => plain_arg_char c = true) u ->
  Forall (fun c => plain_arg_char c = true) w ->
  splitArguments (u ++ js ",," ++ w) = Ok [AStr u; AStr (js "," ++ w)].
Proof.
  intros Hne Hu Hw. unfold splitArguments, splitArguments_with.
  cbn [splitArguments_fuel].
  set (rec := fun arr => splitArguments_fuel _ arr default_delimiter).
  change (u ++ js ",," ++ w) with (u ++ ch "," :: ch "," :: w).
  replace (length (u ++ ch "," :: ch "," :: w))
    with (length u + S (S (length w + 0)))
    by (rewrite length_app; cbn [length]; lia).
  pose proof (@split_loop_plain_run rec u (S (S (length w + 0))) []
                (ch "," :: ch "," :: w) [] [] Hu) as Hrun.
  cbn [app length] in Hrun. rewrite Hrun.
  rewrite split_loop_comma by assumption.
  rewrite (shift_char u (ch ",")), (next_index u (ch ",")).
  rewrite split_loop_leading_comma.
  rewrite (shift_char (u ++ [ch ","]) (ch ",")),
    (next_index (u ++ [ch ","]) (ch ",")).
  pose proof (@split_loop_plain_run rec w 0 ((u ++ [ch ","]) ++ [ch ","]) []
                ([] ++ [AStr (trim u)]) [ch ","] Hw) as Hrun'.
  rewrite !app_nil_r in Hrun'. rewrite Hrun'.
  rewrite split_loop_last; [| | discriminate].
  - rewrite trim_plain by assumption. reflexivity.
  - change (js "," ++ w) with (ch "," :: w).
    apply trim_kept; [reflexivity |].
    constructor; [reflexivity | apply plain_no_space; exact Hw].
Qed.

(** The theorem at [a,,b]. *)
Lemma splitArguments_empty_argument_witness :
  splitArguments (js "a,,b") = Ok [AStr (js "a"); AStr (js ",b")].
Proof.
  assert (Hne : js "a" <> []) by discriminate.
  assert (Hu : Forall (fun c => plain_arg_char c = true) (js "a"))
    by (repeat constructor).
  assert (Hw : Forall (fun c => plain_arg_char c = true) (js "b"))
    by (repeat constructor).
  exact (@splitArguments_empty_argument (js "a") (js "b") Hne Hu Hw).
Defined.

(** Two texts built of the same pieces. *)
Ltac text_length :=
  repeat first [rewrite length_app | progress cbn [length]]; lia.

Ltac same_text :=
  cbn [js list_ascii_of_string map];
  repeat first [rewrite <- app_assoc | progress cbn [app]];
  reflexivity.

Lemma escape_parens_prefix (a t : jstring) :
  Forall (fun c => c <> ch ")") a ->
  escape_parens (a ++ t) = a ++ escape_parens t.
Proof.
  induction 1 as [| c a Hc _ IH]; [reflexivity |].
  cbn [app]. rewrite escape_parens_other by assumption. rewrite IH.
  reflexivity.
Qed.

Lemma plain_arg_plain (c : N) : plain_arg_char c = true -> plain c = true.
Proof.
  intros Hc. apply plain_arg_char_cases in Hc as (Hq & Hb & Hp & _).
  unfold plain. rewrite Hq. cbn [orb].
  destruct (N.eqb_spec c (ch "\")); [contradiction |].
  destruct (N.eqb_spec c (ch "(")); [contradiction | reflexivity].
Qed.

(** In the parens of a call, [splitArguments] takes the text that [inside]
    returns and steps over as many characters as that text has.  [inside]
    drops the backslash of an escaped closing paren, so that the step is
    one short: the last character before the closing paren of the call is
    read a second time and appears twice in the argument. *)
Theorem splitArguments_escaped_paren_in_call (opname a b : jstring) (x : N) :
  opname <> [] ->
  Forall (fun c => plain_arg_char c = true) opname ->
  Forall (fun c => plain_arg_char c = true /\ c <> ch ")") a ->
  Forall (fun c => plain_arg_char c = true /\ c <> ch ")") (b ++ [x]) ->
  splitArguments (opname ++ js "(" ++ a ++ js "\)" ++ b ++ [x] ++ js ")")
  = Ok [AStr (opname ++ js "(" ++ a ++ js ")" ++ b ++ [x; x] ++ js ")")].
Proof.
  intros Hne Hname Ha Hb.
  set (s := a ++ ch ")" :: b ++ [x]).
  set (raw := a ++ ch "\" :: ch ")" :: b ++ [x]).
  assert (Hraw : escape_parens s = raw).
  { unfold s, raw. rewrite escape_parens_prefix
      by (eapply Forall_impl; [| exact Ha]; cbv beta; tauto).
    rewrite escape_parens_close. do 3 f_equal.
    rewrite <- (app_nil_r (b ++ [x])) at 1.
    rewrite escape_parens_prefix
      by (eapply Forall_impl; [| exact Hb]; cbv beta; tauto).
    apply app_nil_r. }
  assert (Hplain : Forall (fun c => plain c = true) s).
  { unfold s. apply Forall_app. split.
    - eapply Forall_impl; [| exact Ha]. intros c [Hc _].
      apply plain_arg_plain. exact Hc.
    - constructor; [reflexivity |].
      eapply Forall_impl; [| exact Hb]. intros c [Hc _].
      apply plain_arg_plain. exact Hc. }
  assert (Hinside : inside (ch "(" :: raw ++ [ch ")"]) = Ok s).
  { unfold inside, inside_with. rewrite <- Hraw.
    apply (@inside_loop_escape_parens s _ [ch "("] [] [] Hplain).
    cbn [length]. rewrite length_app. cbn [length]. lia. }
  assert (Hx : plain_arg_char x = true).
  { apply Forall_app in Hb as [_ Hb]. inversion Hb as [| ? ? [Hx _] _].
    exact Hx. }
  unfold splitArguments, splitArguments_with. cbn [splitArguments_fuel].
  set (rec := fun arr => splitArguments_fuel _ arr default_delimiter).
  replace (opname ++ js "(" ++ a ++ js "\)" ++ b ++ [x] ++ js ")")
    with (opname ++ ch "(" :: raw ++ [ch ")"])
    by (unfold raw; same_text).
  replace (length (opname ++ ch "(" :: raw ++ [ch ")"]))
    with (length opname + S (2 + (length a + length b + 2)))
    by (unfold raw; text_length).
  pose proof (@split_loop_plain_run rec opname
                (S (2 + (length a + length b + 2))) []
                (ch "(" :: raw ++ [ch ")"]) [] [] Hname) as Hrun.
  cbn [app length] in Hrun. rewrite Hrun. clear Hrun.
  rewrite (@split_loop_call rec _ _ _ _ _ _ Hne Hinside).
  set (pre := opname ++ ch "(" :: a ++ ch "\" :: ch ")" :: b).
  assert (Hstr : opname ++ ch "(" :: raw ++ [ch ")"]
                 = pre ++ [x; ch ")"] ++ []).
  { unfold pre, raw. same_text. }
  assert (Hidx : length opname + length s + 1 = length pre).
  { unfold s, pre. text_length. }
  rewrite Hstr, Hidx.
  assert (Hrun := @split_loop_plain_run rec [x; ch ")"]
                    (length a + length b + 2) pre [] []
                    (opname ++ [ch "("] ++ s)
                    ltac:(repeat constructor; assumption)).
  change (length [x; ch ")"]) with 2 in Hrun. rewrite Hrun. clear Hrun.
  assert (Hend : length (pre ++ [x; ch ")"])
                 = length (pre ++ [x; ch ")"] ++ []))
    by (rewrite app_nil_r; reflexivity).
  rewrite Hend.
  destruct opname as [| c opname']; [contradiction |].
  rewrite split_loop_last; [| | discriminate].
  - cbn [app]. do 3 f_equal. unfold s. same_text.
  - inversion Hname as [| ? ? Hc Hname']; subst.
    assert (Hns_c : is_js_space c = false)
      by (apply plain_arg_char_cases in Hc; tauto).
    assert (Hns_x : is_js_space x = false)
      by (apply plain_arg_char_cases in Hx; tauto).
    assert (Hns_name : Forall (fun y => is_js_space y = false) opname')
      by (apply plain_no_space; exact Hname').
    assert (Hns_a : Forall (fun y => is_js_space y = false) a).
    { eapply Forall_impl; [| exact Ha]. intros y [Hy _].
      apply plain_arg_char_cases in Hy. tauto. }
    assert (Hns_b : Forall (fun y => is_js_space y = false) (b ++ [x])).
    { eapply Forall_impl; [| exact Hb]. intros y [Hy _].
      apply plain_arg_char_cases in Hy. tauto. }
    cbn [app]. apply trim_kept; [apply plain_arg_char_cases in Hc; tauto |].
    unfold s.
    repeat first [ assumption
                 | apply Forall_nil
                 | apply Forall_app; split
                 | apply Forall_cons; [first [assumption | reflexivity] |] ].
Qed.

(** The theorem at [eq(a\)b)]. *)
Lemma splitArguments_escaped_paren_in_call_witness :
  splitArguments (js "eq(a\)b)") = Ok [AStr (js "eq(a)bb)")].
Proof.
  assert (Hne : js "eq" <> []) by discriminate.
  assert (Hname : Forall (fun c => plain_arg_char c = true) (js "eq"))
    by (repeat constructor).
  assert (Ha : Forall (fun c => plain_arg_char c = true /\ c <> ch ")")
                      (js "a"))
    by (repeat constructor; discriminate).
  assert (Hb : Forall (fun c => plain_arg_char c = true /\ c <> ch ")")
                      ([] ++ [ch "b"]))
    by (repeat constructor; discriminate).
  exact (@splitArguments_escaped_paren_in_call (js "eq") (js "a") []
           (ch "b") Hne Hname Ha Hb).
Defined.

(* ===================================================================== *)
(** ** Tags that the object of the converters inherits *)
(* ===================================================================== *)

(** The converter of a tag is looked up in an object, which inherits the
    properties of [Object.prototype]: the tag [constructor] finds the
    function [Object], which wraps the text in a [String] object, and the
    tag [__proto__] finds an object that is no function, so that the call
    throws a TypeError; neither is a parse error. *)
Theorem stringToValue_inherited_keys (B : Builtins) (v : jstring) :
  stringToValue B (js "constructor:" ++ v)
  = Ok (VStringObject (replace_first v (js "\:") (js ":")))
  /\ stringToValue B (js "__proto__:" ++ v) = Err TypeError.
Proof.
  split.
  - change (js "constructor:" ++ v) with (js "constructor" ++ js ":" ++ v).
    rewrite stringToValue_tag by (vm_compute; repeat constructor; lia).
    reflexivity.
  - change (js "__proto__:" ++ v) with (js "__proto__" ++ js ":" ++ v).
    rewrite stringToValue_tag by (vm_compute; repeat constructor; lia).
    reflexivity.
Qed.

(* ===================================================================== *)
(** ** A group that is not closed *)
(* ===================================================================== *)

Lemma inside_loop_end fuel (s : jstring) acc count :
  inside_loop fuel s default_delimiter acc count (length s) false []
  = Err no_closing_paren.
Proof. destruct fuel; cbn [inside_loop]; rewrite index_at_end; reflexivity. Qed.

(** The scan of a text whose parens never close the first group. *)
Lemma inside_loop_never_closes (s : jstring) :
  forall depth fuel pre acc,
    Forall (fun c => unquoted c = true) s ->
    never_closes depth s = true ->
    inside_loop fuel (pre ++ s) default_delimiter acc
      (Z.of_nat depth + 1) (length pre) false []
    = Err no_closing_paren
    \/ inside_loop fuel (pre ++ s) default_delimiter acc
         (Z.of_nat depth + 1) (length pre) false []
       = Err OutOfFuel.
Proof.
  induction s as [| c s IH]; intros depth fuel pre acc Hs Hnever.
  - left. rewrite app_nil_r. apply inside_loop_end.
  - inversion Hs as [| ? ? Hc Hs']; subst.
    destruct fuel as [| fuel].
    { right. cbn [inside_loop]. rewrite index_in_range. reflexivity. }
    cbn [never_closes] in Hnever.
    destruct (N.eqb_spec c (ch "(")) as [-> | Hopen].
    + rewrite inside_loop_open.
      rewrite (shift_char pre), (next_index pre (ch "(")).
      replace (Z.of_nat depth + 1 + 1)%Z with (Z.of_nat (S depth) + 1)%Z by lia.
      apply IH; assumption.
    + destruct (N.eqb_spec c (ch ")")) as [-> | Hclose].
      * destruct depth as [| depth]; [discriminate Hnever |].
        rewrite inside_loop_inner_close by lia.
        rewrite (shift_char pre), (next_index pre (ch ")")).
        replace (Z.of_nat (S depth) + 1 - 1)%Z with (Z.of_nat depth + 1)%Z by lia.
        apply IH; assumption.
      * rewrite inside_loop_plain_char
          by (try apply unquoted_plain; assumption).
        rewrite (shift_char pre), (next_index pre c).
        apply IH; assumption.
Qed.

Lemma inside_never_closes (c : N) (s : jstring) :
  Forall (fun c => unquoted c = true) s ->
  never_closes 0 s = true ->
  inside (c :: s) = Err no_closing_paren.
Proof.
  intros Hs Hnever.
  destruct (@inside_loop_never_closes s 0 (length (c :: s)) [c] [] Hs Hnever)
    as [H | H]; [exact H |].
  exfalso. exact (inside_fuel (c :: s) H).
Qed.

(** [inside] throws its parse error when the group that the first
    character opens is not closed: the text holds no quote and no
    backslash, and each closing paren of it closes a group opened after the
    first character. *)
Theorem inside_unclosed_group (s : jstring) :
  Forall (fun c => unquoted c = true) s ->
  never_closes 0 s = true ->
  inside (js "(" ++ s) = Err no_closing_paren.
Proof. intros Hs Hnever. apply inside_never_closes; assumption. Qed.

(** The theorem at a call whose closing paren is missing. *)
Lemma inside_unclosed_group_witness :
  inside (js "(a,(b,c),d") = Err no_closing_paren.
Proof.
  assert (Hs : Forall (fun c => unquoted c = true) (js "a,(b,c),d"))
    by (repeat constructor).
  assert (Hnever : never_closes 0 (js "a,(b,c),d") = true) by reflexivity.
  exact (inside_unclosed_group Hs Hnever).
Defined.

(** [walkQuery] throws the parse error of [inside] for a call whose
    closing paren is missing, whatever the name of the operator. *)
Theorem walkQuery_unclosed_call (B : Builtins) (opname s : jstring) :
  Forall (fun c => operator_char c = true) opname ->
  Forall (fun c => unquoted c = true) s ->
  never_closes 0 s = true ->
  walkQuery B (opname ++ js "(" ++ s) = Err no_closing_paren.
Proof.
  intros Hname Hs Hnever.
  unfold walkQuery. cbn [walkQuery_fuel]. unfold walkQuery_at.
  change (opname ++ js "(" ++ s) with (opname ++ ch "(" :: s).
  set (rec := fun a : jstring => _).
  replace (length (opname ++ ch "(" :: s))
    with (length opname + S (length s))
    by (rewrite length_app; reflexivity).
  pose proof (@walk_loop_name B rec opname (S (length s)) []
                (ch "(" :: s) empty_operator None Hname) as Hrun.
  cbn [app length] in Hrun. rewrite Hrun.
  cbn [walk_loop]. rewrite index_in_range, char_at_index, slice_from_at.
  rewrite inside_never_closes by assumption. reflexivity.
Qed.

(** The theorem at [eq(a,b]. *)
Lemma walkQuery_unclosed_call_witness :
  walkQuery no_runtime (js "eq(a,b") = Err no_closing_paren.
Proof.
  assert (Hname : Forall (fun c => operator_char c = true) (js "eq"))
    by (repeat constructor).
  assert (Hs : Forall (fun c => unquoted c = true) (js "a,b"))
    by (repeat constructor).
  assert (Hnever : never_closes 0 (js "a,b") = true) by reflexivity.
  exact (walkQuery_unclosed_call no_runtime Hname Hs Hnever).
Defined.

(** The theorem of the alphabet of [encodeString] at a string with a space
    and an ampersand. *)
Lemma encodeString_alphabet_witness :
  Forall (fun c => (uri_unreserved c || N.eqb c (ch "%")) = true)
         (js "a%20b%26c")
  /\ forall c, In c (js "a%20b%26c") ->
       one_of "&|,:\=<> " c = false /\ c <> dquote /\ is_js_space c = false.
Proof.
  assert (Hunits : Forall (fun c => (c < 65536)%N) (js "a b&c"))
    by (repeat constructor).
  assert (He : encodeString (js "a b&c") = Ok (js "a%20b%26c")) by reflexivity.
  exact (encodeString_alphabet Hunits He).
Defined.

(* ===================================================================== *)
(** ** The tag [RE] *)
(* ===================================================================== *)

Lemma word_is_ascii (w : jstring) :
  Forall (fun c => is_word c = true) w -> is_ascii w = true.
Proof.
  intros Hw. unfold is_ascii. apply forallb_forall. intros c Hc.
  rewrite Forall_forall in Hw. specialize (Hw c Hc).
  apply N.ltb_lt.
  unfold is_word, is_digit, is_upper, is_lower, in_range in Hw.
  repeat rewrite ?orb_true_iff, ?andb_true_iff, ?N.leb_le, ?N.eqb_eq in Hw.
  cbn in Hw. lia.
Qed.

Lemma converters_get_RE (key : jstring) :
  converters_get key = Some conv_RE -> key = js "RE".
Proof.
  unfold converters_get.
  repeat match goal with
         | |- context [str_eqb key ?k] =>
             destruct (str_eqb key k) eqn:?E;
             [first [discriminate | intros _; apply str_eqb_eq; exact E] |
              clear E]
         end.
  discriminate.
Qed.

(** The tag of a converter is looked up in lower case, and the key of the
    converter of case-sensitive regular expressions is [RE], in capitals:
    the tag [RE:] selects the converter [re], which ignores case, and no
    tag at all selects [RE]. *)
Theorem stringToValue_RE_tag (B : Builtins) (v : jstring) :
  stringToValue B (js "RE:" ++ v)
  = regexp B true (replace_first v (js "\:") (js ":"))
  /\ (forall w, Forall (fun c => is_word c = true) w ->
                converters_get (toLowerCase B w) <> Some conv_RE).
Proof.
  split.
  - change (js "RE:" ++ v) with (js "RE" ++ js ":" ++ v).
    rewrite stringToValue_tag by (vm_compute; repeat constructor; lia).
    reflexivity.
  - intros w Hw Hget. apply converters_get_RE in Hget.
    unfold toLowerCase in Hget. rewrite (word_is_ascii Hw) in Hget.
    destruct w as [| a w]; [discriminate Hget |].
    cbn [map] in Hget. injection Hget as Ha _.
    destruct (is_upper a) eqn:Hup.
    + unfold is_upper, in_range in Hup.
      apply andb_true_iff in Hup as [H1 H2]. apply N.leb_le in H1, H2.
      cbn in H1, H2, Ha. lia.
    + subst a. discriminate Hup.
Qed.

(** A regular expression that does not ignore case is written with the tag
    [RE:] by [encodeValue], and whatever [stringToValue] makes of that text
    is a regular expression that ignores case. *)
Theorem encodeValue_regexp_case_lost (B : Builtins) (pattern e : jstring)
        (r : value) :
  encodeValue B (VRegExp pattern false) = Ok (VStr e) ->
  stringToValue B e = Ok r ->
  exists pattern', r = VRegExp pattern' true.
Proof.
  intros He Hr. unfold encodeValue, encodeValue_of in He.
  cbn [toString toString_leaf bind] in He.
  destruct (auto B _) as [conv | err]; [| discriminate He].
  cbn [bind] in He.
  replace (strict_eqb (VRegExp pattern false) conv) with false in He
    by (destruct conv; reflexivity).
  cbn [negb] in He.
  destruct (encodeString (RegExp_source B pattern)) as [enc | err];
    [| discriminate He].
  cbn [bind] in He. injection He as <-.
  change (stringToValue B _)
    with (stringToValue B (js "RE" ++ js ":" ++ enc)) in Hr.
  rewrite stringToValue_tag in Hr by (vm_compute; repeat constructor; lia).
  change (converters_get (toLowerCase B (js "RE"))) with (Some conv_re) in Hr.
  cbn [convert] in Hr. unfold regexp in Hr.
  destruct (string_ _) as [decoded | err]; [| discriminate Hr].
  destruct (RegExp_error B decoded); [discriminate Hr |].
  injection Hr as <-. exists decoded. reflexivity.
Qed.

(** The theorem at the regular expression [/foo/]. *)
Lemma encodeValue_regexp_case_lost_witness :
  encodeValue no_runtime (VRegExp (js "foo") false) = Ok (VStr (js "RE:foo"))
  /\ stringToValue no_runtime (js "RE:foo") = Ok (VRegExp (js "foo") true)
  /\ exists pattern', VRegExp (js "foo") true = VRegExp pattern' true.
Proof.
  assert (He : encodeValue no_runtime (VRegExp (js "foo") false)
               = Ok (VStr (js "RE:foo"))) by reflexivity.
  assert (Hr : stringToValue no_runtime (js "RE:foo")
               = Ok (VRegExp (js "foo") true)) by reflexivity.
  split; [exact He | split; [exact Hr |]].
  exact (encodeValue_regexp_case_lost no_runtime (js "foo") He Hr).
Defined.

(* ===================================================================== *)
(** ** [splitArguments]: quoted runs in a list of arguments *)
(* ===================================================================== *)

(** The loop on the pieces of one argument: bare text is appended, and so is
    the text of a quoted run, without the two quotes. *)
Lemma split_loop_pieces (rec : jstring -> result (list arg)) (ps : list piece) :
  forall fuel pre tail args cur,
    forallb piece_ok ps = true ->
    split_loop rec (length (written ps) + fuel) (pre ++ written ps ++ tail)
      default_delimiter args cur false [] (length pre)
    = split_loop rec fuel (pre ++ written ps ++ tail) default_delimiter args
        (cur ++ buffered ps) false [] (length (pre ++ written ps)).
Proof.
  induction ps as [| p ps IH]; intros fuel pre tail args cur Hps.
  - cbn [written buffered flat_map length app Nat.add]. rewrite !app_nil_r.
    reflexivity.
  - cbn [forallb] in Hps. apply andb_true_iff in Hps as [Hp Hps].
    unfold written, buffered in *. cbn [flat_map].
    rewrite length_app, <- Nat.add_assoc, <- !app_assoc.
    destruct p as [text | q text]; cbn [piece_ok piece_src piece_text] in *.
    + rewrite forallb_forall in Hp.
      assert (Htext : Forall (fun c => plain_arg_char c = true) text)
        by (apply Forall_forall; exact Hp).
      rewrite split_loop_plain_run by assumption.
      rewrite (app_assoc pre text).
      rewrite IH by assumption.
      rewrite <- !app_assoc. reflexivity.
    + apply andb_true_iff in Hp as [Hq Hp].
      assert (Htext : Forall (fun c => c <> q) text).
      { apply Forall_forall. intros c Hc.
        rewrite forallb_forall in Hp. specialize (Hp c Hc).
        apply negb_true_iff, N.eqb_neq in Hp. exact Hp. }
      rewrite <- !app_assoc. cbn [app length Nat.add].
      rewrite (@split_loop_open_quote rec q Hq).
      rewrite (shift_char pre q), (next_index pre q).
      rewrite length_app, <- Nat.add_assoc.
      rewrite (@split_loop_quoted_run rec q Hq text) by assumption.
      cbn [length Nat.add].
      rewrite (app_assoc (pre ++ [q]) text).
      rewrite (@split_loop_close_quote rec q Hq).
      rewrite (shift_char _ q), (next_index _ q).
      rewrite IH by assumption.
      rewrite <- !app_assoc. reflexivity.
Qed.

(** The loop on a list of arguments made of pieces: at each comma the
    buffer is pushed, trimmed, and emptied. *)
Lemma split_loop_piece_list (rec : jstring -> result (list arg))
      (items : list (list piece)) (last : list piece) :
  forall fuel pre args,
    Forall (fun ps => forallb piece_ok ps = true /\ buffered ps <> []) items ->
    forallb piece_ok last = true ->
    length (comma_list items last) <= fuel ->
    split_loop rec fuel (pre ++ comma_list items last) default_delimiter
      args [] false [] (length pre)
    = Ok (args ++ map (fun ps => AStr (trim (buffered ps))) items
          ++ (if 0 <? length (String_trim (buffered last))
              then [AStr (trim (buffered last))] else [])).
Proof.
  induction items as [| ps items IH]; intros fuel pre args Hitems Hlast Hfuel;
    unfold comma_list in *.
  - cbn [flat_map app map] in *.
    replace fuel with (length (written last) + (fuel - length (written last)))
      by lia.
    pose proof (@split_loop_pieces rec last (fuel - length (written last)) pre
                  [] args [] Hlast) as Hrun.
    rewrite !app_nil_r in Hrun. cbn [app] in Hrun. rewrite Hrun.
    rewrite split_loop_end.
    destruct (0 <? length (String_trim (buffered last)));
      [reflexivity | rewrite app_nil_r; reflexivity].
  - inversion Hitems as [| ? ? [Hps Hne] Hitems']; subst.
    cbn [flat_map map] in *. change (js ",") with [ch ","] in *.
    rewrite <- !app_assoc in *.
    rewrite length_app in Hfuel. cbn [app length] in Hfuel.
    replace fuel with (length (written ps) + S (fuel - length (written ps) - 1))
      by lia.
    rewrite (@split_loop_pieces rec ps _ pre _ args [] Hps).
    cbn [app].
    rewrite (app_assoc pre (written ps)).
    rewrite split_loop_comma by assumption.
    rewrite (shift_char (pre ++ written ps)),
      (next_index (pre ++ written ps) (ch ",")).
    rewrite IH by (assumption || lia).
    rewrite <- app_assoc. reflexivity.
Qed.

(** C10: outside parens, [splitArguments] appends neither the quote that
    opens a run nor the quote that closes it.  At a quote character outside
    a run, one turn of the loop opens the run and leaves the buffer as it
    is, whatever the buffer holds and wherever the quote stands; in a run
    opened by [q], one turn at [q] closes the run and leaves the buffer as
    it is.  The buffer is trimmed when it is pushed: for a list of arguments
    written as pieces, bare text and quoted runs, each argument but the last
    followed by a comma and holding a character, the result is the [trim]
    of the text of each argument without the quotes of its runs; the last
    argument is pushed when it is more than white space.  White space inside
    quotes is thus removed as well: [splitArguments('" foo"')] is [["foo"]]
    and [splitArguments('a," b ",c')] is [["a","b","c"]]. *)
Theorem splitArguments_strips_quotes :
  (forall rec q fuel pre tail args cur,
      is_quote q = true ->
      split_loop rec (S fuel) (pre ++ q :: tail) default_delimiter args cur
        false [] (length pre)
      = split_loop rec fuel (pre ++ q :: tail) default_delimiter args cur
          false [q] (length pre + 1))
  /\ (forall rec q fuel pre tail args cur,
         is_quote q = true ->
         split_loop rec (S fuel) (pre ++ q :: tail) default_delimiter args cur
           false [q] (length pre)
         = split_loop rec fuel (pre ++ q :: tail) default_delimiter args cur
             false [] (length pre + 1))
  /\ (forall items last,
         Forall (fun ps => forallb piece_ok ps = true /\ buffered ps <> [])
                items ->
         forallb piece_ok last = true ->
         splitArguments (comma_list items last)
         = Ok (map (fun ps => AStr (trim (buffered ps))) items
               ++ (if 0 <? length (String_trim (buffered last))
                   then [AStr (trim (buffered last))] else [])))
  /\ splitArguments (jsq "` foo`") = Ok [AStr (js "foo")]
  /\ splitArguments (jsq "a,` b `,c")
     = Ok [AStr (js "a"); AStr (js "b"); AStr (js "c")].
Proof.
  split; [| split; [| split; [| split; vm_compute; reflexivity]]].
  - intros rec q fuel pre tail args cur Hq. apply split_loop_open_quote.
    exact Hq.
  - intros rec q fuel pre tail args cur Hq. apply split_loop_close_quote.
    exact Hq.
  - intros items last Hitems Hlast.
    unfold splitArguments, splitArguments_with. cbn [splitArguments_fuel].
    apply (@split_loop_piece_list _ items last _ [] [] Hitems Hlast). lia.
Qed.

(** The theorem at three arguments: bare text; a run after bare text, then
    bare text, then a run that holds a comma; a run that holds single
    quotes and ends in a space. *)
Lemma splitArguments_strips_quotes_witness :
  splitArguments (jsq "a,x` b `y`,`,`'c' `")
  = Ok [AStr (js "a"); AStr (js "x b y,"); AStr (js "c")].
Proof.
  assert (Hitems :
            Forall (fun ps => forallb piece_ok ps = true /\ buffered ps <> [])
              [[Bare (js "a")];
               [Bare (js "x"); Quoted dquote (js " b "); Bare (js "y");
                Quoted dquote (js ",")]]).
  { repeat constructor; discriminate. }
  assert (Hlast : forallb piece_ok [Quoted dquote (js "'c' ")] = true)
    by reflexivity.
  exact (proj1 (proj2 (proj2 splitArguments_strips_quotes)) _ _ Hitems Hlast).
Defined.

(* ===================================================================== *)
(** ** The scanner on a group without escape *)
(* ===================================================================== *)

(** The scan of a text that holds no escape and closes what it opens, and
    of the closing paren after it: the text comes back whole. *)
Lemma inside_loop_group_text (s : jstring) :
  forall depth quote fuel pre tail acc,
    (forall q, quote = Some q -> is_quote q = true) ->
    group_text depth quote s = true ->
    length s < fuel ->
    inside_loop fuel (pre ++ s ++ ch ")" :: tail) default_delimiter acc
      (Z.of_nat depth + 1) (length pre) false (quote_state quote)
    = Ok (acc ++ s).
Proof.
  induction s as [| c s IH]; intros depth quote fuel pre tail acc Hq Hs Hfuel.
  - cbn [group_text] in Hs. destruct quote; [discriminate Hs |].
    apply Nat.eqb_eq in Hs. subst depth.
    cbn [app length quote_state]. destruct fuel as [| fuel]; [lia |].
    rewrite inside_loop_close, app_nil_r. reflexivity.
  - cbn [length] in Hfuel. destruct fuel as [| fuel]; [lia |].
    cbn [group_text] in Hs. cbn [app].
    destruct quote as [q |]; cbn [quote_state].
    + pose proof (Hq q eq_refl) as Hquote.
      destruct (N.eqb_spec c q) as [-> | Hne].
      * rewrite (@inside_loop_quote fuel pre q _ acc _ [q] [] Hquote) by auto.
        rewrite (shift_char pre), (next_index pre q).
        rewrite (IH depth None) by (assumption || lia || discriminate).
        rewrite <- app_assoc. reflexivity.
      * rewrite inside_loop_quoted_char by assumption.
        rewrite (shift_char pre), (next_index pre c).
        rewrite (IH depth (Some q)) by (assumption || lia).
        rewrite <- app_assoc. reflexivity.
    + destruct (N.eqb_spec c (ch "\")) as [-> | Hesc]; [discriminate Hs |].
      destruct (is_quote c) eqn:Hquote.
      * rewrite (@inside_loop_quote fuel pre c _ acc _ [] [c] Hquote) by auto.
        rewrite (shift_char pre), (next_index pre c).
        rewrite (IH depth (Some c)); [| | assumption | lia].
        -- rewrite <- app_assoc. reflexivity.
        -- intros q E. injection E as <-. exact Hquote.
      * assert (Hc : unquoted c = true).
        { unfold unquoted. rewrite Hquote.
          destruct (N.eqb_spec c (ch "\")); [contradiction | reflexivity]. }
        destruct (N.eqb_spec c (ch "(")) as [-> | Hopen].
        -- rewrite inside_loop_open.
           rewrite (shift_char pre), (next_index pre (ch "(")).
           replace (Z.of_nat depth + 1 + 1)%Z with (Z.of_nat (S depth) + 1)%Z
             by lia.
           rewrite (IH (S depth) None) by (assumption || lia).
           rewrite <- app_assoc. reflexivity.
        -- destruct (N.eqb_spec c (ch ")")) as [-> | Hclose].
           ++ destruct depth as [| depth]; [discriminate Hs |].
              rewrite inside_loop_inner_close by lia.
              rewrite (shift_char pre), (next_index pre (ch ")")).
              replace (Z.of_nat (S depth) + 1 - 1)%Z
                with (Z.of_nat depth + 1)%Z by lia.
              rewrite (IH depth None) by (assumption || lia).
              rewrite <- app_assoc. reflexivity.
           ++ rewrite inside_loop_plain_char
                by (try apply unquoted_plain; assumption).
              rewrite (shift_char pre), (next_index pre c).
              rewrite (IH depth None) by (assumption || lia).
              rewrite <- app_assoc. reflexivity.
Qed.

Lemma inside_group_text (s tail : jstring) :
  group_text 0 None s = true ->
  inside (ch "(" :: s ++ ch ")" :: tail) = Ok s.
Proof.
  intros Hs. unfold inside, inside_with.
  apply (@inside_loop_group_text s 0 None _ [ch "("] tail []);
    [discriminate | assumption |].
  cbn [length]. rewrite length_app. cbn [length]. lia.
Qed.

(* ===================================================================== *)
(** ** The walker on a query as it is written *)
(* ===================================================================== *)

Lemma bind_Ok {X} (r : result X) : (x <- r ;; Ok x) = r.
Proof. destruct r; reflexivity. Qed.

Lemma mapM_length {X Y} (f : X -> result Y) (l : list X) :
  forall out, mapM f l = Ok out -> length out = length l.
Proof.
  induction l as [| x l IH]; intros out H; cbn [mapM] in H.
  - injection H as <-. reflexivity.
  - destruct (f x) as [y | e]; [| discriminate H]. cbn [bind] in H.
    destruct (mapM f l) as [ys | e]; [| discriminate H]. cbn [bind] in H.
    injection H as <-. cbn [length]. rewrite (IH ys eq_refl). reflexivity.
Qed.

Lemma mapM_app {X Y} (f : X -> result Y) (l1 l2 : list X) :
  mapM f (l1 ++ l2)
  = (a <- mapM f l1 ;; b <- mapM f l2 ;; Ok (a ++ b)).
Proof.
  induction l1 as [| x l1 IH]; cbn [app mapM bind].
  - rewrite bind_Ok. reflexivity.
  - destruct (f x) as [y | e]; [| reflexivity]. cbn [bind]. rewrite IH.
    destruct (mapM f l1) as [ys | e]; [| reflexivity]. cbn [bind].
    destruct (mapM f l2) as [zs | e]; reflexivity.
Qed.

(** Fuel beyond the length of the text left changes nothing. *)
Lemma toplevel_fuel (r : arg -> result value) (query : jstring) (fuel : nat) :
  forall fuel' index,
    length query <= index + fuel -> length query <= index + fuel' ->
    toplevel r fuel query index = toplevel r fuel' query index.
Proof.
  induction fuel as [| fuel IH]; intros fuel' index Hf Hf';
    destruct fuel' as [| fuel']; cbn [toplevel];
    destruct (index <? length query) eqn:Hlt; try reflexivity;
    apply Nat.ltb_lt in Hlt; try lia.
  destruct (is_joiner _).
  { rewrite (IH fuel') by lia. reflexivity. }
  destruct (N.eqb _ _).
  - destruct (inside _) as [insides | e]; [| reflexivity]. cbn [bind].
    destruct (splitArguments _) as [split | e]; [| reflexivity]. cbn [bind].
    destruct (mapM r split) as [parsed | e]; [| reflexivity]. cbn [bind].
    rewrite (IH fuel') by lia. reflexivity.
  - rewrite (IH fuel') by lia. reflexivity.
Qed.

Section ScanText.
Variable r : arg -> result value.

Lemma toplevel_joiner fuel pre j tail :
  is_joiner j = true ->
  length (pre ++ j :: tail) <= fuel ->
  toplevel r fuel (pre ++ j :: tail) (length pre)
  = (rest <- toplevel r fuel (pre ++ j :: tail) (length (pre ++ [j])) ;;
     Ok (TJoin j :: rest)).
Proof.
  intros Hj Hfuel. rewrite <- next_index.
  rewrite length_app in Hfuel. cbn [length] in Hfuel.
  destruct fuel as [| fuel]; [lia |].
  cbn [toplevel]. rewrite index_in_range, char_at_index, Hj.
  rewrite (@toplevel_fuel r _ fuel (S fuel))
    by (rewrite length_app; cbn [length]; lia).
  cbn [toplevel]. reflexivity.
Qed.

Lemma toplevel_name_char fuel pre c tail :
  operator_char c = true ->
  length (pre ++ c :: tail) <= fuel ->
  toplevel r fuel (pre ++ c :: tail) (length pre)
  = (rest <- toplevel r fuel (pre ++ c :: tail) (length (pre ++ [c])) ;;
     Ok (TName c :: rest)).
Proof.
  intros Hc Hfuel. rewrite <- next_index.
  rewrite length_app in Hfuel. cbn [length] in Hfuel.
  destruct fuel as [| fuel]; [lia |].
  unfold operator_char in Hc. apply negb_true_iff, orb_false_iff in Hc.
  destruct Hc as [Hj Hopen].
  cbn [toplevel]. rewrite index_in_range, char_at_index, Hj, Hopen.
  rewrite (@toplevel_fuel r _ fuel (S fuel))
    by (rewrite length_app; cbn [length]; lia).
  cbn [toplevel]. reflexivity.
Qed.

Lemma toplevel_name (w : jstring) :
  forall fuel pre tail,
    Forall (fun c => operator_char c = true) w ->
    length (pre ++ w ++ tail) <= fuel ->
    toplevel r fuel (pre ++ w ++ tail) (length pre)
    = (rest <- toplevel r fuel (pre ++ w ++ tail) (length (pre ++ w)) ;;
       Ok (map TName w ++ rest)).
Proof.
  induction w as [| c w IH]; intros fuel pre tail Hw Hfuel.
  - rewrite app_nil_r. cbn [map app]. rewrite bind_Ok. reflexivity.
  - inversion Hw as [| ? ? Hc Hw']; subst. cbn [app] in *.
    rewrite toplevel_name_char by assumption.
    rewrite (shift_char pre).
    rewrite IH by (try assumption; rewrite <- app_assoc; exact Hfuel).
    rewrite <- !app_assoc. cbn [app map].
    destruct (toplevel _ _ _ _); reflexivity.
Qed.

(** On a group without escape the index of the walker lands after the
    closing paren of the group. *)
Lemma toplevel_group fuel pre inner tail :
  group_text 0 None inner = true ->
  length (pre ++ ch "(" :: inner ++ ch ")" :: tail) <= fuel ->
  toplevel r fuel (pre ++ ch "(" :: inner ++ ch ")" :: tail) (length pre)
  = (split <- splitArguments inner ;;
     parsed <- mapM r split ;;
     rest <- toplevel r fuel (pre ++ ch "(" :: inner ++ ch ")" :: tail)
               (length (pre ++ ch "(" :: inner ++ [ch ")"])) ;;
     Ok (TArgs parsed :: rest)).
Proof.
  intros Hinner Hfuel.
  assert (Hlen : length (pre ++ ch "(" :: inner ++ [ch ")"])
                 = length pre + (length inner + 1) + 1).
  { rewrite length_app. cbn [length]. rewrite length_app. cbn [length]. lia. }
  rewrite Hlen.
  rewrite length_app in Hfuel. cbn [length] in Hfuel.
  destruct fuel as [| fuel]; [lia |].
  cbn [toplevel]. rewrite index_in_range, char_at_index.
  replace (is_joiner (ch "(")) with false by reflexivity.
  replace (N.eqb (ch "(") (ch "(")) with true by reflexivity.
  rewrite slice_from_at, (@inside_group_text inner tail Hinner). cbn [bind].
  destruct (splitArguments inner) as [split | e]; [| reflexivity]. cbn [bind].
  destruct (mapM r split) as [parsed | e]; [| reflexivity]. cbn [bind].
  rewrite (@toplevel_fuel r _ fuel (S fuel))
    by (rewrite length_app; cbn [length]; lia).
  cbn [toplevel]. reflexivity.
Qed.

Lemma toplevel_end fuel (query : jstring) :
  toplevel r fuel query (length query) = Ok [].
Proof. destruct fuel; cbn [toplevel]; rewrite index_at_end; reflexivity. Qed.

Lemma toplevel_call (c : call) fuel pre tail :
  plain_call c = true ->
  length (pre ++ call_src c ++ tail) <= fuel ->
  toplevel r fuel (pre ++ call_src c ++ tail) (length pre)
  = (o <- call_operator r c ;;
     rest <- toplevel r fuel (pre ++ call_src c ++ tail)
               (length (pre ++ call_src c)) ;;
     Ok (call_tokens o ++ rest)).
Proof.
  intros Hc Hfuel. unfold plain_call in Hc.
  apply andb_true_iff in Hc as [Hname Hinner].
  assert (Hw : Forall (fun x => operator_char x = true) (call_name c))
    by (apply Forall_forall; apply forallb_forall; exact Hname).
  unfold call_src in *. change (js "(") with [ch "("] in *.
  change (js ")") with [ch ")"] in *.
  rewrite <- !app_assoc in *. cbn [app] in *.
  rewrite toplevel_name by assumption.
  rewrite (app_assoc pre (call_name c)).
  rewrite toplevel_group
    by (try assumption; rewrite <- app_assoc; exact Hfuel).
  unfold call_operator.
  destruct (splitArguments (call_inner c)) as [split | e]; [| reflexivity].
  cbn [bind].
  destruct (mapM r split) as [parsed | e]; [| reflexivity]. cbn [bind].
  rewrite <- !app_assoc. cbn [app].
  unfold call_tokens. cbn [name args].
  destruct (toplevel _ _ _ _) as [rest | e]; [| reflexivity].
  cbn [bind]. rewrite <- app_assoc. reflexivity.
Qed.

Lemma toplevel_joined (more : list (N * call)) :
  forall fuel pre,
    Forall (fun jc => is_joiner (fst jc) = true /\ plain_call (snd jc) = true)
           more ->
    length (pre ++ joined more) <= fuel ->
    toplevel r fuel (pre ++ joined more) (length pre)
    = (ops <- mapM (call_operator r) (map snd more) ;;
       Ok (joined_tokens (map fst more) ops)).
Proof.
  induction more as [| [j c] more IH]; intros fuel pre Hmore Hfuel.
  - cbn [joined map mapM bind]. rewrite app_nil_r. apply toplevel_end.
  - inversion Hmore as [| ? ? [Hj Hc] Hmore']; subst. cbn [fst snd] in *.
    cbn [joined map mapM fst snd] in *.
    rewrite toplevel_joiner by assumption.
    rewrite (shift_char pre).
    rewrite toplevel_call
      by (try assumption; rewrite <- app_assoc; exact Hfuel).
    destruct (call_operator r c) as [o | e]; [| reflexivity]. cbn [bind].
    rewrite (app_assoc (pre ++ [j])).
    rewrite IH
      by (try assumption; rewrite <- !app_assoc; exact Hfuel).
    destruct (mapM (call_operator r) (map snd more)) as [ops | e];
      reflexivity.
Qed.
End ScanText.

Lemma call_src_length (c : call) :
  length (call_src c) = length (call_name c) + S (S (length (call_inner c))).
Proof.
  unfold call_src. rewrite !length_app.
  change (length (js "(")) with 1. change (length (js ")")) with 1. lia.
Qed.

Lemma joined_inner_length (more : list (N * call)) :
  forall pre,
    Forall (fun c => length (call_inner c) < length (pre ++ joined more))
           (map snd more).
Proof.
  induction more as [| [j c] more IH]; intros pre; cbn [map joined snd].
  - constructor.
  - constructor.
    + rewrite length_app. cbn [length]. rewrite length_app, call_src_length.
      lia.
    + specialize (IH (pre ++ j :: call_src c)).
      rewrite <- app_assoc in IH. exact IH.
Qed.

(** The arguments of a call of [query] are resolved as [parseArg] resolves
    them. *)
Lemma call_operator_top (B : Builtins) (query : jstring) (c : call) :
  length (call_inner c) < length query ->
  call_operator (parseArg_of B query) c = call_operator (parseArg_top B) c.
Proof.
  intros Hlen. unfold call_operator.
  destruct (splitArguments (call_inner c)) as [split | e] eqn:Hsplit;
    [| reflexivity].
  cbn [bind].
  rewrite (@parseArg_of_top B query split (length (call_inner c)))
    by (try apply splitArguments_strings; assumption).
  reflexivity.
Qed.

(** [walkQuery] on a query of calls without escape: the operators of the
    calls are made in the order of the text, and the walker runs on their
    names, their arguments and the joiners between them. *)
Lemma walkQuery_query_text (B : Builtins) (first : call)
      (more : list (N * call)) :
  plain_call first = true ->
  Forall (fun jc => is_joiner (fst jc) = true /\ plain_call (snd jc) = true)
         more ->
  walkQuery B (query_text first more)
  = (o <- call_operator (parseArg_top B) first ;;
     ops <- mapM (call_operator (parseArg_top B)) (map snd more) ;;
     Ok (walk_tokens (call_tokens o ++ joined_tokens (map fst more) ops)
           empty_operator None)).
Proof.
  intros Hfirst Hmore.
  set (query := query_text first more).
  unfold walkQuery. cbn [walkQuery_fuel]. unfold walkQuery_at.
  rewrite walk_loop_toplevel.
  change (parseArg B _) with (parseArg_of B query).
  pose proof (@toplevel_call (parseArg_of B query) first (length query) []
                (joined more) Hfirst (le_n _)) as Hcall.
  cbn [app length] in Hcall. fold (query_text first more) in Hcall.
  fold query in Hcall. rewrite Hcall. clear Hcall.
  pose proof (@toplevel_joined (parseArg_of B query) more (length query)
                (call_src first) Hmore (le_n _)) as Hrest.
  fold (query_text first more) in Hrest. fold query in Hrest.
  rewrite Hrest. clear Hrest.
  rewrite (@call_operator_top B query first)
    by (unfold query, query_text; rewrite length_app, call_src_length; lia).
  rewrite (@mapM_ext _ _ (call_operator (parseArg_of B query))
             (call_operator (parseArg_top B)) (map snd more)).
  2:{ pose proof (joined_inner_length more (call_src first)) as Hall.
      rewrite Forall_forall in *. intros c Hc.
      apply call_operator_top. apply Hall. exact Hc. }
  destruct (call_operator (parseArg_top B) first) as [o | e]; [| reflexivity].
  cbn [bind].
  destruct (mapM _ (map snd more)) as [ops | e]; reflexivity.
Qed.

(** The operators and the joiners of what the walker reads of a query. *)
Lemma operators_from_call (o : RQLOperator) (rest : list token) :
  forall cur,
    operators_from cur (call_tokens o ++ rest)
    = operators_from {| name := name cur ++ name o; args := args o |} rest.
Proof.
  unfold call_tokens. destruct o as [w parsed]. cbn [name args].
  induction w as [| c w IH]; intros cur; cbn [map app operators_from].
  - unfold set_args. rewrite app_nil_r. reflexivity.
  - rewrite IH. unfold name_char. cbn [name args].
    rewrite <- app_assoc. reflexivity.
Qed.

Lemma walk_tokens_call (o : RQLOperator) (rest : list token) :
  forall cur top,
    walk_tokens (call_tokens o ++ rest) cur top
    = walk_tokens rest {| name := name cur ++ name o; args := args o |} top.
Proof.
  unfold call_tokens. destruct o as [w parsed]. cbn [name args].
  induction w as [| c w IH]; intros cur top; cbn [map app walk_tokens].
  - unfold set_args. rewrite app_nil_r. reflexivity.
  - rewrite IH. unfold name_char. cbn [name args].
    rewrite <- app_assoc. reflexivity.
Qed.

Lemma operators_from_joined (joiners : list N) :
  forall ops cur,
    length joiners = length ops ->
    operators_from cur (joined_tokens joiners ops) = cur :: ops.
Proof.
  unfold joined_tokens.
  induction joiners as [| j joiners IH]; intros [| o ops] cur Hlen;
    try discriminate Hlen; [reflexivity |].
  cbn [combine flat_map fst snd app operators_from].
  rewrite operators_from_call. cbn [app name].
  rewrite IH by (injection Hlen; auto).
  destruct o; reflexivity.
Qed.

Lemma operators_of_query (o : RQLOperator) (joiners : list N)
      (ops : list RQLOperator) :
  length joiners = length ops ->
  operators_of (call_tokens o ++ joined_tokens joiners ops) = o :: ops.
Proof.
  intros Hlen. unfold operators_of.
  rewrite operators_from_call, operators_from_joined by assumption.
  destruct o; reflexivity.
Qed.

Lemma joiners_of_call (o : RQLOperator) (c : N) :
  ~ In (TJoin c) (call_tokens o).
Proof.
  unfold call_tokens. intros H. apply in_app_or in H as [H | [H | []]].
  - apply in_map_iff in H as (x & Hx & _). discriminate Hx.
  - discriminate H.
Qed.

Lemma joiners_of_joined (joiners : list N) (c : N) :
  forall ops, In (TJoin c) (joined_tokens joiners ops) -> In c joiners.
Proof.
  unfold joined_tokens.
  induction joiners as [| j joiners IH]; intros [| o ops] H;
    cbn [combine flat_map fst snd] in H; try destruct H as [].
  - injection H as <-. left. reflexivity.
  - apply in_app_or in H as [H | H].
    + destruct (joiners_of_call _ _ H).
    + right. eapply IH. exact H.
Qed.

Lemma joiners_of_query (o : RQLOperator) (joiners : list N)
      (ops : list RQLOperator) (c : N) :
  In (TJoin c) (call_tokens o ++ joined_tokens joiners ops) -> In c joiners.
Proof.
  intros H. apply in_app_or in H as [H | H].
  - destruct (joiners_of_call _ _ H).
  - eapply joiners_of_joined. exact H.
Qed.

Lemma joined_tokens_app (js1 : list N) :
  forall os1 js2 os2,
    length js1 = length os1 ->
    joined_tokens (js1 ++ js2) (os1 ++ os2)
    = joined_tokens js1 os1 ++ joined_tokens js2 os2.
Proof.
  unfold joined_tokens.
  induction js1 as [| j js1 IH]; intros [| o os1] js2 os2 Hlen;
    try discriminate Hlen; [reflexivity |].
  cbn [app combine flat_map]. rewrite IH by (injection Hlen; auto).
  rewrite <- app_assoc. reflexivity.
Qed.

Lemma joined_tokens_has_joiner (joiners : list N) (ops : list RQLOperator) :
  joiners <> [] -> length joiners = length ops ->
  exists c, In (TJoin c) (joined_tokens joiners ops).
Proof.
  intros Hne Hlen. destruct joiners as [| j joiners]; [contradiction |].
  destruct ops as [| o ops]; [discriminate Hlen |].
  exists j. left. reflexivity.
Qed.

Lemma and_joiner_cases (j : N) :
  and_joiner j = true -> j = ch "&" \/ j = ch ",".
Proof.
  unfold and_joiner. intros H. apply orb_true_iff in H as [H | H];
    apply N.eqb_eq in H; auto.
Qed.

Lemma and_joiner_is_joiner (j : N) : and_joiner j = true -> is_joiner j = true.
Proof.
  unfold and_joiner, is_joiner. intros ->. reflexivity.
Qed.

Lemma after_calls (j : N) (calls : list call) : map snd (after j calls) = calls.
Proof.
  unfold after. rewrite map_map. cbn [snd]. apply map_id.
Qed.

Lemma after_joiners (j c : N) (calls : list call) :
  In c (map fst (after j calls)) -> c = j.
Proof.
  unfold after. rewrite map_map. cbn [fst]. intros H.
  apply in_map_iff in H as (x & <- & _). reflexivity.
Qed.

(* ===================================================================== *)
(** ** [walkQuery] on one operator *)
(* ===================================================================== *)

(** [walkQuery] on the call of one operator whose parens enclose a text
    without escape, quoted runs and nested groups allowed: the name is the
    text before the opening paren, and the arguments are the text between the
    parens, split by [splitArguments] and resolved one by one by [parseArg];
    an exception of either is the exception of [walkQuery]. *)
Theorem walkQuery_call (B : Builtins) (opname inner : jstring) :
  Forall (fun c => operator_char c = true) opname ->
  group_text 0 None inner = true ->
  walkQuery B (opname ++ js "(" ++ inner ++ js ")")
  = (split <- splitArguments inner ;;
     parsed <- mapM (parseArg_top B) split ;;
     Ok {| name := opname; args := parsed |}).
Proof.
  intros Hname Hinner.
  pose proof (@walkQuery_query_text B
                {| call_name := opname; call_inner := inner |} []) as Hwalk.
  unfold query_text, plain_call in Hwalk.
  cbn [joined map mapM bind call_name call_inner] in Hwalk.
  rewrite app_nil_r in Hwalk. unfold call_src in Hwalk.
  cbn [call_name call_inner] in Hwalk.
  rewrite Hwalk; [| | constructor].
  - unfold call_operator. cbn [call_name call_inner].
    destruct (splitArguments inner) as [split | e]; [| reflexivity].
    cbn [bind].
    destruct (mapM (parseArg_top B) split) as [parsed | e]; [| reflexivity].
    cbn [bind]. unfold joined_tokens. cbn [combine flat_map].
    rewrite walk_tokens_call. reflexivity.
  - apply andb_true_iff. split; [| exact Hinner].
    apply forallb_forall. apply Forall_forall. exact Hname.
Qed.

(** The theorem at an operator with an array, a nested call and a quoted
    closing paren among its arguments. *)
Lemma walkQuery_call_witness :
  walkQuery no_runtime (jsq "in(a,(1,2),eq(b,`x)y`))")
  = (split <- splitArguments (jsq "a,(1,2),eq(b,`x)y`)") ;;
     parsed <- mapM (parseArg_top no_runtime) split ;;
     Ok {| name := js "in"; args := parsed |}).
Proof.
  assert (Hname : Forall (fun c => operator_char c = true) (js "in"))
    by (repeat constructor).
  assert (Hinner : group_text 0 None (jsq "a,(1,2),eq(b,`x)y`)") = true)
    by reflexivity.
  exact (@walkQuery_call no_runtime _ _ Hname Hinner).
Defined.

(* ===================================================================== *)
(** ** One kind of joiner *)
(* ===================================================================== *)

Lemma walkQuery_flat (B : Builtins) (first : call) (more : list (N * call))
      (top : jstring) :
  plain_call first = true ->
  Forall (fun jc => plain_call (snd jc) = true) more ->
  Forall (fun jc => is_joiner (fst jc) = true) more ->
  (forall o ops,
      length ops = length more ->
      walk_tokens (call_tokens o ++ joined_tokens (map fst more) ops)
        empty_operator None
      = {| name := top;
           args := map VOperator
                     (operators_of
                        (call_tokens o ++ joined_tokens (map fst more) ops)) |}) ->
  walkQuery B (query_text first more)
  = (ops <- mapM (call_operator (parseArg_top B)) (first :: map snd more) ;;
     Ok {| name := top; args := map VOperator ops |}).
Proof.
  intros Hfirst Hcalls Hjoin Hwalk.
  rewrite walkQuery_query_text; [| assumption |].
  2:{ rewrite Forall_forall in *. intros jc Hjc. split; auto. }
  cbn [mapM].
  destruct (call_operator (parseArg_top B) first) as [o | e]; [| reflexivity].
  cbn [bind].
  destruct (mapM _ (map snd more)) as [ops | e] eqn:Hops; [| reflexivity].
  cbn [bind]. apply mapM_length in Hops. rewrite length_map in Hops.
  rewrite Hwalk by assumption.
  rewrite operators_of_query by (rewrite length_map; auto).
  reflexivity.
Qed.

(** A query of two calls or more without escape, joined by [&] and [,]
    only: [walkQuery] returns one [and] node whose arguments are the
    operators of the calls, in the order of the text, and no aggregate among
    them; joined by [|] only, one [or] node of the same operators.  An
    exception of a call is the exception of [walkQuery]. *)
Theorem walkQuery_single_joiner (B : Builtins) (first : call)
        (more : list (N * call)) :
  forallb plain_call (first :: map snd more) = true ->
  more <> [] ->
  (forallb and_joiner (map fst more) = true ->
   walkQuery B (query_text first more)
   = (ops <- mapM (call_operator (parseArg_top B)) (first :: map snd more) ;;
      Ok {| name := js "and"; args := map VOperator ops |}))
  /\ (forallb (N.eqb (ch "|")) (map fst more) = true ->
      walkQuery B (query_text first more)
      = (ops <- mapM (call_operator (parseArg_top B)) (first :: map snd more) ;;
         Ok {| name := js "or"; args := map VOperator ops |})).
Proof.
  intros Hcalls Hne.
  cbn [forallb] in Hcalls. apply andb_true_iff in Hcalls as [Hfirst Hcalls].
  rewrite forallb_forall in Hcalls.
  assert (Hmore : Forall (fun jc => plain_call (snd jc) = true) more).
  { apply Forall_forall. intros jc Hjc. apply Hcalls. apply in_map. exact Hjc. }
  assert (Hsome : forall o ops,
             length ops = length more ->
             exists c, In (TJoin c)
                         (call_tokens o ++ joined_tokens (map fst more) ops)).
  { intros o ops Hlen. destruct more as [| [j c] more]; [contradiction |].
    destruct ops as [| o' ops]; [discriminate Hlen |].
    exists j. apply in_or_app. right. left. reflexivity. }
  split; intros Hjoin; rewrite forallb_forall in Hjoin;
    apply walkQuery_flat; try assumption.
  - apply Forall_forall. intros jc Hjc.
    apply and_joiner_is_joiner. apply Hjoin. apply in_map. exact Hjc.
  - intros o ops Hlen. apply walk_tokens_and; [| apply Hsome; assumption].
    intros c Hc. apply joiners_of_query in Hc.
    apply and_joiner_cases. auto.
  - apply Forall_forall. intros jc Hjc.
    assert (Hj : N.eqb (ch "|") (fst jc) = true)
      by (apply Hjoin; apply in_map; exact Hjc).
    apply N.eqb_eq in Hj. rewrite <- Hj. reflexivity.
  - intros o ops Hlen. apply walk_tokens_or; [| apply Hsome; assumption].
    intros c Hc. apply joiners_of_query in Hc.
    apply Hjoin in Hc. apply N.eqb_eq in Hc. auto.
Qed.

(** The theorem at a query with a quoted bar and an array among the
    arguments, and at a query of the test suite. *)
Lemma walkQuery_single_joiner_witness :
  walkQuery no_runtime (jsq "eq(name,`a|b`)&limit(10),in(x,(1,2))")
  = Ok {| name := js "and";
          args := [VOp (js "eq") [VStr (js "name"); VStr (js "a|b")];
                   VOp (js "limit") [VNum (Dec false 10 0)];
                   VOp (js "in") [VStr (js "x");
                                  VArr [VNum (Dec false 1 0);
                                        VNum (Dec false 2 0)]]] |}
  /\ walkQuery no_runtime (js "eq(foo,bar)|eq(fizz,buzz)")
     = Ok {| name := js "or";
             args := [VOp (js "eq") [VStr (js "foo"); VStr (js "bar")];
                      VOp (js "eq") [VStr (js "fizz"); VStr (js "buzz")]] |}.
Proof.
  split.
  - refine (proj1 (@walkQuery_single_joiner no_runtime
                     (written_call "eq" "name,`a|b`")
                     [(ch "&", written_call "limit" "10");
                      (ch ",", written_call "in" "x,(1,2)")] _ _) _);
      [reflexivity | discriminate | reflexivity].
  - refine (proj2 (@walkQuery_single_joiner no_runtime
                     (written_call "eq" "foo,bar")
                     [(ch "|", written_call "eq" "fizz,buzz")] _ _) _);
      [reflexivity | discriminate | reflexivity].
Defined.

(** C2, what the code does: after a group the walker moves its index by the
    length of the text that [inside] returned, and [inside] has dropped the
    backslashes of the escapes, so that the walker resumes before the
    closing paren of the group, one character earlier for each escape.  In
    [eq(\a\|)&c(1)], the only joiner outside the parens of the two calls is
    [&]; the walker resumes at the escaped bar, takes it for a joiner and
    returns an [or] node, with an [and] nested in it and the closing paren
    as the name of an operator. *)
Theorem walkQuery_joiner_after_escape (B : Builtins) :
  query_text (written_call "eq" "\a\|") [(ch "&", written_call "c" "1")]
  = js "eq(\a\|)&c(1)"
  /\ inside (js "(\a\|)&c(1)") = Ok (js "a|")
  /\ walkQuery B (js "eq(\a\|)&c(1)")
     = Ok {| name := js "or";
             args := [VOp (js "eq") [VStr (js "a|")];
                      VOp (js "and")
                        [VOp (js ")") [];
                         VOp (js "c") [VNum (Dec false 1 0)]]] |}.
Proof. repeat split. Qed.

(* ===================================================================== *)
(** ** Mixed joiners *)
(* ===================================================================== *)

(** Calls joined by [|] and then, from the first [&] or [,] on, by [&] and
    [,]: the [or] is the outer node; the [and] nested in it begins with the
    call before the first [&] or [,]. *)
Lemma query_or_then_and (B : Builtins) (first : call) (ors : list call)
      (pivot : call) (ands : list (N * call)) :
  forallb plain_call (first :: ors ++ pivot :: map snd ands) = true ->
  ands <> [] ->
  forallb and_joiner (map fst ands) = true ->
  walkQuery B (query_text first (after (ch "|") (ors ++ [pivot]) ++ ands))
  = (lefts <- mapM (call_operator (parseArg_top B)) (first :: ors) ;;
     p <- call_operator (parseArg_top B) pivot ;;
     rights <- mapM (call_operator (parseArg_top B)) (map snd ands) ;;
     Ok {| name := js "or";
           args := map VOperator lefts
                   ++ [VOp (js "and") (map VOperator (p :: rights))] |}).
Proof.
  intros Hcalls Hne Hands.
  cbn [forallb] in Hcalls. apply andb_true_iff in Hcalls as [Hfirst Hcalls].
  rewrite forallb_app in Hcalls. apply andb_true_iff in Hcalls as [Hors Hcalls].
  cbn [forallb] in Hcalls. apply andb_true_iff in Hcalls as [Hpivot Hrights].
  rewrite forallb_forall in Hors, Hrights, Hands.
  rewrite walkQuery_query_text; [| assumption |].
  2:{ apply Forall_app. split; apply Forall_forall; intros [j c] Hjc.
      - unfold after in Hjc. apply in_map_iff in Hjc as (x & E & Hx).
        injection E as <- <-. split; [reflexivity |].
        apply in_app_or in Hx as [Hx | [<- | []]]; auto.
      - split.
        + apply and_joiner_is_joiner. apply Hands.
          apply in_map_iff. exists (j, c). auto.
        + apply Hrights. apply in_map_iff. exists (j, c). auto. }
  rewrite !map_app, after_calls, <- app_assoc. cbn [app mapM].
  destruct (call_operator (parseArg_top B) first) as [o | e]; [| reflexivity].
  cbn [bind]. rewrite mapM_app. cbn [mapM].
  destruct (mapM _ ors) as [l | e] eqn:Hl; [| reflexivity]. cbn [bind].
  destruct (call_operator (parseArg_top B) pivot) as [p | e]; [| reflexivity].
  cbn [bind].
  destruct (mapM _ (map snd ands)) as [r | e] eqn:Hr; [| reflexivity].
  cbn [bind]. f_equal.
  apply mapM_length in Hl, Hr. rewrite length_map in Hr.
  destruct ands as [| [j c] ands]; [contradiction |].
  destruct r as [| o' r]; [discriminate Hr |].
  cbn [length] in Hr. injection Hr as Hr.
  cbn [map fst] in *.
  assert (Hj : and_joiner j = true) by (apply Hands; left; reflexivity).
  assert (Hlen1 : length (map fst (after (ch "|") (ors ++ [pivot])))
                  = length (l ++ [p])).
  { unfold after. rewrite !length_map, !length_app, Hl. reflexivity. }
  replace (l ++ p :: o' :: r) with ((l ++ [p]) ++ o' :: r)
    by (rewrite <- app_assoc; reflexivity).
  rewrite joined_tokens_app by assumption.
  change (joined_tokens (j :: map fst ands) (o' :: r))
    with (TJoin j :: call_tokens o' ++ joined_tokens (map fst ands) r).
  rewrite app_assoc.
  rewrite walk_tokens_first_or_then_and.
  - fold (operators_of (call_tokens o
                          ++ joined_tokens
                               (map fst (after (ch "|") (ors ++ [pivot])))
                               (l ++ [p]))).
    rewrite !operators_of_query
      by (try assumption; rewrite length_map; auto).
    rewrite app_comm_cons, removelast_last, last_last. reflexivity.
  - destruct (@joined_tokens_has_joiner
                (map fst (after (ch "|") (ors ++ [pivot]))) (l ++ [p]))
      as [c0 Hc0]; [| assumption |].
    + unfold after. destruct ors; discriminate.
    + exists c0. apply in_or_app. right. exact Hc0.
  - intros c0 Hc0. apply joiners_of_query in Hc0.
    apply after_joiners in Hc0. exact Hc0.
  - intros c0 Hc0. apply joiners_of_query in Hc0.
    apply and_joiner_cases. apply Hands. right. exact Hc0.
  - apply and_joiner_cases. exact Hj.
Qed.

(** Calls joined by [&] and [,] and then, from the first [|] on, by [|]:
    the [and] is the outer node and holds every call before the first [|];
    the [or] nested in it holds the calls after the first [|] only. *)
Lemma query_and_then_or (B : Builtins) (first : call)
      (ands : list (N * call)) (ors : list call) :
  forallb plain_call (first :: map snd ands ++ ors) = true ->
  ands <> [] -> ors <> [] ->
  forallb and_joiner (map fst ands) = true ->
  walkQuery B (query_text first (ands ++ after (ch "|") ors))
  = (lefts <- mapM (call_operator (parseArg_top B)) (first :: map snd ands) ;;
     rights <- mapM (call_operator (parseArg_top B)) ors ;;
     Ok {| name := js "and";
           args := map VOperator lefts
                   ++ [VOp (js "or") (map VOperator rights)] |}).
Proof.
  intros Hcalls Hne1 Hne2 Hands.
  cbn [forallb] in Hcalls. apply andb_true_iff in Hcalls as [Hfirst Hcalls].
  rewrite forallb_app in Hcalls. apply andb_true_iff in Hcalls as [Hlefts Hors].
  rewrite forallb_forall in Hlefts, Hors, Hands.
  rewrite walkQuery_query_text; [| assumption |].
  2:{ apply Forall_app. split; apply Forall_forall; intros [j c] Hjc.
      - split.
        + apply and_joiner_is_joiner. apply Hands.
          apply in_map_iff. exists (j, c). auto.
        + apply Hlefts. apply in_map_iff. exists (j, c). auto.
      - unfold after in Hjc. apply in_map_iff in Hjc as (x & E & Hx).
        injection E as <- <-. split; [reflexivity | auto]. }
  rewrite !map_app, after_calls. cbn [mapM].
  destruct (call_operator (parseArg_top B) first) as [o | e]; [| reflexivity].
  cbn [bind]. rewrite mapM_app.
  destruct (mapM _ (map snd ands)) as [l | e] eqn:Hl; [| reflexivity].
  cbn [bind].
  destruct (mapM _ ors) as [r | e] eqn:Hr; [| reflexivity].
  cbn [bind]. f_equal.
  apply mapM_length in Hl, Hr. rewrite length_map in Hl.
  destruct ors as [| c ors]; [contradiction |].
  destruct r as [| o' r]; [discriminate Hr |].
  cbn [length] in Hr. injection Hr as Hr.
  rewrite joined_tokens_app by (rewrite length_map; auto).
  change (joined_tokens (map fst (after (ch "|") (c :: ors))) (o' :: r))
    with (TJoin (ch "|")
          :: call_tokens o' ++ joined_tokens (map fst (after (ch "|") ors)) r).
  rewrite app_assoc.
  rewrite walk_tokens_first_and_then_or.
  - fold (operators_of (call_tokens o ++ joined_tokens (map fst ands) l)).
    rewrite !operators_of_query
      by (unfold after; rewrite ?length_map; auto).
    reflexivity.
  - destruct (@joined_tokens_has_joiner (map fst ands) l) as [c0 Hc0].
    + destruct ands; [contradiction | discriminate].
    + rewrite length_map. auto.
    + exists c0. apply in_or_app. right. exact Hc0.
  - intros c0 Hc0. apply joiners_of_query in Hc0.
    apply and_joiner_cases. auto.
  - intros c0 Hc0. apply joiners_of_query in Hc0.
    apply after_joiners in Hc0. exact Hc0.
Qed.

(** A query of calls without escape joined by [|] and then, from the first
    [&] or [,] on, by [&] and [,]: [walkQuery] returns an [or] node whose
    arguments are the operators of the calls before the last [|], followed by
    one [and] node that holds the operator of the call just before the first
    [&] or [,] and those of every call after it.  An exception of a call is
    the exception of [walkQuery]. *)
Theorem walkQuery_or_then_and (B : Builtins) (first : call) (ors : list call)
        (pivot : call) (ands : list (N * call)) :
  forallb plain_call (first :: ors ++ pivot :: map snd ands) = true ->
  ands <> [] ->
  forallb and_joiner (map fst ands) = true ->
  walkQuery B (query_text first (after (ch "|") (ors ++ [pivot]) ++ ands))
  = (lefts <- mapM (call_operator (parseArg_top B)) (first :: ors) ;;
     p <- call_operator (parseArg_top B) pivot ;;
     rights <- mapM (call_operator (parseArg_top B)) (map snd ands) ;;
     Ok {| name := js "or";
           args := map VOperator lefts
                   ++ [VOp (js "and") (map VOperator (p :: rights))] |}).
Proof. apply query_or_then_and. Qed.

(** The theorem at [a(1)|b(2)|c(3)&d(4),e(5)]. *)
Lemma walkQuery_or_then_and_witness :
  walkQuery no_runtime (js "a(1)|b(2)|c(3)&d(4),e(5)")
  = Ok {| name := js "or";
          args := [VOp (js "a") [VNum (Dec false 1 0)];
                   VOp (js "b") [VNum (Dec false 2 0)];
                   VOp (js "and") [VOp (js "c") [VNum (Dec false 3 0)];
                                   VOp (js "d") [VNum (Dec false 4 0)];
                                   VOp (js "e") [VNum (Dec false 5 0)]]] |}.
Proof.
  refine (@walkQuery_or_then_and no_runtime
            (written_call "a" "1") [written_call "b" "2"]
            (written_call "c" "3")
            [(ch "&", written_call "d" "4"); (ch ",", written_call "e" "5")]
            _ _ _);
    [reflexivity | discriminate | reflexivity].
Defined.

(** A query of calls without escape joined by [&] and [,] and then, from
    the first [|] on, by [|]: [walkQuery] returns an [and] node that holds
    the operator of every call before the first [|], the one just before it
    as well, followed by one [or] node of the operators of the calls after
    the first [|].  An exception of a call is the exception of
    [walkQuery]. *)
Theorem walkQuery_and_then_or (B : Builtins) (first : call)
        (ands : list (N * call)) (ors : list call) :
  forallb plain_call (first :: map snd ands ++ ors) = true ->
  ands <> [] -> ors <> [] ->
  forallb and_joiner (map fst ands) = true ->
  walkQuery B (query_text first (ands ++ after (ch "|") ors))
  = (lefts <- mapM (call_operator (parseArg_top B)) (first :: map snd ands) ;;
     rights <- mapM (call_operator (parseArg_top B)) ors ;;
     Ok {| name := js "and";
           args := map VOperator lefts
                   ++ [VOp (js "or") (map VOperator rights)] |}).
Proof. apply query_and_then_or. Qed.

(** The theorem at [a(1)&b(2)|c(3)|d(4)]. *)
Lemma walkQuery_and_then_or_witness :
  walkQuery no_runtime (js "a(1)&b(2)|c(3)|d(4)")
  = Ok {| name := js "and";
          args := [VOp (js "a") [VNum (Dec false 1 0)];
                   VOp (js "b") [VNum (Dec false 2 0)];
                   VOp (js "or") [VOp (js "c") [VNum (Dec false 3 0)];
                                  VOp (js "d") [VNum (Dec false 4 0)]]] |}.
Proof.
  refine (@walkQuery_and_then_or no_runtime
            (written_call "a" "1") [(ch "&", written_call "b" "2")]
            [written_call "c" "3"; written_call "d" "4"] _ _ _ _);
    [reflexivity | discriminate | discriminate | reflexivity].
Defined.



